(** * Vexor: sharded in-memory k-NN vector store

    A shallow embedding of [pkg/distance] (scalar kernels, the arm64 NEON
    kernels and their dispatch) and of [pkg/store] (sharded SoA store,
    Insert / Delete / Count / Search / SearchCosine), together with the
    properties of the specification that concern them.

    Conventions.
    - [float32] is IEEE-754 binary32, modelled by the Standard Library's
      [spec_float] at precision 24 and [emax] 128, round-to-nearest-even;
      [float64] is the same at precision 53 and [emax] 1024.
    - A Go [string] is a byte sequence: [String.string].
    - A Go slice is a [list]; a Go [map[string]int] is a [gmap string nat].
    - The per-shard locks are not modelled: every operation is taken
      atomically, which is what the locks provide for a single shard. *)

From Stdlib Require Import ZArith List Bool Lia.
From Stdlib Require Import Floats.SpecFloat.
From stdpp Require Import gmap strings list fin_maps sorting.

Local Open Scope Z_scope.

(* ===================================================================== *)
(** * float32 and float64 *)
(* ===================================================================== *)

Module F32.

Definition prec : Z := 24.
Definition emax : Z := 128.

Definition float32 := spec_float.

Definition add : float32 -> float32 -> float32 := SFadd prec emax.
Definition sub : float32 -> float32 -> float32 := SFsub prec emax.
Definition mul : float32 -> float32 -> float32 := SFmul prec emax.
Definition div : float32 -> float32 -> float32 := SFdiv prec emax.

(** Go's [==] and [<] on floats: false as soon as one side is NaN. *)
Definition eqb : float32 -> float32 -> bool := SFeqb.
Definition ltb : float32 -> float32 -> bool := SFltb.
Definition leb : float32 -> float32 -> bool := SFleb.

Definition of_Z (z : Z) : float32 := binary_normalize prec emax z 0 false.
(** [m * 2^e], rounded to binary32. *)
Definition of_scaled (m e : Z) : float32 := binary_normalize prec emax m e false.

Definition zero : float32 := S754_zero false.
Definition one : float32 := of_Z 1.

Definition is_nan (x : float32) : bool :=
  match x with S754_nan => true | _ => false end.

Definition is_finite (x : float32) : bool :=
  match x with
  | S754_zero _ => true
  | S754_finite _ _ _ => true
  | _ => false
  end.

Definition sign (x : float32) : bool :=
  match x with
  | S754_zero s | S754_infinity s | S754_finite s _ _ => s
  | S754_nan => false
  end.

(** Fused multiply-add [x * y + z] with a single rounding (the lane
    operation of FMLA).  The product of two finite numbers is kept
    exact, aligned with [z] and rounded once. *)
Definition fma (x y z : float32) : float32 :=
  match x, y with
  | S754_nan, _ | _, S754_nan => S754_nan
  | S754_infinity _, S754_zero _ | S754_zero _, S754_infinity _ => S754_nan
  | S754_infinity sx, S754_infinity sy
  | S754_infinity sx, S754_finite sy _ _
  | S754_finite sx _ _, S754_infinity sy =>
      let s := xorb sx sy in
      match z with
      | S754_nan => S754_nan
      | S754_infinity sz => if Bool.eqb s sz then z else S754_nan
      | _ => S754_infinity s
      end
  | S754_finite sx _ _, S754_zero sy
  | S754_zero sx, S754_finite sy _ _
  | S754_zero sx, S754_zero sy =>
      match z with
      | S754_zero sz =>
          if Bool.eqb (xorb sx sy) sz then z else S754_zero false
      | _ => z
      end
  | S754_finite sx mx ex, S754_finite sy my ey =>
      match z with
      | S754_nan => S754_nan
      | S754_infinity _ => z
      | S754_zero _ => mul x y
      | S754_finite sz mz ez =>
          let ep := ex + ey in
          let e := Z.min ep ez in
          binary_normalize prec emax
            (cond_Zopp (xorb sx sy) (Zpos (fst (shl_align (mx * my) ep e)))
             + cond_Zopp sz (Zpos (fst (shl_align mz ez e))))
            e false
      end
  end.

End F32.

Module F64.

Definition prec : Z := 53.
Definition emax : Z := 1024.

Definition float64 := spec_float.

Definition sqrt : float64 -> float64 := SFsqrt prec emax.

(** [float64(x)] for a [float32] [x]: exact. *)
Definition of_f32 (x : F32.float32) : float64 :=
  match x with
  | S754_finite s m e => binary_normalize prec emax (cond_Zopp s (Zpos m)) e s
  | _ => x
  end.

(** [float32(x)] for a [float64] [x]: rounds to nearest even. *)
Definition to_f32 (x : float64) : F32.float32 :=
  match x with
  | S754_finite s m e =>
      binary_normalize F32.prec F32.emax (cond_Zopp s (Zpos m)) e s
  | _ => x
  end.

End F64.

Abbreviation float32 := F32.float32.

(** [sqrt32] of store.go: [float32(math.Sqrt(float64(x)))]. *)
Definition sqrt32 (x : float32) : float32 :=
  F64.to_f32 (F64.sqrt (F64.of_f32 x)).

(* ===================================================================== *)
(** * pkg/distance: the kernels *)
(* ===================================================================== *)

(** The arithmetic a kernel is written with.  The program runs the
    kernels on [float32]; the instance on [Z] is the same code under exact
    arithmetic and serves to compare the two summation orders. *)
Class Arith (T : Type) := {
  a_zero : T;
  a_add : T -> T -> T;
  a_sub : T -> T -> T;
  a_mul : T -> T -> T;
  (** [a_fma x y z] is [x * y + z], rounded once. *)
  a_fma : T -> T -> T -> T
}.

#[export] Instance float32_arith : Arith float32 := {|
  a_zero := F32.zero;
  a_add := F32.add;
  a_sub := F32.sub;
  a_mul := F32.mul;
  a_fma := F32.fma
|}.

#[export] Instance exact_arith : Arith Z := {|
  a_zero := 0;
  a_add := Z.add;
  a_sub := Z.sub;
  a_mul := Z.mul;
  a_fma := fun x y z => x * y + z
|}.

Section Kernels.
Context {T : Type} `{Arith T}.

(** ** distance.go: scalar loops

    [for i := 0; i < len(a); i++ { ... a[i] ... b[i] ... }].  The loop
    runs over [a]; Go faults on [b[i]] when [b] is shorter, the model
    stops there (all callers pass equal lengths). *)

Fixpoint euclidean_scalar_from (sum : T) (a b : list T) : T :=
  match a, b with
  | x :: a', y :: b' =>
      let diff := a_sub x y in
      euclidean_scalar_from (a_add sum (a_mul diff diff)) a' b'
  | _, _ => sum
  end.

Definition EuclideanDistanceSquaredScalar (a b : list T) : T :=
  euclidean_scalar_from a_zero a b.

Fixpoint dot_scalar_from (sum : T) (a b : list T) : T :=
  match a, b with
  | x :: a', y :: b' => dot_scalar_from (a_add sum (a_mul x y)) a' b'
  | _, _ => sum
  end.

Definition DotProductScalar (a b : list T) : T :=
  dot_scalar_from a_zero a b.

(** ** distance_arm64.s: the NEON kernels

    A 128-bit register in the [.S4] arrangement is four lanes. *)

Record V4 := mkV4 { lane0 : T; lane1 : T; lane2 : T; lane3 : T }.

(** [VEOR V.B16, V.B16, V.B16] *)
Definition vzero : V4 := mkV4 a_zero a_zero a_zero a_zero.

(** [VLD1 (R), [V.S4]]: four consecutive elements at the pointer; the
    pointer is the remaining suffix of the slice.  (Reading past the
    slice is outside the model: the missing lanes read as zero.) *)
Definition vld1 (p : list T) : V4 :=
  mkV4 (nth 0 p a_zero) (nth 1 p a_zero) (nth 2 p a_zero) (nth 3 p a_zero).

(** [VFMLA Vm.S4, Vn.S4, Vd.S4]: [Vd += Vn * Vm], fused, per lane. *)
Definition vfmla (m n d : V4) : V4 :=
  mkV4 (a_fma (lane0 n) (lane0 m) (lane0 d))
       (a_fma (lane1 n) (lane1 m) (lane1 d))
       (a_fma (lane2 n) (lane2 m) (lane2 d))
       (a_fma (lane3 n) (lane3 m) (lane3 d)).

(** [fadd vd.4s, vn.4s, vm.4s] *)
Definition vfadd (n m : V4) : V4 :=
  mkV4 (a_add (lane0 n) (lane0 m)) (a_add (lane1 n) (lane1 m))
       (a_add (lane2 n) (lane2 m)) (a_add (lane3 n) (lane3 m)).

(** [fsub vd.4s, vn.4s, vm.4s] *)
Definition vfsub (n m : V4) : V4 :=
  mkV4 (a_sub (lane0 n) (lane0 m)) (a_sub (lane1 n) (lane1 m))
       (a_sub (lane2 n) (lane2 m)) (a_sub (lane3 n) (lane3 m)).

(** [faddp vd.4s, vn.4s, vm.4s]: pairwise sums of [vn] then of [vm]. *)
Definition vfaddp (n m : V4) : V4 :=
  mkV4 (a_add (lane0 n) (lane1 n)) (a_add (lane2 n) (lane3 n))
       (a_add (lane0 m) (lane1 m)) (a_add (lane2 m) (lane3 m)).

(** [faddp s0, v0.2s]: the sum of the two low lanes. *)
Definition faddp_s (n : V4) : T := a_add (lane0 n) (lane1 n).

(** Register file: [R1] the remaining count, [R0]/[R2] the two
    pointers, [V0..V3] the accumulators. *)
Record regs := mkRegs {
  R1 : nat; R0 : list T; R2 : list T;
  V0 : V4; V1 : V4; V2 : V4; V3 : V4
}.

Definition neon_entry (a b : list T) : regs :=
  mkRegs (length a) a b vzero vzero vzero vzero.

(** [dot_loop16], with its guard [CMP $16, R1; BLT]. *)
Fixpoint dot_loop16 (fuel : nat) (r : regs) : regs :=
  match fuel with
  | O => r
  | S fuel' =>
      if (R1 r <? 16)%nat then r
      else
        let v4 := vld1 (R0 r) in
        let v5 := vld1 (drop 4 (R0 r)) in
        let v6 := vld1 (drop 8 (R0 r)) in
        let v7 := vld1 (drop 12 (R0 r)) in
        let v8 := vld1 (R2 r) in
        let v9 := vld1 (drop 4 (R2 r)) in
        let v10 := vld1 (drop 8 (R2 r)) in
        let v11 := vld1 (drop 12 (R2 r)) in
        dot_loop16 fuel'
          (mkRegs (R1 r - 16) (drop 16 (R0 r)) (drop 16 (R2 r))
             (vfmla v4 v8 (V0 r)) (vfmla v5 v9 (V1 r))
             (vfmla v6 v10 (V2 r)) (vfmla v7 v11 (V3 r)))
  end.

(** [dot_loop4], with its guard [CMP $4, R1; BLT]. *)
Fixpoint dot_loop4 (fuel : nat) (r : regs) : regs :=
  match fuel with
  | O => r
  | S fuel' =>
      if (R1 r <? 4)%nat then r
      else
        let v4 := vld1 (R0 r) in
        let v5 := vld1 (R2 r) in
        dot_loop4 fuel'
          (mkRegs (R1 r - 4) (drop 4 (R0 r)) (drop 4 (R2 r))
             (vfmla v4 v5 (V0 r)) (V1 r) (V2 r) (V3 r))
  end.

(** [*_reduce]: fold the four accumulators and the four lanes. *)
Definition neon_reduce (r : regs) : T :=
  let v0 := vfadd (V0 r) (V1 r) in
  let v2 := vfadd (V2 r) (V3 r) in
  let v0 := vfadd v0 v2 in
  let v0 := vfaddp v0 v0 in
  faddp_s v0.

(** [dot_scalar]: [FMULS] then [FADDS], for the last 0-3 elements
    ([CBZ R1] guards the loop, [CBNZ R1] repeats it). *)
Fixpoint dot_tail (n : nat) (f0 : T) (pa pb : list T) : T :=
  match n with
  | O => f0
  | S n' =>
      let f4 := nth 0 pa a_zero in
      let f5 := nth 0 pb a_zero in
      let f4 := a_mul f5 f4 in
      dot_tail n' (a_add f0 f4) (drop 1 pa) (drop 1 pb)
  end.

Definition dotProductNEON (a b : list T) : T :=
  let r := dot_loop16 (length a) (neon_entry a b) in
  let r := dot_loop4 (length a) r in
  dot_tail (R1 r) (neon_reduce r) (R0 r) (R2 r).

(** [euc_loop16] *)
Fixpoint euc_loop16 (fuel : nat) (r : regs) : regs :=
  match fuel with
  | O => r
  | S fuel' =>
      if (R1 r <? 16)%nat then r
      else
        let v4 := vld1 (R0 r) in
        let v5 := vld1 (drop 4 (R0 r)) in
        let v6 := vld1 (drop 8 (R0 r)) in
        let v7 := vld1 (drop 12 (R0 r)) in
        let v8 := vld1 (R2 r) in
        let v9 := vld1 (drop 4 (R2 r)) in
        let v10 := vld1 (drop 8 (R2 r)) in
        let v11 := vld1 (drop 12 (R2 r)) in
        let v4 := vfsub v4 v8 in
        let v5 := vfsub v5 v9 in
        let v6 := vfsub v6 v10 in
        let v7 := vfsub v7 v11 in
        euc_loop16 fuel'
          (mkRegs (R1 r - 16) (drop 16 (R0 r)) (drop 16 (R2 r))
             (vfmla v4 v4 (V0 r)) (vfmla v5 v5 (V1 r))
             (vfmla v6 v6 (V2 r)) (vfmla v7 v7 (V3 r)))
  end.

(** [euc_loop4] *)
Fixpoint euc_loop4 (fuel : nat) (r : regs) : regs :=
  match fuel with
  | O => r
  | S fuel' =>
      if (R1 r <? 4)%nat then r
      else
        let v4 := vld1 (R0 r) in
        let v5 := vld1 (R2 r) in
        let v4 := vfsub v4 v5 in
        euc_loop4 fuel'
          (mkRegs (R1 r - 4) (drop 4 (R0 r)) (drop 4 (R2 r))
             (vfmla v4 v4 (V0 r)) (V1 r) (V2 r) (V3 r))
  end.

(** [euc_scalar]: [FSUBS], [FMULS], [FADDS]. *)
Fixpoint euc_tail (n : nat) (f0 : T) (pa pb : list T) : T :=
  match n with
  | O => f0
  | S n' =>
      let f4 := nth 0 pa a_zero in
      let f5 := nth 0 pb a_zero in
      let f4 := a_sub f4 f5 in
      let f4 := a_mul f4 f4 in
      euc_tail n' (a_add f0 f4) (drop 1 pa) (drop 1 pb)
  end.

Definition euclideanDistanceSquaredNEON (a b : list T) : T :=
  let r := euc_loop16 (length a) (neon_entry a b) in
  let r := euc_loop4 (length a) r in
  euc_tail (R1 r) (neon_reduce r) (R0 r) (R2 r).

(** ** Dispatch: distance_arm64.go and the [!arm64] build *)

Inductive GOARCH := arm64 | other_arch.

Definition euclideanDistanceSquaredPlatform (arch : GOARCH) (a b : list T) : T :=
  match arch with
  | arm64 =>
      if (4 <=? length a)%nat then euclideanDistanceSquaredNEON a b
      else EuclideanDistanceSquaredScalar a b
  | other_arch => EuclideanDistanceSquaredScalar a b
  end.

Definition dotProductPlatform (arch : GOARCH) (a b : list T) : T :=
  match arch with
  | arm64 =>
      if (4 <=? length a)%nat then dotProductNEON a b
      else DotProductScalar a b
  | other_arch => DotProductScalar a b
  end.

Definition EuclideanDistanceSquared (arch : GOARCH) (a b : list T) : T :=
  euclideanDistanceSquaredPlatform arch a b.

Definition DotProduct (arch : GOARCH) (a b : list T) : T :=
  dotProductPlatform arch a b.

End Kernels.

Arguments V4 : clear implicits.
Arguments regs : clear implicits.

(** ** distance.go: the float32-only functions *)

Definition EuclideanDistance (arch : GOARCH) (a b : list float32) : float32 :=
  sqrt32 (EuclideanDistanceSquared arch a b).

Definition Magnitude (arch : GOARCH) (v : list float32) : float32 :=
  sqrt32 (DotProduct arch v v).

Definition CosineSimilarity (arch : GOARCH) (a b : list float32) : float32 :=
  let dot := DotProduct arch a b in
  let magA := Magnitude arch a in
  let magB := Magnitude arch b in
  if F32.eqb magA F32.zero || F32.eqb magB F32.zero then F32.zero
  else F32.div dot (F32.mul magA magB).

Definition CosineDistance (arch : GOARCH) (a b : list float32) : float32 :=
  F32.sub F32.one (CosineSimilarity arch a b).

(* ===================================================================== *)
(** * container/heap (Go standard library) *)
(* ===================================================================== *)

(** The store keeps its candidates in a [maxHeap], a slice driven by
    [container/heap].  [less x y] is [h.Less(i, j)] for [x = h[i]] and
    [y = h[j]]; [h.Swap] and the slice's own [Push]/[Pop] are the list
    operations below. *)
Section Heap.
Context {A : Type} `{Inhabited A}.
Variable less : A -> A -> bool.

(** [h[i], h[j] = h[j], h[i]] *)
Definition swap (h : list A) (i j : nat) : list A :=
  <[j := h !!! i]> (<[i := h !!! j]> h).

(** [up(h, j)]: [i := (j - 1) / 2] truncates towards zero, so the parent
    of the root is the root itself and the loop stops on [i == j]. *)
Fixpoint up (fuel : nat) (h : list A) (j : nat) : list A :=
  match fuel with
  | O => h
  | S fuel' =>
      let i := ((j - 1) / 2)%nat in
      if bool_decide (i = j) || negb (less (h !!! j) (h !!! i)) then h
      else up fuel' (swap h i j) i
  end.

(** [down(h, i0, n)] *)
Fixpoint down (fuel : nat) (h : list A) (i n : nat) : list A :=
  match fuel with
  | O => h
  | S fuel' =>
      let j1 := (2 * i + 1)%nat in
      if (n <=? j1)%nat then h
      else
        let j2 := (j1 + 1)%nat in
        let j := if (j2 <? n)%nat && less (h !!! j2) (h !!! j1) then j2 else j1 in
        if negb (less (h !!! j) (h !!! i)) then h
        else down fuel' (swap h i j) j n
  end.

(** [heap.Push(h, x)]: append, then [up(h, h.Len()-1)]. *)
Definition heap_Push (h : list A) (x : A) : list A :=
  let h := h ++ [x] in
  up (length h) h (length h - 1).

(** [heap.Pop(h)]: [n := h.Len() - 1; h.Swap(0, n); down(h, 0, n)], then
    the slice's [Pop] cuts off and returns the last element. *)
Definition heap_Pop (h : list A) : A * list A :=
  let n := (length h - 1)%nat in
  let h := swap h 0 n in
  let h := down (length h) h 0 n in
  (h !!! n, take n h).

(** The candidate step of both loops of [Search]:
    [if h.Len() < k { Push } else if less-than-root { Pop; Push }]. *)
Definition offer (k : Z) (h : list A) (x : A) : list A :=
  if Z.of_nat (length h) <? k then heap_Push h x
  else if less (h !!! 0%nat) x then heap_Push (snd (heap_Pop h)) x
  else h.

(** [for i := h.Len() - 1; i >= 0; i-- { r := heap.Pop(h); results[i] = post(r) }]:
    the popped elements fill the result from the back.  [post] is the
    identity in the workers and in [SearchCosine], and takes the square
    root of the distance in the last loop of [Search]. *)
Fixpoint drain (post : A -> A) (fuel : nat) (h : list A) (acc : list A) : list A :=
  match fuel with
  | O => acc
  | S fuel' =>
      let '(x, h') := heap_Pop h in
      drain post fuel' h' (post x :: acc)
  end.

Definition drain_all (post : A -> A) (h : list A) : list A :=
  drain post (length h) h [].

End Heap.

(* ===================================================================== *)
(** * pkg/store *)
(* ===================================================================== *)

Local Open Scope nat_scope.

Inductive error := ErrDimensionMismatch | ErrEmptyID | ErrNotFound.

Definition numShards : nat := 16.

Record Vector := mkVector { ID : string; Data : list float32 }.

Record SearchResult := mkResult { rID : string; Distance : float32 }.

#[export] Instance SearchResult_inhabited : Inhabited SearchResult :=
  populate (mkResult "" F32.zero).

#[export] Instance float32_inhabited : Inhabited float32 := populate F32.zero.

(** A shard in SoA layout: row [i] is [data[i*dim : (i+1)*dim]]. *)
Record shard := mkShard {
  ids : list string;
  data : list float32;
  idIndex : gmap string nat
}.

#[export] Instance shard_inhabited : Inhabited shard := populate (mkShard [] [] ∅).

Record VectorStore := mkStore {
  shards : list shard;
  dimension : Z
}.

Definition NewVectorStore (dimension : Z) : VectorStore :=
  mkStore (replicate numShards (mkShard [] [] ∅)) dimension.

(** ** FNV-1a, 32 bits ([hash/fnv]) *)

Definition fnv_offset32 : Z := 2166136261%Z.
Definition fnv_prime32 : Z := 16777619%Z.

Definition byte_of (c : Ascii.ascii) : Z := Z.of_N (Ascii.N_of_ascii c).

Fixpoint fnv1a32_from (h : Z) (s : string) : Z :=
  match s with
  | EmptyString => h
  | String c s' =>
      fnv1a32_from ((Z.lxor h (byte_of c) * fnv_prime32) mod 2 ^ 32)%Z s'
  end.

Definition fnv1a32 (s : string) : Z := fnv1a32_from fnv_offset32 s.

Definition shardIndex (id : string) : nat :=
  Z.to_nat (fnv1a32 id mod Z.of_nat numShards)%Z.

(** ** Slices *)

(** [s[lo:hi]] for [lo <= hi <= len(s)] (Go faults otherwise). *)
Definition slice {A} (s : list A) (lo hi : nat) : list A :=
  take (hi - lo) (drop lo s).

(** [copy(s[lo:hi], src)]: overwrites [min(hi - lo, len(src))] elements
    of [s] from [lo] on, for [lo <= hi <= len(s)]. *)
Definition copy_into {A} (s : list A) (lo hi : nat) (src : list A) : list A :=
  let n := (hi - lo) `min` length src in
  take lo s ++ take n src ++ drop (lo + n) s.

Definition set_shard (s : VectorStore) (i : nat) (sh : shard) : VectorStore :=
  mkStore (<[i := sh]> (shards s)) (dimension s).

(** The store's [dimension] as a row width.  It is only used on paths
    where the dimension check has passed or a row exists. *)
Definition dim_of (s : VectorStore) : nat := Z.to_nat (dimension s).

(** ** Insert *)

Definition Insert (s : VectorStore) (v : Vector) : VectorStore * option error :=
  if bool_decide (ID v = "") then (s, Some ErrEmptyID)
  else if bool_decide (Z.of_nat (length (Data v)) ≠ dimension s)
  then (s, Some ErrDimensionMismatch)
  else
    let si := shardIndex (ID v) in
    let sh := shards s !!! si in
    let dim := dim_of s in
    match idIndex sh !! ID v with
    | Some idx =>
        let data' := copy_into (data sh) (idx * dim) ((idx + 1) * dim) (Data v) in
        (set_shard s si (mkShard (ids sh) data' (idIndex sh)), None)
    | None =>
        let idIndex' := <[ID v := length (ids sh)]> (idIndex sh) in
        let ids' := ids sh ++ [ID v] in
        let data' := data sh ++ Data v in
        (set_shard s si (mkShard ids' data' idIndex'), None)
    end.

(** ** Delete

    [lastIdx := len(sh.ids) - 1] is computed on [nat]: an entry of
    [idIndex] with an empty [ids] would make it [-1] in Go and fault on
    the next line; the model then takes 0. *)

Definition Delete (s : VectorStore) (id : string) : VectorStore * option error :=
  let si := shardIndex id in
  let sh := shards s !!! si in
  match idIndex sh !! id with
  | None => (s, Some ErrNotFound)
  | Some idx =>
      let dim := dim_of s in
      let lastIdx := length (ids sh) - 1 in
      let sh :=
        if bool_decide (idx ≠ lastIdx) then
          let ids' := <[idx := ids sh !!! lastIdx]> (ids sh) in
          let data' :=
            copy_into (data sh) (idx * dim) ((idx + 1) * dim)
              (slice (data sh) (lastIdx * dim) ((lastIdx + 1) * dim)) in
          mkShard ids' data' (<[ids' !!! idx := idx]> (idIndex sh))
        else sh in
      (set_shard s si
         (mkShard (take lastIdx (ids sh)) (take (lastIdx * dim) (data sh))
            (delete id (idIndex sh))),
       None)
  end.

(** ** Count, Dimension *)

Definition Count (s : VectorStore) : nat :=
  foldl (fun total sh => total + length (ids sh)) 0 (shards s).

Definition Dimension (s : VectorStore) : Z := dimension s.

(** ** Search, SearchCosine

    [Search] and [SearchCosine] are the same code up to the metric and the
    treatment of the distance in the last loop; the shared parts are
    written once.  [procs] is the value of [runtime.GOMAXPROCS(0)], at
    least 1.  The workers own disjoint heaps and only read the shards, so
    running them one after the other gives the same [workerResults]. *)

(** [maxHeap.Less]: [h[i].Distance > h[j].Distance]. *)
Definition maxHeap_Less (x y : SearchResult) : bool :=
  F32.ltb (Distance y) (Distance x).

Section Search.
Variable procs : positive.
Variable metric : list float32 -> list float32 -> float32.

Definition nWorkers : nat := Pos.to_nat procs `min` numShards.

Definition shardsPerWorker : nat := (numShards + nWorkers - 1) / nWorkers.

(** [for i := 0; i < n; i++ { ... }] over the rows of one shard. *)
Definition scan_shard (dim : nat) (query : list float32) (k : Z)
    (h : list SearchResult) (sh : shard) : list SearchResult :=
  foldl
    (fun h i =>
       let vec := slice (data sh) (i * dim) ((i + 1) * dim) in
       let dist := metric query vec in
       offer maxHeap_Less k h (mkResult (ids sh !!! i) dist))
    h (seq 0 (length (ids sh))).

(** The goroutine of worker [workerID]. *)
Definition worker (s : VectorStore) (query : list float32) (k : Z)
    (workerID : nat) : list SearchResult :=
  let start := workerID * shardsPerWorker in
  let end_ := start + shardsPerWorker in
  let end_ := if numShards <? end_ then numShards else end_ in
  let h :=
    foldl (fun h si => scan_shard (dim_of s) query k h (shards s !!! si))
      [] (seq start (end_ - start)) in
  drain_all maxHeap_Less id h.

(** Merge of all worker results into the final heap. *)
Definition merge (k : Z) (workerResults : list (list SearchResult)) : list SearchResult :=
  foldl (fun h wr => foldl (offer maxHeap_Less k) h wr) [] workerResults.

Definition knn (post : SearchResult -> SearchResult)
    (s : VectorStore) (query : list float32) (k : Z)
    : list SearchResult * option error :=
  if bool_decide (Z.of_nat (length query) ≠ dimension s)
  then ([], Some ErrDimensionMismatch)
  else if (k <=? 0)%Z then ([], None)
  else
    let workerResults := map (worker s query k) (seq 0 nWorkers) in
    let finalHeap := merge k workerResults in
    (drain_all maxHeap_Less post finalHeap, None).

End Search.

(** [r.Distance = sqrt32(r.Distance)] *)
Definition sqrt_result (r : SearchResult) : SearchResult :=
  mkResult (rID r) (sqrt32 (Distance r)).

Definition Search (arch : GOARCH) (procs : positive)
    (s : VectorStore) (query : list float32) (k : Z)
    : list SearchResult * option error :=
  knn procs (EuclideanDistanceSquared arch) sqrt_result s query k.

Definition SearchCosine (arch : GOARCH) (procs : positive)
    (s : VectorStore) (query : list float32) (k : Z)
    : list SearchResult * option error :=
  knn procs (CosineDistance arch) id s query k.

(** A store built through the public API: [NewVectorStore] followed by
    [Insert] and [Delete] calls (whatever they return). *)
Inductive op := OpInsert (v : Vector) | OpDelete (id : string).

Definition apply_op (s : VectorStore) (o : op) : VectorStore :=
  match o with
  | OpInsert v => fst (Insert s v)
  | OpDelete id => fst (Delete s id)
  end.

Definition run_ops (s : VectorStore) (os : list op) : VectorStore :=
  foldl apply_op s os.

Inductive reachable (D : Z) : VectorStore -> Prop :=
  | reach_new : reachable D (NewVectorStore D)
  | reach_insert s v : reachable D s -> reachable D (fst (Insert s v))
  | reach_delete s id : reachable D s -> reachable D (fst (Delete s id)).

(* ===================================================================== *)
(** * Properties *)
(* ===================================================================== *)

(** ** Rows of a contiguous buffer *)

Section UniformConcat.
Context {A : Type}.
Implicit Types (rs : list (list A)) (dim : nat).

Definition uniform dim rs : Prop := Forall (fun r => length r = dim) rs.

Lemma length_concat_uniform dim rs :
  uniform dim rs -> length (concat rs) = length rs * dim.
Proof.
  induction 1 as [|r rs Hr _ IH]; simpl; [done|].
  rewrite length_app, IH, Hr. lia.
Qed.

Lemma take_concat_uniform dim rs n :
  uniform dim rs -> take (n * dim) (concat rs) = concat (take n rs).
Proof.
  intros Hu. revert n. induction Hu as [|r rs Hr _ IH]; intros n.
  - simpl. by rewrite !take_nil.
  - destruct n as [|n]; simpl; [done|].
    rewrite take_app_ge by lia.
    f_equal. replace (dim + n * dim - length r) with (n * dim) by lia. apply IH.
Qed.

Lemma drop_concat_uniform dim rs n :
  uniform dim rs -> drop (n * dim) (concat rs) = concat (drop n rs).
Proof.
  intros Hu. revert n. induction Hu as [|r rs Hr _ IH]; intros n.
  - simpl. by rewrite !drop_nil.
  - destruct n as [|n]; simpl; [done|].
    rewrite drop_app_ge by lia.
    replace (dim + n * dim - length r) with (n * dim) by lia. apply IH.
Qed.

Lemma slice_concat_uniform dim rs i r :
  uniform dim rs -> rs !! i = Some r ->
  slice (concat rs) (i * dim) ((i + 1) * dim) = r.
Proof.
  intros Hu Hi. unfold slice.
  rewrite (drop_concat_uniform dim) by done.
  rewrite (drop_S _ _ _ Hi). simpl.
  assert (length r = dim) as Hr.
  { eapply (proj1 (Forall_lookup _ _) Hu); eauto. }
  replace ((i + 1) * dim - i * dim) with (length r) by lia.
  by rewrite take_app_length.
Qed.

Lemma copy_into_concat_uniform dim rs i d :
  uniform dim rs -> i < length rs -> length d = dim ->
  copy_into (concat rs) (i * dim) ((i + 1) * dim) d = concat (<[i := d]> rs).
Proof.
  intros Hu Hi Hd. unfold copy_into.
  replace (((i + 1) * dim - i * dim) `min` length d) with (length d) by lia.
  rewrite firstn_all.
  replace (i * dim + length d) with (S i * dim) by lia.
  rewrite (take_concat_uniform dim), (drop_concat_uniform dim) by done.
  rewrite insert_take_drop by done.
  by rewrite concat_app.
Qed.

Lemma uniform_insert dim rs i d :
  uniform dim rs -> length d = dim -> uniform dim (<[i := d]> rs).
Proof. intros Hu Hd. by apply Forall_insert. Qed.

End UniformConcat.

(** ** The shard invariant

    A shard represents an association list [rws] of (identifier, payload)
    rows: [ids] are the identifiers in row order, [data] is the
    concatenation of the payloads, each of width [dim], and [idIndex] is
    the inverse of [ids]. *)

Abbreviation row := (string * list float32)%type.

Record shard_ok (dim si : nat) (sh : shard) (rws : list row) : Prop := {
  ok_ids : ids sh = rws.*1;
  ok_data : data sh = concat rws.*2;
  ok_uniform : uniform dim rws.*2;
  ok_index : forall id i, idIndex sh !! id = Some i <-> rws.*1 !! i = Some id;
  ok_route : forall id, id ∈ rws.*1 -> shardIndex id = si;
  ok_nonempty : forall id, id ∈ rws.*1 -> id ≠ ""
}.

Definition store_ok (D : Z) (s : VectorStore) : Prop :=
  dimension s = D /\
  length (shards s) = numShards /\
  forall si sh, shards s !! si = Some sh ->
    exists rws, shard_ok (Z.to_nat D) si sh rws /\ (rws = [] \/ (0 <= D)%Z).

(** The rows of a shard, read off its fields the way the scan loop of
    [Search] reads them. *)
Definition rows_of (dim : nat) (sh : shard) : list row :=
  map (fun i => (ids sh !!! i, slice (data sh) (i * dim) ((i + 1) * dim)))
      (seq 0 (length (ids sh))).

(** All the vectors of the store, shard after shard. *)
Definition contents (s : VectorStore) : list row :=
  concat (map (rows_of (dim_of s)) (shards s)).

Lemma shardIndex_lt id : shardIndex id < numShards.
Proof.
  unfold shardIndex.
  pose proof (Z.mod_pos_bound (fnv1a32 id) (Z.of_nat numShards)).
  unfold numShards in *. lia.
Qed.

Lemma shard_ok_nodup dim si sh rws : shard_ok dim si sh rws -> NoDup rws.*1.
Proof.
  intros Hok. apply NoDup_alt. intros i j id Hi Hj.
  apply (ok_index _ _ _ _ Hok) in Hi, Hj. congruence.
Qed.

Lemma shard_ok_rows dim si sh rws : shard_ok dim si sh rws -> rows_of dim sh = rws.
Proof.
  intros Hok. unfold rows_of.
  rewrite (ok_ids _ _ _ _ Hok), (ok_data _ _ _ _ Hok), length_fmap.
  apply list_eq. intros i.
  rewrite list_lookup_fmap.
  destruct (rws !! i) as [[id d]|] eqn:Hi.
  - rewrite lookup_seq_lt by (by eapply lookup_lt_Some). simpl.
    f_equal. f_equal.
    + apply list_lookup_total_correct. by rewrite list_lookup_fmap, Hi.
    + eapply slice_concat_uniform; [by apply (ok_uniform _ _ _ _ Hok)|].
      by rewrite list_lookup_fmap, Hi.
  - rewrite lookup_seq_ge; [done|]. by apply lookup_ge_None.
Qed.

Lemma shard_ok_empty dim si : shard_ok dim si (mkShard [] [] ∅) [].
Proof.
  split; simpl; try done.
  - constructor.
  - intros id Hin. by apply elem_of_nil in Hin.
  - intros id Hin. by apply elem_of_nil in Hin.
Qed.

Lemma store_ok_new D : store_ok D (NewVectorStore D).
Proof.
  split; [done|]. split; [apply length_replicate|].
  intros si sh Hsh. unfold NewVectorStore in Hsh. cbn [shards] in Hsh.
  apply lookup_replicate in Hsh as [-> _].
  exists []. split; [apply shard_ok_empty | by left].
Qed.

(** Row-level effect of the three shard updates. *)

Lemma shard_ok_append dim si sh rws id d :
  shard_ok dim si sh rws ->
  idIndex sh !! id = None -> length d = dim ->
  shardIndex id = si -> id ≠ "" ->
  shard_ok dim si
    (mkShard (ids sh ++ [id]) (data sh ++ d) (<[id := length (ids sh)]> (idIndex sh)))
    (rws ++ [(id, d)]).
Proof.
  intros Hok Hnone Hd Hsi Hne.
  pose proof (ok_ids _ _ _ _ Hok) as Hids.
  split; simpl.
  - by rewrite fmap_app, Hids.
  - rewrite fmap_app, concat_app, (ok_data _ _ _ _ Hok). simpl. by rewrite app_nil_r.
  - rewrite fmap_app. apply Forall_app. split; [apply Hok|]. by repeat constructor.
  - intros id' i. rewrite fmap_app. simpl. rewrite Hids.
    destruct (decide (id = id')) as [<-|Hneq].
    + rewrite lookup_insert_eq. split.
      * intros [= <-]. by rewrite lookup_app_r, Nat.sub_diag.
      * intros Hi. destruct (decide (i < length rws.*1)) as [Hlt|Hge].
        -- rewrite lookup_app_l in Hi by done.
           apply (ok_index _ _ _ _ Hok) in Hi. congruence.
        -- apply lookup_lt_Some in Hi as Hlt. rewrite length_app in Hlt. simpl in Hlt.
           f_equal. lia.
    + rewrite lookup_insert_ne by done. rewrite (ok_index _ _ _ _ Hok). split.
      * intros Hi. rewrite lookup_app_l; [done|]. by eapply lookup_lt_Some.
      * intros Hi. destruct (decide (i < length rws.*1)) as [Hlt|Hge].
        -- by rewrite lookup_app_l in Hi.
        -- rewrite lookup_app_r in Hi by lia.
           destruct (i - length rws.*1); simpl in Hi; [congruence|done].
  - intros id'. rewrite fmap_app, elem_of_app. simpl. intros [Hin| ->%list_elem_of_singleton].
    + by apply (ok_route _ _ _ _ Hok).
    + done.
  - intros id'. rewrite fmap_app, elem_of_app. simpl. intros [Hin| ->%list_elem_of_singleton].
    + by apply (ok_nonempty _ _ _ _ Hok).
    + done.
Qed.

Lemma shard_ok_overwrite dim si sh rws id idx d :
  shard_ok dim si sh rws ->
  idIndex sh !! id = Some idx -> length d = dim ->
  shard_ok dim si
    (mkShard (ids sh) (copy_into (data sh) (idx * dim) ((idx + 1) * dim) d) (idIndex sh))
    (<[idx := (id, d)]> rws).
Proof.
  intros Hok Hidx Hd.
  apply (ok_index _ _ _ _ Hok) in Hidx as Hrow.
  assert (idx < length rws) as Hlt.
  { apply lookup_lt_Some in Hrow. by rewrite length_fmap in Hrow. }
  assert ((<[idx := (id, d)]> rws).*1 = rws.*1) as Hfst.
  { rewrite list_fmap_insert. simpl. by apply list_insert_id. }
  split; simpl; rewrite ?Hfst; try apply Hok.
  - rewrite (ok_data _ _ _ _ Hok), list_fmap_insert. simpl.
    apply copy_into_concat_uniform; [apply Hok| by rewrite length_fmap | done].
  - rewrite list_fmap_insert. simpl. apply uniform_insert; [apply Hok | done].
Qed.

(** Swap-with-last on the identifier column and its index. *)
Lemma index_swap_remove (m : gmap string nat) (l : list string) id idx lid :
  (forall x i, m !! x = Some i <-> l !! i = Some x) ->
  l !! idx = Some id -> l !! (length l - 1) = Some lid ->
  forall x i,
    delete id (<[lid := idx]> m) !! x = Some i <->
    take (length l - 1) (<[idx := lid]> l) !! i = Some x.
Proof.
  intros Hbij Hidx Hlast x i.
  set (last := length l - 1) in *.
  assert (forall a b y, l !! a = Some y -> l !! b = Some y -> a = b) as Hinj.
  { intros a b y Ha Hb. apply Hbij in Ha, Hb. congruence. }
  apply lookup_lt_Some in Hidx as Hlt.
  rewrite lookup_take_Some.
  destruct (decide (x = id)) as [->|Hxid].
  - rewrite lookup_delete_eq. split; [done|]. intros [Hi Hil].
    destruct (decide (i = idx)) as [->|Hne].
    + rewrite list_lookup_insert_eq in Hi by done. injection Hi as ->.
      specialize (Hinj _ _ _ Hidx Hlast). lia.
    + rewrite list_lookup_insert_ne in Hi by done.
      specialize (Hinj _ _ _ Hidx Hi). done.
  - rewrite lookup_delete_ne by done.
    destruct (decide (x = lid)) as [->|Hxlid].
    + rewrite lookup_insert_eq. split.
      * intros [= <-].
        assert (idx ≠ last) by (intros ->; congruence).
        split; [by rewrite list_lookup_insert_eq | lia].
      * intros [Hi Hil]. destruct (decide (i = idx)) as [->|Hne]; [done|].
        rewrite list_lookup_insert_ne in Hi by done.
        specialize (Hinj _ _ _ Hlast Hi). lia.
    + rewrite lookup_insert_ne by done. rewrite Hbij. split.
      * intros Hi.
        assert (i ≠ idx) by (intros ->; congruence).
        assert (i ≠ last) by (intros ->; congruence).
        apply lookup_lt_Some in Hi as Hil.
        split; [by rewrite list_lookup_insert_ne | lia].
      * intros [Hi Hil]. destruct (decide (i = idx)) as [->|Hne].
        -- rewrite list_lookup_insert_eq in Hi by done. congruence.
        -- by rewrite list_lookup_insert_ne in Hi.
Qed.

Lemma shard_ok_remove dim si sh rws id idx :
  shard_ok dim si sh rws ->
  idIndex sh !! id = Some idx ->
  let lastIdx := length (ids sh) - 1 in
  let sh1 :=
    if bool_decide (idx ≠ lastIdx) then
      let ids' := <[idx := ids sh !!! lastIdx]> (ids sh) in
      let data' :=
        copy_into (data sh) (idx * dim) ((idx + 1) * dim)
          (slice (data sh) (lastIdx * dim) ((lastIdx + 1) * dim)) in
      mkShard ids' data' (<[ids' !!! idx := idx]> (idIndex sh))
    else sh in
  shard_ok dim si
    (mkShard (take lastIdx (ids sh1)) (take (lastIdx * dim) (data sh1))
       (delete id (idIndex sh1)))
    (take lastIdx (<[idx := rws !!! lastIdx]> rws)).
Proof.
  intros Hok Hidx lastIdx sh1.
  pose proof (ok_ids _ _ _ _ Hok) as Hids.
  pose proof (ok_data _ _ _ _ Hok) as Hdata.
  pose proof (ok_uniform _ _ _ _ Hok) as Hu.
  apply (ok_index _ _ _ _ Hok) in Hidx as Hrow.
  assert (length (ids sh) = length rws) as Hlen by (by rewrite Hids, length_fmap).
  assert (idx < length rws) as Hlt.
  { apply lookup_lt_Some in Hrow. by rewrite length_fmap in Hrow. }
  destruct (rws !! lastIdx) as [[lid ld]|] eqn:Hlast;
    [|apply lookup_ge_None in Hlast; lia].
  rewrite (list_lookup_total_correct _ _ _ Hlast).
  assert (rws.*1 !! lastIdx = Some lid) as Hlast1 by (by rewrite list_lookup_fmap, Hlast).
  assert (rws.*2 !! lastIdx = Some ld) as Hlast2 by (by rewrite list_lookup_fmap, Hlast).
  assert (ids sh !!! lastIdx = lid) as Hlid.
  { apply list_lookup_total_correct. by rewrite Hids. }
  (* the two branches leave the same columns once truncated *)
  assert (take lastIdx (ids sh1) = take lastIdx (<[idx := lid]> rws.*1)) as Hids1.
  { subst sh1. case_bool_decide as Hc; simpl.
    - by rewrite Hlid, Hids.
    - assert (idx = lastIdx) as -> by lia.
      rewrite take_insert_ge by lia. by rewrite Hids. }
  assert (take (lastIdx * dim) (data sh1)
          = concat (take lastIdx (<[idx := ld]> rws.*2))) as Hdata1.
  { subst sh1. case_bool_decide as Hc; simpl.
    - rewrite Hdata.
      rewrite (slice_concat_uniform dim _ _ ld) by done.
      rewrite (copy_into_concat_uniform dim); [| done | by rewrite length_fmap |].
      + apply take_concat_uniform. apply uniform_insert; [done|].
        eapply (proj1 (Forall_lookup _ _) Hu); eauto.
      + eapply (proj1 (Forall_lookup _ _) Hu); eauto.
    - assert (idx = lastIdx) as -> by lia.
      rewrite take_insert_ge by lia. rewrite Hdata. by apply take_concat_uniform. }
  assert (delete id (idIndex sh1) = delete id (<[lid := idx]> (idIndex sh))) as Hidx1.
  { subst sh1. case_bool_decide as Hc; simpl.
    - f_equal. f_equal. rewrite Hlid.
      apply list_lookup_total_correct, list_lookup_insert_eq. lia.
    - assert (idx = lastIdx) as -> by lia.
      assert (lid = id) as -> by congruence.
      by rewrite delete_insert_eq. }
  assert ((take lastIdx (<[idx := (lid, ld)]> rws)).*1
          = take lastIdx (<[idx := lid]> rws.*1)) as Hfst.
  { by rewrite fmap_take, list_fmap_insert. }
  assert ((take lastIdx (<[idx := (lid, ld)]> rws)).*2
          = take lastIdx (<[idx := ld]> rws.*2)) as Hsnd.
  { by rewrite fmap_take, list_fmap_insert. }
  assert (forall x, x ∈ take lastIdx (<[idx := lid]> rws.*1) -> x ∈ rws.*1) as Hsub.
  { intros x [i Hi]%list_elem_of_lookup. apply lookup_take_Some in Hi as [Hi _].
    apply list_lookup_insert_Some in Hi as [(-> & -> & _)|[_ Hi]].
    - apply list_elem_of_lookup. eauto.
    - apply list_elem_of_lookup. eauto. }
  split; cbn [ids data idIndex]; rewrite ?Hfst, ?Hsnd.
  - done.
  - done.
  - apply Forall_take, uniform_insert; [done|].
    eapply (proj1 (Forall_lookup _ _) Hu); eauto.
  - rewrite Hidx1. subst lastIdx. rewrite Hlen, <- (length_fmap fst rws).
    apply index_swap_remove.
    + apply Hok.
    + done.
    + rewrite length_fmap, <- Hlen. done.
  - intros x Hx. apply (ok_route _ _ _ _ Hok). auto.
  - intros x Hx. apply (ok_nonempty _ _ _ _ Hok). auto.
Qed.

(** ** The store invariant is preserved *)

Lemma store_ok_shard D s si :
  store_ok D s -> si < numShards ->
  exists sh rws,
    shards s !! si = Some sh /\ shards s !!! si = sh /\
    shard_ok (Z.to_nat D) si sh rws /\ (rws = [] \/ (0 <= D)%Z).
Proof.
  intros (HD & Hlen & Hsh) Hsi.
  destruct (shards s !! si) as [sh|] eqn:Hlk;
    [|apply lookup_ge_None in Hlk; lia].
  destruct (Hsh _ _ Hlk) as (rws & Hok & Hd).
  exists sh, rws. split_and!; try done.
  by apply list_lookup_total_correct.
Qed.

Lemma store_ok_set D s si sh rws :
  store_ok D s -> si < numShards ->
  shard_ok (Z.to_nat D) si sh rws -> (rws = [] \/ (0 <= D)%Z) ->
  store_ok D (set_shard s si sh).
Proof.
  intros (HD & Hlen & Hsh) Hsi Hok Hd.
  split; [done|]. split; [simpl; by rewrite length_insert|].
  intros sj shj Hj. simpl in Hj.
  destruct (decide (si = sj)) as [<-|Hne].
  - rewrite list_lookup_insert_eq in Hj by lia. injection Hj as <-. eauto.
  - rewrite list_lookup_insert_ne in Hj by done. eauto.
Qed.

Lemma Insert_ok D s v : store_ok D s -> store_ok D (Insert s v).1.
Proof.
  intros Hs. unfold Insert.
  case_bool_decide as Hid; [done|].
  case_bool_decide as Hdim; [done|].
  pose proof (shardIndex_lt (ID v)) as Hlt.
  destruct (store_ok_shard _ _ _ Hs Hlt) as (sh & rws & Hlk & Htot & Hok & Hd).
  rewrite Htot.
  assert (dimension s = D) as HD by apply Hs.
  assert (length (Data v) = Z.to_nat D) as Hlen by lia.
  assert ((0 <= D)%Z) as HD0 by lia.
  unfold dim_of. rewrite HD.
  destruct (idIndex sh !! ID v) as [idx|] eqn:Hidx; simpl.
  - eapply store_ok_set; eauto using shard_ok_overwrite.
  - eapply store_ok_set; eauto using shard_ok_append.
Qed.

Lemma Delete_ok D s id : store_ok D s -> store_ok D (Delete s id).1.
Proof.
  intros Hs. unfold Delete.
  pose proof (shardIndex_lt id) as Hlt.
  destruct (store_ok_shard _ _ _ Hs Hlt) as (sh & rws & Hlk & Htot & Hok & Hd).
  rewrite Htot.
  assert (dimension s = D) as HD by apply Hs.
  unfold dim_of. rewrite HD.
  destruct (idIndex sh !! id) as [idx|] eqn:Hidx; [|done].
  cbn [fst].
  eapply store_ok_set; [done | done | by apply shard_ok_remove |].
  destruct Hd as [->|Hd]; [|by right].
  apply (ok_index _ _ _ _ Hok) in Hidx. done.
Qed.

Lemma reachable_ok D s : reachable D s -> store_ok D s.
Proof.
  induction 1; [apply store_ok_new | by apply Insert_ok | by apply Delete_ok].
Qed.

(** ** Invariants of a reachable store *)

(** C2: after any sequence of Insert and Delete from [NewVectorStore D],
    every shard has [len(ids) * D == len(data)], [idIndex] sends each
    resident identifier to its row (within range), every row is indexed
    back to its own position, no identifier occurs twice, and every
    identifier lives in the shard [fnv1a32(id) mod 16]. *)
Theorem reachable_shard_invariants D s :
  reachable D s ->
  forall si sh, shards s !! si = Some sh ->
    (Z.of_nat (length (ids sh)) * D = Z.of_nat (length (data sh)))%Z /\
    (forall id i, idIndex sh !! id = Some i ->
       ids sh !! i = Some id /\ i < length (ids sh)) /\
    (forall i id, ids sh !! i = Some id -> idIndex sh !! id = Some i) /\
    NoDup (ids sh) /\
    (forall id, id ∈ ids sh -> Z.of_nat si = (fnv1a32 id mod 16)%Z).
Proof.
  intros Hr si sh Hsh.
  destruct (reachable_ok _ _ Hr) as (HD & Hlen & Hall).
  destruct (Hall _ _ Hsh) as (rws & Hok & Hd).
  pose proof (ok_ids _ _ _ _ Hok) as Hids.
  split_and!.
  - rewrite (ok_data _ _ _ _ Hok), Hids.
    rewrite (length_concat_uniform (Z.to_nat D)) by apply Hok.
    rewrite !length_fmap. destruct Hd as [->|Hd]; simpl; lia.
  - intros id i Hi. rewrite Hids. apply (ok_index _ _ _ _ Hok) in Hi.
    split; [done|]. by eapply lookup_lt_Some.
  - intros i id Hi. apply (ok_index _ _ _ _ Hok). by rewrite <- Hids.
  - rewrite Hids. by eapply shard_ok_nodup.
  - intros id Hin. rewrite Hids in Hin.
    rewrite <- (ok_route _ _ _ _ Hok id Hin). unfold shardIndex.
    pose proof (Z.mod_pos_bound (fnv1a32 id) (Z.of_nat numShards)).
    unfold numShards in *. lia.
Qed.

Definition example_store : VectorStore :=
  (Delete
     (Insert
        (Insert (NewVectorStore 2) (mkVector "a" [F32.of_Z 1; F32.of_Z 2])).1
        (mkVector "b" [F32.of_Z 3; F32.of_Z 4])).1
     "a").1.

Lemma example_store_reachable : reachable 2 example_store.
Proof. unfold example_store. repeat constructor. Qed.

Lemma reachable_shard_invariants_witness :
  reachable 2 example_store /\
  let si := 5 in
  let sh := shards example_store !!! si in
    (Z.of_nat (length (ids sh)) * 2 = Z.of_nat (length (data sh)))%Z /\
    (forall id i, idIndex sh !! id = Some i ->
       ids sh !! i = Some id /\ i < length (ids sh)) /\
    (forall i id, ids sh !! i = Some id -> idIndex sh !! id = Some i) /\
    NoDup (ids sh) /\
    (forall id, id ∈ ids sh -> Z.of_nat si = (fnv1a32 id mod 16)%Z).
Proof.
  split; [apply example_store_reachable|].
  apply (reachable_shard_invariants 2 example_store example_store_reachable 5).
  reflexivity.
Defined.

(** ** Insert: validation *)

(** C3: Insert returns EmptyID exactly when the identifier is empty
    (checked first), otherwise DimensionMismatch exactly when the payload
    length differs from the dimension, otherwise success; and whenever it
    returns an error the store is unchanged. *)
Theorem Insert_errors s v :
  (Insert s v).2 =
    (if bool_decide (ID v = "") then Some ErrEmptyID
     else if bool_decide (Z.of_nat (length (Data v)) ≠ dimension s)
     then Some ErrDimensionMismatch
     else None) /\
  ((Insert s v).2 ≠ None -> (Insert s v).1 = s).
Proof.
  unfold Insert.
  case_bool_decide; [done|].
  case_bool_decide; [done|].
  destruct (idIndex (shards s !!! shardIndex (ID v)) !! ID v); done.
Qed.

(** ** Delete of the empty identifier *)

Lemma reachable_no_empty_id D s :
  reachable D s -> idIndex (shards s !!! shardIndex "") !! "" = None.
Proof.
  intros Hr. apply reachable_ok in Hr.
  destruct (store_ok_shard _ _ _ Hr (shardIndex_lt "")) as (sh & rws & _ & -> & Hok & _).
  destruct (idIndex sh !! "") as [i|] eqn:Hi; [|done].
  apply (ok_index _ _ _ _ Hok) in Hi.
  exfalso. eapply (ok_nonempty _ _ _ _ Hok ""); [|done].
  apply list_elem_of_lookup. eauto.
Qed.

(** C10: on every store reachable through the public API, [Delete("")]
    returns NotFound and leaves the store unchanged: Insert never admits
    the empty identifier, so the lookup in the routed shard fails. *)
Theorem Delete_empty_id D s :
  reachable D s -> Delete s "" = (s, Some ErrNotFound).
Proof.
  intros Hr. unfold Delete. by rewrite (reachable_no_empty_id _ _ Hr).
Qed.

Lemma Delete_empty_id_witness :
  reachable 2 example_store /\
  Delete example_store "" = (example_store, Some ErrNotFound).
Proof.
  split; [apply example_store_reachable|].
  apply (Delete_empty_id 2 example_store example_store_reachable).
Defined.

(** ** List facts *)

Lemma elem_of_concat {A} (x : A) (ls : list (list A)) :
  x ∈ concat ls <-> exists l, x ∈ l /\ l ∈ ls.
Proof.
  induction ls as [|l ls IH]; simpl.
  - split; [by intros ?%elem_of_nil|]. intros (l & _ & Hl). by apply elem_of_nil in Hl.
  - rewrite elem_of_app, IH. split.
    + intros [Hx|(l' & Hx & Hl')]; [exists l; split; [done|by left]|].
      exists l'. split; [done|by right].
    + intros (l' & Hx & [->|Hl']%elem_of_cons); [by left|right; eauto].
Qed.

Lemma filter_all {A} (P : A -> Prop) `{forall x, Decision (P x)} (l : list A) :
  (forall x, x ∈ l -> P x) -> filter P l = l.
Proof.
  induction l as [|x l IH]; intros Hall; [done|].
  rewrite filter_cons_True by (apply Hall; by left).
  f_equal. apply IH. intros y Hy. apply Hall. by right.
Qed.

Lemma filter_none {A} (P : A -> Prop) `{forall x, Decision (P x)} (l : list A) :
  (forall x, x ∈ l -> ¬ P x) -> filter P l = [].
Proof.
  induction l as [|x l IH]; intros Hall; [done|].
  rewrite filter_cons_False by (apply Hall; by left).
  apply IH. intros y Hy. apply Hall. by right.
Qed.

(** ** container/heap: the heap order

    [less] is the [Less] of the heap interface.  The heap lemmas hold for
    elements on which [less] is a strict weak order; [ok] marks them (for
    [maxHeap]: the results whose distance is not NaN). *)

Section HeapTheory.
Context {A : Type} `{Inhabited A}.
Variable less : A -> A -> bool.
Variable ok : A -> Prop.
Hypothesis less_irrefl : forall x, less x x = false.
Hypothesis less_trans :
  forall x y z, less x y = true -> less y z = true -> less x z = true.
Hypothesis less_cotrans :
  forall x y z, ok y -> less x z = true -> less x y = true \/ less y z = true.

(** [above x y]: [y] does not come before [x]; a parent is above its
    children. *)
Definition above (x y : A) : Prop := less y x = false.

Lemma above_refl x : above x x.
Proof. apply less_irrefl. Qed.

Lemma less_above x y : less x y = true -> above x y.
Proof.
  intros Hxy. unfold above. destruct (less y x) eqn:Hyx; [|done].
  by rewrite <- (less_irrefl x), (less_trans x y x).
Qed.

Lemma above_trans x y z : ok y -> above x y -> above y z -> above x z.
Proof.
  unfold above. intros Hy Hxy Hyz.
  destruct (less z x) eqn:Hzx; [|done].
  destruct (less_cotrans z y x Hy Hzx); congruence.
Qed.

Lemma above_total x y : above x y \/ above y x.
Proof.
  unfold above. destruct (less y x) eqn:Hyx; [|by left].
  right. by apply less_above.
Qed.

Lemma not_less_above x y : less x y = false -> above y x.
Proof. done. Qed.

Definition heap_upto (n : nat) (h : list A) : Prop :=
  forall c, 1 <= c < n -> above (h !!! ((c - 1) / 2)) (h !!! c).

Definition is_heap (h : list A) : Prop := heap_upto (length h) h.

Lemma parent_spec j :
  (j = 0 /\ (j - 1) / 2 = 0) \/ j = 2 * ((j - 1) / 2) + 1 \/ j = 2 * ((j - 1) / 2) + 2.
Proof.
  pose proof (Nat.div_mod_eq (j - 1) 2).
  pose proof (Nat.mod_upper_bound (j - 1) 2).
  destruct j; [left; done|]. lia.
Qed.

Lemma parent_of_child i c : (c = 2 * i + 1 \/ c = 2 * i + 2) -> (c - 1) / 2 = i.
Proof.
  intros Hc. pose proof (parent_spec c). lia.
Qed.

(** *** swap *)

Lemma swap_length (h : list A) i j : length (swap h i j) = length h.
Proof. unfold swap. by rewrite !length_insert. Qed.

Lemma swap_lookup_l (h : list A) i j :
  i < length h -> j < length h -> swap h i j !!! i = h !!! j.
Proof.
  intros Hi Hj. unfold swap. destruct (decide (i = j)) as [->|Hne].
  - rewrite list_lookup_total_insert_eq by (by rewrite length_insert). done.
  - rewrite list_lookup_total_insert_ne by done.
    by rewrite list_lookup_total_insert_eq.
Qed.

Lemma swap_lookup_r (h : list A) i j :
  i < length h -> j < length h -> swap h i j !!! j = h !!! i.
Proof.
  intros Hi Hj. unfold swap.
  by rewrite list_lookup_total_insert_eq by (by rewrite length_insert).
Qed.

Lemma swap_lookup_ne (h : list A) i j k :
  k ≠ i -> k ≠ j -> swap h i j !!! k = h !!! k.
Proof.
  intros Hi Hj. unfold swap.
  by rewrite !list_lookup_total_insert_ne by done.
Qed.

Lemma swap_perm (h : list A) i j :
  i < length h -> j < length h -> swap h i j ≡ₚ h.
Proof.
  intros Hi Hj. unfold swap.
  apply Permutation_insert_swap; by apply list_lookup_lookup_total_lt.
Qed.

(** *** up *)

(** The heap order holds everywhere except between [j] and its parent,
    and the parent of [j] is above the children of [j]. *)
Definition up_inv (h : list A) (j : nat) : Prop :=
  (forall c, 1 <= c < length h -> c ≠ j -> above (h !!! ((c - 1) / 2)) (h !!! c)) /\
  (forall c, 1 <= c < length h -> (c - 1) / 2 = j -> 1 <= j ->
     above (h !!! ((j - 1) / 2)) (h !!! c)).

Lemma up_S fuel (h : list A) j :
  up less (S fuel) h j =
    if bool_decide ((j - 1) / 2 = j) || negb (less (h !!! j) (h !!! ((j - 1) / 2)))
    then h else up less fuel (swap h ((j - 1) / 2) j) ((j - 1) / 2).
Proof. reflexivity. Qed.

Lemma up_correct fuel (h : list A) j :
  Forall ok h -> j < length h -> j < fuel -> up_inv h j ->
  is_heap (up less fuel h j) /\ up less fuel h j ≡ₚ h.
Proof.
  revert h j. induction fuel as [|fuel IH]; intros h j Hok Hj Hfuel [Hinv1 Hinv2]; [lia|].
  rewrite up_S. pose proof (parent_spec j) as Hp.
  set (i := (j - 1) / 2) in *.
  case_bool_decide as Hij; cbn [orb negb].
  { split; [|done]. intros c Hc. apply Hinv1; [done|]. lia. }
  destruct (less (h !!! j) (h !!! i)) eqn:Hless; cbn [orb negb].
  2:{ split; [|done]. intros c Hc. destruct (decide (c = j)) as [->|Hne].
      - by apply not_less_above.
      - by apply Hinv1. }
  assert (i < j) as Hilt by lia.
  assert (forall k, k < length h -> ok (h !!! k)) as Hokk.
  { intros k Hk. eapply (proj1 (Forall_lookup _ _) Hok).
    by apply list_lookup_lookup_total_lt. }
  destruct (IH (swap h i j) i) as [IH1 IH2].
  - by rewrite (swap_perm h i j) by lia.
  - rewrite swap_length. lia.
  - lia.
  - unfold up_inv. rewrite swap_length. split.
    + intros c Hc Hci. pose proof (parent_spec c) as Hpc.
      set (pc := (c - 1) / 2) in *.
      destruct (decide (c = j)) as [->|Hcj].
      * subst pc. fold i.
        rewrite swap_lookup_l, swap_lookup_r by lia. by apply less_above.
      * rewrite (swap_lookup_ne h i j c) by done.
        destruct (decide (pc = i)) as [Hpi|Hpi].
        -- rewrite Hpi, swap_lookup_l by lia.
           apply (above_trans _ (h !!! i)); [apply Hokk; lia|by apply less_above|].
           rewrite <- Hpi. by apply Hinv1.
        -- destruct (decide (pc = j)) as [Hpj|Hpj].
           ++ rewrite Hpj, swap_lookup_r by lia. apply Hinv2; [done|done|lia].
           ++ rewrite swap_lookup_ne by done. by apply Hinv1.
    + intros c Hc Hpc Hi1.
      pose proof (parent_spec c) as Hpc'. rewrite Hpc in Hpc'.
      pose proof (parent_spec i) as Hpi.
      rewrite (swap_lookup_ne h i j ((i - 1) / 2)) by lia.
      destruct (decide (c = j)) as [->|Hcj].
      * rewrite swap_lookup_r by lia. apply Hinv1; lia.
      * rewrite swap_lookup_ne by lia.
        apply (above_trans _ (h !!! i)); [apply Hokk; lia| |].
        -- apply Hinv1; lia.
        -- rewrite <- Hpc. apply Hinv1; [done|done].
  - split; [exact IH1|].
    rewrite IH2. apply swap_perm; lia.
Qed.

(** *** down *)

(** The heap order holds below [n] except between [i] and its children,
    and the parent of [i] is above the children of [i]. *)
Definition down_inv (h : list A) (i n : nat) : Prop :=
  (forall c, 1 <= c < n -> (c - 1) / 2 ≠ i -> above (h !!! ((c - 1) / 2)) (h !!! c)) /\
  (forall c, 1 <= c < n -> (c - 1) / 2 = i -> 1 <= i ->
     above (h !!! ((i - 1) / 2)) (h !!! c)).

Lemma down_S fuel (h : list A) i n :
  down less (S fuel) h i n =
    if n <=? 2 * i + 1 then h
    else
      let j :=
        if (2 * i + 1 + 1 <? n) && less (h !!! (2 * i + 1 + 1)) (h !!! (2 * i + 1))
        then 2 * i + 1 + 1 else 2 * i + 1 in
      if negb (less (h !!! j) (h !!! i)) then h
      else down less fuel (swap h i j) j n.
Proof. reflexivity. Qed.

Lemma down_correct fuel (h : list A) i n :
  Forall ok h -> n <= length h -> n <= fuel + i -> down_inv h i n ->
  heap_upto n (down less fuel h i n) /\
  down less fuel h i n ≡ₚ h /\
  (forall k, n <= k -> down less fuel h i n !!! k = h !!! k).
Proof.
  revert h i. induction fuel as [|fuel IH]; intros h i Hok Hn Hfuel [Hinv1 Hinv2].
  { simpl. split_and!; [|done|done].
    intros c Hc. apply Hinv1; [done|]. pose proof (parent_spec c). lia. }
  rewrite down_S.
  destruct (Nat.leb_spec n (2 * i + 1)) as [Hle|Hlt].
  { split_and!; [|done|done].
    intros c Hc. apply Hinv1; [done|]. pose proof (parent_spec c). lia. }
  assert (forall k, k < length h -> ok (h !!! k)) as Hokk.
  { intros k Hk. eapply (proj1 (Forall_lookup _ _) Hok).
    by apply list_lookup_lookup_total_lt. }
  set (j1 := 2 * i + 1) in *.
  set (j2 := j1 + 1).
  set (j := if (j2 <? n) && less (h !!! j2) (h !!! j1) then j2 else j1).
  assert ((j = j1 \/ j = j2) /\ j < n /\
          above (h !!! j) (h !!! j1) /\ (j2 < n -> above (h !!! j) (h !!! j2)))
    as (Hjcase & Hjn & Hj1 & Hj2).
  { subst j. destruct (Nat.ltb_spec j2 n) as [Hj2n|Hj2n]; cbn [andb].
    - destruct (less (h !!! j2) (h !!! j1)) eqn:Hl.
      + split_and!; [by right|done|by apply less_above|intros; apply above_refl].
      + split_and!; [by left|lia|apply above_refl|intros; by apply not_less_above].
    - split_and!; [by left|lia|apply above_refl|lia]. }
  cbv zeta.
  assert ((j - 1) / 2 = i) as Hpj by (apply parent_of_child; lia).
  destruct (less (h !!! j) (h !!! i)) eqn:Hless; cbn [negb].
  2:{ split_and!; [|done|done].
      intros c Hc. destruct (decide ((c - 1) / 2 = i)) as [Hpc|Hpc]; [|by apply Hinv1].
      rewrite Hpc. pose proof (parent_spec c) as Hc'. rewrite Hpc in Hc'.
      apply (above_trans _ (h !!! j)); [apply Hokk; lia|by apply not_less_above|].
      destruct (decide (c = j1)) as [->|Hne]; [done|].
      assert (c = j2) as -> by lia. apply Hj2. lia. }
  destruct (IH (swap h i j) j) as (IH1 & IH2 & IH3).
  - by rewrite (swap_perm h i j) by lia.
  - rewrite swap_length. lia.
  - lia.
  - split.
    + intros c Hc Hpc. pose proof (parent_spec c) as Hc'.
      set (pc := (c - 1) / 2) in *.
      destruct (decide (pc = i)) as [Hpi|Hpi].
      * rewrite Hpi, swap_lookup_l by lia.
        destruct (decide (c = j)) as [->|Hcj].
        -- rewrite swap_lookup_r by lia. by apply less_above.
        -- rewrite swap_lookup_ne by lia.
           destruct (decide (c = j1)) as [->|Hne]; [done|].
           assert (c = j2) as -> by lia. apply Hj2. lia.
      * assert (c ≠ j) by (intros ->; subst pc; congruence).
        destruct (decide (c = i)) as [->|Hci].
        -- rewrite swap_lookup_l by lia.
           rewrite swap_lookup_ne by lia.
           subst pc. apply Hinv2; [lia|done|lia].
        -- rewrite !swap_lookup_ne by done. subst pc. by apply Hinv1.
    + intros c Hc Hpc Hj1'. rewrite Hpj, swap_lookup_l by lia.
      pose proof (parent_spec c) as Hc'. rewrite Hpc in Hc'.
      rewrite swap_lookup_ne by lia.
      rewrite <- Hpc. apply Hinv1; [done|]. lia.
  - split_and!; [done| |].
    + rewrite IH2. apply swap_perm; lia.
    + intros k Hk. rewrite IH3 by done. apply swap_lookup_ne; lia.
Qed.

(** *** The root, Push and Pop *)

Lemma Forall_ok_lookup (h : list A) k : Forall ok h -> k < length h -> ok (h !!! k).
Proof.
  intros Hok Hk. eapply (proj1 (Forall_lookup _ _) Hok).
  by apply list_lookup_lookup_total_lt.
Qed.

Lemma heap_root_above (h : list A) :
  Forall ok h -> is_heap h ->
  forall k, k < length h -> above (h !!! 0) (h !!! k).
Proof.
  intros Hok Hh k. induction k as [k IH] using lt_wf_ind. intros Hk.
  destruct (decide (k = 0)) as [->|Hk0]; [apply above_refl|].
  pose proof (parent_spec k) as Hp.
  apply (above_trans _ (h !!! ((k - 1) / 2))).
  - apply Forall_ok_lookup; [done|lia].
  - apply IH; lia.
  - apply Hh. lia.
Qed.

Lemma heap_root_max (h : list A) y :
  Forall ok h -> is_heap h -> y ∈ h -> above (h !!! 0) y.
Proof.
  intros Hok Hh [k Hk]%list_elem_of_lookup.
  rewrite <- (list_lookup_total_correct _ _ _ Hk).
  apply heap_root_above; [done|done|]. by eapply lookup_lt_Some.
Qed.

Lemma heap_Push_correct (h : list A) x :
  Forall ok h -> ok x -> is_heap h ->
  is_heap (heap_Push less h x) /\ heap_Push less h x ≡ₚ x :: h.
Proof.
  intros Hok Hx Hh. unfold heap_Push.
  destruct (up_correct (length (h ++ [x])) (h ++ [x]) (length (h ++ [x]) - 1))
    as [H1 H2].
  - apply Forall_app. split; [done|by constructor].
  - rewrite length_app. cbn [length]. lia.
  - rewrite length_app. cbn [length]. lia.
  - unfold up_inv. rewrite length_app. cbn [length].
    replace (length h + 1 - 1) with (length h) by lia. split.
    + intros c Hc Hne. pose proof (parent_spec c) as Hp.
      rewrite !lookup_total_app_l by lia. apply Hh. lia.
    + intros c Hc Hpc. pose proof (parent_spec c) as Hp. lia.
  - split; [done|]. rewrite H2. by rewrite Permutation_app_comm.
Qed.

Lemma heap_Pop_correct (h : list A) :
  Forall ok h -> is_heap h -> h ≠ [] ->
  (heap_Pop less h).1 = h !!! 0 /\
  is_heap (heap_Pop less h).2 /\
  h ≡ₚ (heap_Pop less h).1 :: (heap_Pop less h).2 /\
  (forall y, y ∈ (heap_Pop less h).2 -> above (heap_Pop less h).1 y).
Proof.
  intros Hok Hh Hne. unfold heap_Pop.
  assert (0 < length h) as Hlen by (destruct h; [done|simpl; lia]).
  set (n := length h - 1).
  set (h1 := swap h 0 n).
  assert (h1 ≡ₚ h) as Hp1 by (apply swap_perm; lia).
  assert (length h1 = length h) as Hl1 by apply swap_length.
  destruct (down_correct (length h1) h1 0 n) as (Hd1 & Hd2 & Hd3).
  - by rewrite Hp1.
  - lia.
  - lia.
  - split.
    + intros c Hc Hpc. pose proof (parent_spec c) as Hp.
      subst h1. rewrite !swap_lookup_ne by lia. apply Hh. lia.
    + intros c Hc Hpc Hi. lia.
  - set (h2 := down less (length h1) h1 0 n) in *. cbn [fst snd].
    assert (length h2 = S n) as Hl2.
    { rewrite (Permutation_length Hd2), Hl1. lia. }
    assert (h2 !!! n = h !!! 0) as Hroot.
    { rewrite Hd3 by lia. subst h1. apply swap_lookup_r; lia. }
    assert (h2 = take n h2 ++ [h2 !!! n]) as Hsplit.
    { rewrite <- (take_ge h2 (S n)) at 1 by lia.
      apply take_S_r. apply list_lookup_lookup_total_lt. lia. }
    assert (h ≡ₚ h2 !!! n :: take n h2) as Hperm.
    { rewrite <- Hp1, <- Hd2. rewrite Hsplit at 1. by rewrite Permutation_app_comm. }
    split_and!; [done| |done|].
    + intros c Hc. rewrite length_take in Hc.
      pose proof (parent_spec c) as Hp.
      rewrite !lookup_total_take_lt by lia. apply Hd1. lia.
    + intros y Hy. rewrite Hroot. apply heap_root_max; [done|done|].
      rewrite Hperm. by right.
Qed.

Lemma heap_Pop_length (h : list A) :
  length (heap_Pop less h).2 = length h - 1.
Proof.
  unfold heap_Pop. cbn [snd]. rewrite length_take.
  assert (forall fuel (g : list A) i n, length (down less fuel g i n) = length g) as Hd.
  { induction fuel as [|fuel IH]; intros g i n; [done|].
    rewrite down_S. destruct (n <=? 2 * i + 1); [done|]. cbv zeta.
    match goal with |- context [negb ?b] => destruct b end; cbn [negb]; [|done].
    by rewrite IH, swap_length. }
  rewrite Hd, !swap_length. lia.
Qed.

(** *** The bounded heap of one scan *)

(** After the candidates [xs] have been offered, the heap [h] holds
    [min(k, len xs)] of them and every candidate left out is above every
    candidate kept. *)
Definition scan_inv (k : Z) (xs h : list A) : Prop :=
  is_heap h /\ (Z.of_nat (length h) <= k)%Z /\
  exists rest, xs ≡ₚ h ++ rest /\
    (rest ≠ [] -> Z.of_nat (length h) = k) /\
    (forall r y, r ∈ rest -> y ∈ h -> above r y).

Lemma scan_inv_nil k : (0 <= k)%Z -> scan_inv k [] [].
Proof.
  intros Hk. split_and!.
  - intros c Hc. simpl in Hc. lia.
  - simpl. lia.
  - exists []. split_and!; [done|done|]. intros r y Hr. by apply elem_of_nil in Hr.
Qed.

Lemma offer_inv k xs h x :
  (1 <= k)%Z -> Forall ok xs -> ok x -> scan_inv k xs h ->
  scan_inv k (xs ++ [x]) (offer less k h x).
Proof.
  intros Hk Hxs Hx (Hh & Hlen & rest & Hperm & Hfull & Habove).
  assert (Forall ok h) as Hokh.
  { rewrite Hperm in Hxs. by apply Forall_app in Hxs as [? _]. }
  unfold offer. destruct (Z.ltb_spec (Z.of_nat (length h)) k) as [Hlt|Hge].
  - destruct (heap_Push_correct h x Hokh Hx Hh) as [Hp1 Hp2].
    assert (rest = []) as ->.
    { destruct rest; [done|]. assert (Z.of_nat (length h) = k) by (by apply Hfull). lia. }
    split_and!; [done| |].
    + rewrite (Permutation_length Hp2). simpl. lia.
    + exists []. split_and!; [|done|].
      * rewrite Hp2, Hperm, !app_nil_r. by rewrite Permutation_app_comm.
      * intros r y Hr. by apply elem_of_nil in Hr.
  - assert (h ≠ []) as Hne by (intros ->; simpl in *; lia).
    destruct (heap_Pop_correct h Hokh Hh Hne) as (Hroot & Hh' & Hpop & Hmax).
    destruct (less (h !!! 0) x) eqn:Hless.
    + set (root := (heap_Pop less h).1) in *.
      set (h' := (heap_Pop less h).2) in *.
      assert (Forall ok (root :: h')) as Hok' by (by rewrite <- Hpop).
      apply Forall_cons in Hok' as [Hokr Hokh'].
      destruct (heap_Push_correct h' x Hokh' Hx Hh') as [Hp1 Hp2].
      assert (length h = S (length h')) as Hl by (by rewrite (Permutation_length Hpop)).
      split_and!; [done| |].
      * rewrite (Permutation_length Hp2). simpl. lia.
      * exists (root :: rest). split_and!.
        -- rewrite Hp2, Hperm, Hpop. simpl.
           rewrite <- (Permutation_middle h' rest root).
           rewrite <- (Permutation_cons_append (h' ++ rest) x).
           apply Permutation_swap.
        -- intros _. rewrite (Permutation_length Hp2). simpl. lia.
        -- intros r y Hr Hy. rewrite Hp2 in Hy.
           assert (above root x) as Hrx by (rewrite Hroot; by apply less_above).
           apply elem_of_cons in Hr as [->|Hr].
           ++ apply elem_of_cons in Hy as [->|Hy]; [done|by apply Hmax].
           ++ assert (above r root) as Hrr.
              { apply Habove; [done|]. rewrite Hpop. by left. }
              apply elem_of_cons in Hy as [->|Hy].
              ** by apply (above_trans _ root).
              ** apply Habove; [done|]. rewrite Hpop. by right.
    + split_and!; [done|done|].
      exists (x :: rest). split_and!.
      * rewrite Hperm, <- app_assoc. f_equiv. by rewrite Permutation_app_comm.
      * intros _. lia.
      * intros r y Hr Hy. apply elem_of_cons in Hr as [->|Hr]; [|by apply Habove].
        apply (above_trans _ (h !!! 0)).
        -- apply Forall_ok_lookup; [done|]. destruct h; [done|simpl; lia].
        -- by apply not_less_above.
        -- by apply heap_root_max.
Qed.

Lemma scan_inv_foldl k xs ys h :
  (1 <= k)%Z -> Forall ok (xs ++ ys) -> scan_inv k xs h ->
  scan_inv k (xs ++ ys) (foldl (offer less k) h ys).
Proof.
  intros Hk. revert xs h. induction ys as [|y ys IH]; intros xs h Hok Hinv.
  - by rewrite app_nil_r.
  - simpl. replace (xs ++ y :: ys) with ((xs ++ [y]) ++ ys) in *
      by (by rewrite <- app_assoc).
    apply IH; [done|].
    apply Forall_app in Hok as [Hok _]. apply Forall_app in Hok as [Hok1 Hok2].
    apply offer_inv; [done|done| |done]. by apply Forall_inv in Hok2.
Qed.

(** *** Draining the heap *)

(** Ascending in the heap order: a later element is above an earlier
    one. *)
Definition ascending (l : list A) : Prop := StronglySorted (fun a b => above b a) l.

Lemma drain_correct fuel (h acc : list A) :
  Forall ok h -> is_heap h -> length h = fuel ->
  ascending acc -> (forall a y, a ∈ acc -> y ∈ h -> above a y) ->
  ascending (drain less id fuel h acc) /\ drain less id fuel h acc ≡ₚ h ++ acc.
Proof.
  revert h acc. induction fuel as [|fuel IH]; intros h acc Hok Hh Hlen Hacc Habove.
  - destruct h; [|done]. simpl. done.
  - assert (h ≠ []) as Hne by (by destruct h).
    destruct (heap_Pop_correct h Hok Hh Hne) as (Hroot & Hh' & Hpop & Hmax).
    cbn [drain]. destruct (heap_Pop less h) as [x h'] eqn:Hp. cbn [fst snd id] in *.
    assert (Forall ok (x :: h')) as Hok' by (by rewrite <- Hpop).
    apply Forall_cons in Hok' as [Hokx Hokh'].
    destruct (IH h' (x :: acc)) as [IH1 IH2].
    + done.
    + done.
    + apply Permutation_length in Hpop. simpl in Hpop. lia.
    + constructor; [done|]. apply Forall_forall. intros a Ha.
      apply Habove; [done|]. rewrite Hpop. by left.
    + intros a y Ha Hy. apply elem_of_cons in Ha as [->|Ha]; [by apply Hmax|].
      apply Habove; [done|]. rewrite Hpop. by right.
    + split; [done|]. rewrite IH2, Hpop. by rewrite <- Permutation_middle.
Qed.

Lemma drain_post (post : A -> A) fuel (h acc : list A) :
  drain less post fuel h (post <$> acc) = post <$> drain less id fuel h acc.
Proof.
  revert h acc. induction fuel as [|fuel IH]; intros h acc; [done|].
  cbn [drain]. destruct (heap_Pop less h) as [x h'].
  by rewrite <- IH.
Qed.

Lemma drain_all_post (post : A -> A) (h : list A) :
  drain_all less post h = post <$> drain_all less id h.
Proof. unfold drain_all. by rewrite <- drain_post. Qed.

(** *** Top-k *)

(** [res] is a choice of the [k] lowest elements of [xs], in ascending
    order (ties broken arbitrarily). *)
Definition topk (k : Z) (xs res : list A) : Prop :=
  ascending res /\
  length res = Z.to_nat k `min` length xs /\
  exists rest, xs ≡ₚ res ++ rest /\ (forall r y, r ∈ rest -> y ∈ res -> above r y).

Lemma scan_drain_topk k xs :
  (1 <= k)%Z -> Forall ok xs ->
  topk k xs (drain_all less id (foldl (offer less k) [] xs)).
Proof.
  intros Hk Hok.
  destruct (scan_inv_foldl k [] xs [] Hk Hok) as (Hh & Hlen & rest & Hperm & Hfull & Habove).
  { apply scan_inv_nil. lia. }
  simpl in *. set (h := foldl (offer less k) [] xs) in *.
  assert (Forall ok h) as Hokh.
  { rewrite Hperm in Hok. by apply Forall_app in Hok as [? _]. }
  destruct (drain_correct (length h) h [] Hokh Hh eq_refl) as [Hd1 Hd2].
  { constructor. }
  { intros a y Ha. by apply elem_of_nil in Ha. }
  rewrite app_nil_r in Hd2. fold (drain_all less id h) in *.
  split_and!; [done| |].
  - rewrite (Permutation_length Hd2).
    pose proof (Permutation_length Hperm) as Hl. rewrite length_app in Hl.
    destruct rest as [|r rest]; simpl in Hl; [lia|].
    assert (Z.of_nat (length h) = k) by (by apply Hfull). lia.
  - exists rest. split; [by rewrite Hd2|].
    intros r y Hr Hy. apply Habove; [done|]. by rewrite <- Hd2.
Qed.

(** *** Two levels: per-worker top-k, then the merge *)

Lemma filter_length_concat_elem (P : A -> Prop) `{forall x, Decision (P x)}
    (rw : list A) (rs : list (list A)) :
  rw ∈ rs -> length (filter P rw) <= length (filter P (concat rs)).
Proof.
  induction rs as [|r rs IH]; intros Hin; [by apply elem_of_nil in Hin|].
  simpl. rewrite filter_app, length_app.
  apply elem_of_cons in Hin as [->|Hin]; [lia|]. specialize (IH Hin). lia.
Qed.

Lemma length_concat_elem (rw : list A) (rs : list (list A)) :
  rw ∈ rs -> length rw <= length (concat rs).
Proof.
  induction rs as [|r rs IH]; intros Hin; [by apply elem_of_nil in Hin|].
  simpl. rewrite length_app.
  apply elem_of_cons in Hin as [->|Hin]; [lia|]. specialize (IH Hin). lia.
Qed.

Lemma topk_parts k (cs rs : list (list A)) :
  Forall2 (topk k) cs rs ->
  exists R, concat cs ≡ₚ concat rs ++ R /\
    forall r, r ∈ R ->
      exists rw, rw ∈ rs /\ length rw = Z.to_nat k /\ forall y, y ∈ rw -> above r y.
Proof.
  induction 1 as [|c rw cs rs (Hsort & Hlen & rest & Hperm & Habove) _ (R & HR1 & HR2)].
  - exists []. split; [done|]. intros r Hr. by apply elem_of_nil in Hr.
  - exists (rest ++ R). split.
    + simpl. rewrite Hperm, HR1, <- !app_assoc. f_equiv.
      rewrite !app_assoc. f_equiv. apply Permutation_app_comm.
    + intros r [Hr|Hr]%elem_of_app.
      * exists rw. split_and!; [by left| |by intros; apply Habove].
        pose proof (Permutation_length Hperm) as Hl. rewrite length_app in Hl.
        destruct rest; [by apply elem_of_nil in Hr|]. simpl in Hl. lia.
      * destruct (HR2 r Hr) as (rw' & Hin & Hl & Hab).
        exists rw'. split_and!; [by right|done|done].
Qed.

Lemma topk_merge k (cs rs : list (list A)) (res : list A) :
  Forall ok (concat cs) ->
  Forall2 (topk k) cs rs -> topk k (concat rs) res ->
  topk k (concat cs) res.
Proof.
  intros Hok Hparts (Hsort & Hlen & restf & Hpermf & Habovef).
  destruct (topk_parts k cs rs Hparts) as (R & HR1 & HR2).
  assert (Forall ok (concat rs)) as Hokrs.
  { rewrite HR1 in Hok. by apply Forall_app in Hok as [? _]. }
  split_and!; [done| |].
  - rewrite Hlen. pose proof (Permutation_length HR1) as Hl. rewrite length_app in Hl.
    destruct R as [|r R]; [simpl in Hl; lia|].
    destruct (HR2 r) as (rw & Hin & Hlrw & _); [by left|].
    pose proof (length_concat_elem rw rs Hin). simpl in Hl. lia.
  - exists (restf ++ R). split.
    { by rewrite HR1, Hpermf, app_assoc. }
    intros r y [Hr|Hr]%elem_of_app Hy; [by apply Habovef|].
    destruct (HR2 r Hr) as (rw & Hin & Hlrw & Hab).
    unfold above. destruct (less y r) eqn:Hyr; [exfalso|done].
    set (P := fun z => less y z = true).
    assert (filter P rw = rw) as Hfrw.
    { apply filter_all. intros z Hz. unfold P.
      assert (ok z) as Hokz.
      { eapply (proj1 (Forall_forall _ _) Hokrs).
        apply elem_of_concat. eauto. }
      destruct (less_cotrans y z r Hokz Hyr) as [?|Hzr]; [done|].
      specialize (Hab z Hz). unfold above in Hab. congruence. }
    assert (filter P restf = []) as Hfrest.
    { apply filter_none. intros z Hz. unfold P.
      specialize (Habovef z y Hz Hy). unfold above in Habovef. congruence. }
    pose proof (filter_length_concat_elem P rw rs Hin) as H1.
    rewrite Hfrw in H1.
    assert (length (filter P (concat rs)) = length (filter P res)) as H2.
    { rewrite Hpermf, filter_app, Hfrest, app_nil_r. done. }
    assert (length (filter P res) < length res) as H3.
    { apply (length_filter_lt _ _ y); [done|]. unfold P. by rewrite less_irrefl. }
    lia.
Qed.

End HeapTheory.

(** ** The order of float32 comparisons

    [SFcompare] orders the non-NaN values lexicographically by class,
    exponent and mantissa. *)

Definition fkey (x : spec_float) : Z * Z * Z :=
  match x with
  | S754_zero _ => (0, 0, 0)
  | S754_infinity false => (2, 0, 0)
  | S754_infinity true => (-2, 0, 0)
  | S754_nan => (0, 0, 0)
  | S754_finite false m e => (1, e, Zpos m)
  | S754_finite true m e => (-1, - e, - Zpos m)
  end%Z.

Definition key_lt (a b : Z * Z * Z) : Prop :=
  (a.1.1 < b.1.1 \/
   (a.1.1 = b.1.1 /\ (a.1.2 < b.1.2 \/ (a.1.2 = b.1.2 /\ a.2 < b.2))))%Z.

Lemma SFltb_key x y :
  SFltb x y = true <->
  F32.is_nan x = false /\ F32.is_nan y = false /\ key_lt (fkey x) (fkey y).
Proof.
  unfold SFltb, key_lt.
  destruct x as [[]|[]| |[] mx ex], y as [[]|[]| |[] my ey]; simpl;
    try (split; [done|intros (? & ? & ?); lia]);
    try (split; [intros _; split_and!; [done|done|lia] | done]).
  - destruct (Z.compare_spec ex ey); fold (Pos.compare mx my);
      try destruct (Pos.compare_spec mx my); simpl;
      (split; [first [done | intros _; split_and!; [done|done|lia]]
              | intros (_ & _ & ?); first [done | lia]]).
  - destruct (Z.compare_spec ex ey); fold (Pos.compare mx my);
      try destruct (Pos.compare_spec mx my); simpl;
      (split; [first [done | intros _; split_and!; [done|done|lia]]
              | intros (_ & _ & ?); first [done | lia]]).
Qed.

Lemma SFleb_key x y :
  SFleb x y = true <->
  F32.is_nan x = false /\ F32.is_nan y = false /\ ¬ key_lt (fkey y) (fkey x).
Proof.
  unfold SFleb, key_lt.
  destruct x as [[]|[]| |[] mx ex], y as [[]|[]| |[] my ey]; simpl;
    try (split; [done|intros (? & ? & ?); lia]);
    try (split; [intros _; split_and!; [done|done|lia] | done]).
  - destruct (Z.compare_spec ex ey); fold (Pos.compare mx my);
      try destruct (Pos.compare_spec mx my); simpl;
      (split; [first [done | intros _; split_and!; [done|done|lia]]
              | intros (_ & _ & ?); first [done | lia]]).
  - destruct (Z.compare_spec ex ey); fold (Pos.compare mx my);
      try destruct (Pos.compare_spec mx my); simpl;
      (split; [first [done | intros _; split_and!; [done|done|lia]]
              | intros (_ & _ & ?); first [done | lia]]).
Qed.

Lemma SFltb_irrefl x : SFltb x x = false.
Proof.
  destruct (SFltb x x) eqn:E; [|done].
  apply SFltb_key in E as (_ & _ & E). unfold key_lt in E. lia.
Qed.

Lemma SFltb_trans x y z : SFltb x y = true -> SFltb y z = true -> SFltb x z = true.
Proof.
  rewrite !SFltb_key. unfold key_lt.
  intros (? & ? & ?) (? & ? & ?). split_and!; [done|done|lia].
Qed.

Lemma SFltb_cotrans x y z :
  F32.is_nan y = false -> SFltb x z = true -> SFltb x y = true \/ SFltb y z = true.
Proof.
  rewrite !SFltb_key. unfold key_lt.
  intros Hy (? & ? & ?).
  destruct (decide (key_lt (fkey x) (fkey y))) as [Hxy|Hxy].
  - left. done.
  - right. split_and!; [done|done|]. unfold key_lt in *. lia.
Qed.

(** On non-NaN values [<=] is the negation of the converse [<]. *)
Lemma SFleb_not_ltb x y :
  F32.is_nan x = false -> F32.is_nan y = false ->
  SFleb x y = true <-> SFltb y x = false.
Proof.
  intros Hx Hy. rewrite SFleb_key. split.
  - intros (_ & _ & Hn). destruct (SFltb y x) eqn:E; [|done].
    apply SFltb_key in E as (_ & _ & E). done.
  - intros E. split_and!; [done|done|]. intros Hk.
    assert (SFltb y x = true) by (by apply SFltb_key). congruence.
Qed.

(** ** Search as two-level top-k over the rows of the store *)

Lemma foldl_concat {A B} (f : A -> B -> A) (ls : list (list B)) (a : A) :
  foldl (fun a l => foldl f a l) a ls = foldl f a (concat ls).
Proof.
  revert a. induction ls as [|l ls IH]; intros a; [done|].
  simpl. by rewrite foldl_app, IH.
Qed.

Lemma concat_fmap_concat {A B} (g : A -> list B) (ls : list (list A)) :
  concat ((fun l => concat (g <$> l)) <$> ls) = concat (g <$> concat ls).
Proof.
  induction ls as [|l ls IH]; [done|].
  rewrite fmap_cons. cbn [concat]. by rewrite fmap_app, concat_app, IH.
Qed.

(** The candidate the scan loop builds for one row. *)
Definition candidate (metric : list float32 -> list float32 -> float32)
    (query : list float32) (r : row) : SearchResult :=
  mkResult r.1 (metric query r.2).

(** The shard indices scanned by worker [w]. *)
Definition worker_range (procs : positive) (w : nat) : list nat :=
  let start := w * shardsPerWorker procs in
  let end_ := start + shardsPerWorker procs in
  let end_ := if numShards <? end_ then numShards else end_ in
  seq start (end_ - start).

Lemma worker_ranges_cover procs :
  concat (worker_range procs <$> seq 0 (nWorkers procs)) = seq 0 numShards.
Proof.
  unfold worker_range, shardsPerWorker.
  assert (1 <= nWorkers procs <= 16) as Hn.
  { unfold nWorkers, numShards. lia. }
  destruct (nWorkers procs) as [|n]; [lia|].
  do 16 (destruct n as [|n]; [vm_compute; reflexivity|]).
  lia.
Qed.

Section SearchFacts.
Variable procs : positive.
Variable metric : list float32 -> list float32 -> float32.

Lemma scan_shard_fold dim query k h sh :
  scan_shard metric dim query k h sh =
  foldl (offer maxHeap_Less k) h (candidate metric query <$> rows_of dim sh).
Proof. unfold scan_shard, rows_of. by rewrite !foldl_fmap. Qed.

(** The rows scanned by worker [w]. *)
Definition worker_rows (s : VectorStore) (w : nat) : list row :=
  concat ((fun si => rows_of (dim_of s) (shards s !!! si)) <$> worker_range procs w).

Lemma worker_fold s query k w :
  worker procs metric s query k w =
  drain_all maxHeap_Less id
    (foldl (offer maxHeap_Less k) [] (candidate metric query <$> worker_rows s w)).
Proof.
  unfold worker, worker_rows. fold (worker_range procs w). f_equal.
  induction (worker_range procs w) as [|si l IH] using rev_ind; [done|].
  rewrite foldl_app, fmap_app, concat_app, fmap_app, foldl_app, <- IH. simpl.
  by rewrite scan_shard_fold, app_nil_r.
Qed.

Lemma merge_fold k (wrs : list (list SearchResult)) :
  merge k wrs = foldl (offer maxHeap_Less k) [] (concat wrs).
Proof. unfold merge. apply foldl_concat. Qed.

Lemma worker_rows_cover s :
  length (shards s) = numShards ->
  concat (worker_rows s <$> seq 0 (nWorkers procs)) = contents s.
Proof.
  intros Hlen. unfold contents.
  transitivity (concat ((fun si => rows_of (dim_of s) (shards s !!! si))
                          <$> concat (worker_range procs <$> seq 0 (nWorkers procs)))).
  { rewrite <- concat_fmap_concat, <- list_fmap_compose. done. }
  rewrite worker_ranges_cover. f_equal.
  apply list_eq. intros i. rewrite !list_lookup_fmap.
  destruct (decide (i < numShards)) as [Hi|Hi].
  - rewrite lookup_seq_lt by done. simpl.
    rewrite (list_lookup_lookup_total_lt (shards s) i) by lia. done.
  - rewrite lookup_seq_ge by lia. simpl.
    rewrite (proj2 (lookup_ge_None (shards s) i)) by lia. done.
Qed.

End SearchFacts.

(** [maxHeap_Less] is a strict weak order on results whose distance is
    not NaN. *)
Definition result_ok (r : SearchResult) : Prop := F32.is_nan (Distance r) = false.

Lemma maxHeap_Less_irrefl x : maxHeap_Less x x = false.
Proof. apply SFltb_irrefl. Qed.

Lemma maxHeap_Less_trans x y z :
  maxHeap_Less x y = true -> maxHeap_Less y z = true -> maxHeap_Less x z = true.
Proof. unfold maxHeap_Less, F32.ltb. intros Hxy Hyz. by eapply SFltb_trans. Qed.

Lemma maxHeap_Less_cotrans x y z :
  result_ok y -> maxHeap_Less x z = true ->
  maxHeap_Less x y = true \/ maxHeap_Less y z = true.
Proof.
  unfold maxHeap_Less, F32.ltb, result_ok. intros Hy Hxz.
  destruct (SFltb_cotrans _ _ _ Hy Hxz); auto.
Qed.

Section SearchTopK.
Variable procs : positive.
Variable metric : list float32 -> list float32 -> float32.

Lemma concat_fmap_fmap {A B} (f : A -> B) (ls : list (list A)) :
  concat ((fun l : list A => f <$> l) <$> ls) = f <$> concat ls.
Proof.
  induction ls as [|l ls IH]; [done|].
  rewrite fmap_cons. cbn [concat]. by rewrite fmap_app, IH.
Qed.

Lemma topk_ok k xs res :
  Forall result_ok xs -> topk maxHeap_Less k xs res -> Forall result_ok res.
Proof.
  intros Hok (_ & _ & rest & Hperm & _).
  rewrite Hperm in Hok. by apply Forall_app in Hok as [? _].
Qed.

(** The two heap levels of [knn] select the [k] candidates of lowest
    distance among all rows of the store. *)
Lemma knn_topk s query k :
  length (shards s) = numShards -> (1 <= k)%Z ->
  Forall result_ok (candidate metric query <$> contents s) ->
  topk maxHeap_Less k (candidate metric query <$> contents s)
    (drain_all maxHeap_Less id
       (merge k (worker procs metric s query k <$> seq 0 (nWorkers procs)))).
Proof.
  intros Hlen Hk Hok.
  rewrite <- (worker_rows_cover procs s Hlen) in *.
  rewrite <- concat_fmap_fmap in *.
  rewrite <- list_fmap_compose in *.
  rewrite merge_fold.
  set (ws := seq 0 (nWorkers procs)) in *.
  assert (Forall2 (topk maxHeap_Less k)
            ((fun l => candidate metric query <$> l) ∘ worker_rows procs s <$> ws)
            (worker procs metric s query k <$> ws)) as Hparts.
  { apply Forall2_fmap, Forall_Forall2_diag, Forall_forall. intros w Hw.
    rewrite worker_fold. simpl.
    apply (scan_drain_topk maxHeap_Less result_ok);
      [apply maxHeap_Less_irrefl|apply maxHeap_Less_trans
      |apply maxHeap_Less_cotrans|done|].
    apply Forall_forall. intros r Hr.
    eapply (proj1 (Forall_forall _ _) Hok), elem_of_concat.
    eexists. split; [exact Hr|].
    apply (list_elem_of_fmap_2 ((fun l => candidate metric query <$> l) ∘ worker_rows procs s)) in Hw.
    exact Hw. }
  eapply (topk_merge maxHeap_Less result_ok);
    [apply maxHeap_Less_irrefl|apply maxHeap_Less_cotrans|done|exact Hparts|].
  apply (scan_drain_topk maxHeap_Less result_ok);
    [apply maxHeap_Less_irrefl|apply maxHeap_Less_trans
    |apply maxHeap_Less_cotrans|done|].
  apply Forall_forall. intros r (l & Hr & Hl)%elem_of_concat.
  apply list_elem_of_lookup in Hl as [i Hl].
  destruct (Forall2_lookup_r _ _ _ _ _ Hparts Hl) as (c & Hc & Htk).
  assert (Forall result_ok c) as Hokc.
  { apply Forall_forall. intros r' Hr'.
    eapply (proj1 (Forall_forall _ _) Hok), elem_of_concat.
    eexists. split; [exact Hr'|]. apply list_elem_of_lookup. eauto. }
  eapply (proj1 (Forall_forall _ _) (topk_ok _ _ _ Hokc Htk)). done.
Qed.

Lemma knn_success post s query k :
  Z.of_nat (length query) = dimension s -> (1 <= k)%Z ->
  knn procs metric post s query k =
    (post <$> drain_all maxHeap_Less id
       (merge k (worker procs metric s query k <$> seq 0 (nWorkers procs))),
     None).
Proof.
  intros Hq Hk. unfold knn.
  rewrite bool_decide_eq_false_2 by (intros ?; done).
  destruct (Z.leb_spec k 0); [lia|].
  by rewrite drain_all_post.
Qed.

End SearchTopK.

(** ** The contents of the store under Insert and Delete *)

Lemma swap_remove_perm {A} `{Inhabited A} (l : list A) idx x :
  l !! idx = Some x ->
  l ≡ₚ x :: take (length l - 1) (<[idx := l !!! (length l - 1)]> l).
Proof.
  intros Hidx. destruct l as [|a l0] using rev_ind; [done|]. clear IHl0.
  rename l0 into l. rewrite length_app. simpl.
  replace (length l + 1 - 1) with (length l) by lia.
  rewrite (lookup_total_app_r l [a]) by lia. rewrite Nat.sub_diag. simpl.
  destruct (decide (idx = length l)) as [->|Hne].
  - rewrite lookup_app_r, Nat.sub_diag in Hidx by lia. injection Hidx as <-.
    rewrite take_insert_ge by lia. rewrite take_app_length.
    by rewrite Permutation_app_comm.
  - apply lookup_lt_Some in Hidx as Hlt. rewrite length_app in Hlt. simpl in Hlt.
    rewrite lookup_app_l in Hidx by lia.
    rewrite insert_app_l by lia.
    rewrite take_app_length' by (by rewrite length_insert).
    rewrite insert_take_drop by lia.
    rewrite <- (take_drop_middle l idx x Hidx) at 1.
    rewrite <- (Permutation_cons_append _ a).
    rewrite <- (Permutation_middle (take idx l) (drop (S idx) l) x).
    rewrite <- (Permutation_middle (take idx l) (drop (S idx) l) a).
    apply Permutation_swap.
Qed.

Lemma concat_insert_perm {A} (ls : list (list A)) i l l' x :
  ls !! i = Some l -> l ≡ₚ x :: l' ->
  concat ls ≡ₚ x :: concat (<[i := l']> ls).
Proof.
  intros Hi Hl. apply lookup_lt_Some in Hi as Hlt.
  rewrite insert_take_drop by done.
  rewrite <- (take_drop_middle ls i l Hi) at 1.
  rewrite !concat_app. simpl. rewrite Hl. simpl.
  by rewrite <- Permutation_middle.
Qed.

Lemma concat_insert_replace {A} (ls : list (list A)) i l l1 l2 x y :
  ls !! i = Some l -> l ≡ₚ x :: l1 -> l2 ≡ₚ y :: l1 ->
  exists rest, concat ls ≡ₚ x :: rest /\ concat (<[i := l2]> ls) ≡ₚ y :: rest.
Proof.
  intros Hi Hl Hl2. apply lookup_lt_Some in Hi as Hlt.
  exists (concat (<[i := l1]> ls)). split; [by eapply concat_insert_perm|].
  rewrite (concat_insert_perm (<[i := l2]> ls) i l2 l1 y);
    [|by apply list_lookup_insert_eq|done].
  by rewrite list_insert_insert_eq.
Qed.

Lemma contents_set_shard s si sh :
  contents (set_shard s si sh)
  = concat (<[si := rows_of (dim_of s) sh]> (rows_of (dim_of s) <$> shards s)).
Proof. unfold contents, set_shard, dim_of. simpl. by rewrite list_fmap_insert. Qed.

Lemma rows_of_length dim sh : length (rows_of dim sh) = length (ids sh).
Proof. unfold rows_of. by rewrite length_fmap, length_seq. Qed.

Lemma Count_contents s : Count s = length (contents s).
Proof.
  unfold Count, contents.
  assert (forall l a,
            foldl (fun total sh => total + length (ids sh)) a l
            = a + length (concat (rows_of (dim_of s) <$> l))) as Hgen.
  { induction l as [|sh l IH]; intros a; [simpl; lia|].
    rewrite fmap_cons. cbn [foldl concat].
    rewrite IH, length_app, rows_of_length. lia. }
  by rewrite Hgen.
Qed.

Lemma NoDup_concat_routed {A} (f : A -> nat) (ls : list (list A)) off :
  (forall i l x, ls !! i = Some l -> x ∈ l -> f x = off + i) ->
  (forall l, l ∈ ls -> NoDup l) ->
  NoDup (concat ls).
Proof.
  revert off. induction ls as [|l ls IH]; intros off Hroute Hnd; [constructor|].
  simpl. apply NoDup_app. split_and!.
  - apply Hnd. by left.
  - intros x Hx (l' & Hx' & [i Hl']%list_elem_of_lookup)%elem_of_concat.
    pose proof (Hroute 0 l x eq_refl Hx).
    pose proof (Hroute (S i) l' x Hl' Hx'). lia.
  - apply (IH (S off)).
    + intros i l' x Hl' Hx. rewrite (Hroute (S i) l' x Hl' Hx). lia.
    + intros l' Hl'. apply Hnd. by right.
Qed.

Lemma store_ok_rows D s si sh :
  store_ok D s -> shards s !! si = Some sh ->
  shard_ok (Z.to_nat D) si sh (rows_of (dim_of s) sh).
Proof.
  intros (HD & Hlen & Hall) Hsh.
  destruct (Hall _ _ Hsh) as (rws & Hok & _).
  unfold dim_of. rewrite HD. by rewrite (shard_ok_rows _ _ _ _ Hok).
Qed.

Lemma contents_NoDup D s : store_ok D s -> NoDup (contents s).*1.
Proof.
  intros Hs. unfold contents.
  rewrite <- concat_fmap_fmap, <- list_fmap_compose.
  apply (NoDup_concat_routed shardIndex _ 0).
  - intros i l x Hl Hx. rewrite list_lookup_fmap in Hl.
    destruct (shards s !! i) as [sh|] eqn:Hsh; [|done]. injection Hl as <-.
    pose proof (store_ok_rows _ _ _ _ Hs Hsh) as Hok.
    by apply (ok_route _ _ _ _ Hok).
  - intros l (sh & -> & [i Hsh]%list_elem_of_lookup)%list_elem_of_fmap.
    pose proof (store_ok_rows _ _ _ _ Hs Hsh) as Hok.
    by eapply shard_ok_nodup.
Qed.

Lemma set_shard_lookup_ne s si sh sj :
  sj ≠ si -> shards (set_shard s si sh) !! sj = shards s !! sj.
Proof. intros Hne. simpl. by rewrite list_lookup_insert_ne. Qed.

Lemma set_shard_lookup_eq s si sh :
  si < length (shards s) -> shards (set_shard s si sh) !!! si = sh.
Proof. intros Hlt. simpl. by rewrite list_lookup_total_insert_eq. Qed.

(** What a successful Insert leaves in the routed shard. *)
Lemma Insert_success D s v :
  store_ok D s -> ID v ≠ "" -> Z.of_nat (length (Data v)) = D ->
  let si := shardIndex (ID v) in
  let sh := shards s !!! si in
  let rws := rows_of (dim_of s) sh in
  let s' := (Insert s v).1 in
  (Insert s v).2 = None /\
  (forall sj, sj ≠ si -> shards s' !! sj = shards s !! sj) /\
  rows_of (dim_of s) (shards s' !!! si) =
    match idIndex sh !! ID v with
    | Some idx => <[idx := (ID v, Data v)]> rws
    | None => rws ++ [(ID v, Data v)]
    end /\
  exists idx,
    idIndex (shards s' !!! si) !! ID v = Some idx /\
    rows_of (dim_of s) (shards s' !!! si) !! idx = Some (ID v, Data v).
Proof.
  intros Hs Hid Hdim si sh rws s'.
  pose proof (shardIndex_lt (ID v)) as Hlt. fold si in Hlt.
  destruct (store_ok_shard _ _ _ Hs Hlt) as (sh0 & rws0 & Hlk & Htot & Hok & Hd).
  assert (sh0 = sh) as -> by done.
  assert (dimension s = D) as HD by apply Hs.
  assert (length (shards s) = numShards) as Hlen by apply Hs.
  assert (dim_of s = Z.to_nat D) as Hdimof by (unfold dim_of; by rewrite HD).
  assert (rws0 = rws) as ->.
  { subst rws. rewrite Hdimof. symmetry. by eapply shard_ok_rows. }
  assert (length (Data v) = Z.to_nat D) as Hlenv by lia.
  subst s'. unfold Insert.
  rewrite bool_decide_eq_false_2 by done.
  rewrite bool_decide_eq_false_2 by (intros ?; lia).
  fold si. fold sh. rewrite Hdimof.
  destruct (idIndex sh !! ID v) as [idx|] eqn:Hidx; cbn [fst snd].
  - pose proof (shard_ok_overwrite _ _ _ _ _ _ _ Hok Hidx Hlenv) as Hok'.
    split_and!; [done|intros; by apply set_shard_lookup_ne| |].
    + rewrite set_shard_lookup_eq by lia. by eapply shard_ok_rows.
    + exists idx. rewrite set_shard_lookup_eq by lia. cbn [idIndex].
      split; [done|]. rewrite (shard_ok_rows _ _ _ _ Hok').
      apply list_lookup_insert_eq.
      apply (ok_index _ _ _ _ Hok) in Hidx. apply lookup_lt_Some in Hidx.
      by rewrite length_fmap in Hidx.
  - assert (shardIndex (ID v) = si) as Hsi by done.
    pose proof (shard_ok_append _ _ _ _ _ _ Hok Hidx Hlenv Hsi Hid) as Hok'.
    split_and!; [done|intros; by apply set_shard_lookup_ne| |].
    + rewrite set_shard_lookup_eq by lia. by eapply shard_ok_rows.
    + exists (length (ids sh)). rewrite set_shard_lookup_eq by lia. cbn [idIndex].
      split; [by rewrite lookup_insert_eq|]. rewrite (shard_ok_rows _ _ _ _ Hok').
      rewrite (ok_ids _ _ _ _ Hok), length_fmap.
      by rewrite lookup_app_r, Nat.sub_diag.
Qed.

(** What a successful Delete leaves in the routed shard. *)
Lemma Delete_found D s id idx :
  store_ok D s ->
  idIndex (shards s !!! shardIndex id) !! id = Some idx ->
  let si := shardIndex id in
  let rws := rows_of (dim_of s) (shards s !!! si) in
  let s' := (Delete s id).1 in
  (Delete s id).2 = None /\
  (forall sj, sj ≠ si -> shards s' !! sj = shards s !! sj) /\
  rows_of (dim_of s) (shards s' !!! si) =
    take (length rws - 1) (<[idx := rws !!! (length rws - 1)]> rws) /\
  exists vec, rws !! idx = Some (id, vec) /\ contents s ≡ₚ (id, vec) :: contents s'.
Proof.
  intros Hs Hidx si rws s'.
  pose proof (shardIndex_lt id) as Hlt. fold si in Hlt, Hidx.
  destruct (store_ok_shard _ _ _ Hs Hlt) as (sh & rws0 & Hlk & Htot & Hok & Hd).
  assert (dimension s = D) as HD by apply Hs.
  assert (length (shards s) = numShards) as Hlen by apply Hs.
  assert (dim_of s = Z.to_nat D) as Hdimof by (unfold dim_of; by rewrite HD).
  assert (rws0 = rws) as ->.
  { subst rws. rewrite Hdimof, Htot. symmetry. by eapply shard_ok_rows. }
  rewrite Htot in Hidx.
  pose proof (shard_ok_remove _ _ _ _ _ _ Hok Hidx) as Hok'. cbv zeta in Hok'.
  assert (length (ids sh) = length rws) as Hlr.
  { by rewrite (ok_ids _ _ _ _ Hok), length_fmap. }
  subst s'. unfold Delete. fold si. rewrite Htot, Hidx, Hdimof. cbn [fst snd].
  assert (rws !! idx = Some (id, (rws !!! idx).2)) as Hrow.
  { apply (ok_index _ _ _ _ Hok) in Hidx. rewrite list_lookup_fmap in Hidx.
    destruct (rws !! idx) as [[id' vec]|] eqn:Hr; [|done].
    simpl in Hidx. injection Hidx as ->.
    by rewrite (list_lookup_total_correct _ _ _ Hr). }
  split_and!; [done|intros; by apply set_shard_lookup_ne| |].
  - rewrite set_shard_lookup_eq by lia.
    rewrite (shard_ok_rows _ _ _ _ Hok'). by rewrite Hlr.
  - exists (rws !!! idx).2. split; [done|].
    rewrite contents_set_shard, Hdimof, (shard_ok_rows _ _ _ _ Hok'), Hlr.
    unfold contents. rewrite Hdimof.
    eapply concat_insert_perm.
    + rewrite list_lookup_fmap, Hlk. simpl. by rewrite (shard_ok_rows _ _ _ _ Hok).
    + apply swap_remove_perm. done.
Qed.

(** ** The heap only moves its elements

    These hold for any [less], NaN distances included. *)

Section HeapMembers.
Context {A : Type} `{Inhabited A}.
Variable less : A -> A -> bool.

Lemma swap_perm' (h : list A) i j :
  i < length h -> j < length h -> swap h i j ≡ₚ h.
Proof.
  intros Hi Hj. unfold swap.
  apply Permutation_insert_swap; by apply list_lookup_lookup_total_lt.
Qed.

Lemma up_perm fuel (h : list A) j : j < length h -> up less fuel h j ≡ₚ h.
Proof.
  revert h j. induction fuel as [|fuel IH]; intros h j Hj; [done|].
  cbn [up]. cbv zeta.
  pose proof (parent_spec j) as Hp.
  destruct (bool_decide ((j - 1) / 2 = j) || negb (less (h !!! j) (h !!! ((j - 1) / 2))));
    [done|].
  rewrite IH.
  - apply swap_perm'; lia.
  - unfold swap. rewrite !length_insert. lia.
Qed.

Lemma down_perm fuel (h : list A) i n :
  n <= length h -> down less fuel h i n ≡ₚ h.
Proof.
  revert h i. induction fuel as [|fuel IH]; intros h i Hn; [done|].
  cbn [down]. cbv zeta.
  destruct (Nat.leb_spec n (2 * i + 1)) as [Hle|Hlt]; [done|].
  set (j := if (2 * i + 1 + 1 <? n) && less (h !!! (2 * i + 1 + 1)) (h !!! (2 * i + 1))
            then 2 * i + 1 + 1 else 2 * i + 1).
  assert (j < n) as Hj.
  { subst j. destruct (Nat.ltb_spec (2 * i + 1 + 1) n); cbn [andb]; [|lia].
    destruct (less _ _); lia. }
  destruct (negb (less (h !!! j) (h !!! i))); [done|].
  rewrite IH.
  - apply swap_perm'; lia.
  - unfold swap. rewrite !length_insert. lia.
Qed.

Lemma heap_Push_perm (h : list A) x : heap_Push less h x ≡ₚ x :: h.
Proof.
  unfold heap_Push. rewrite up_perm.
  - by rewrite Permutation_app_comm.
  - rewrite length_app. simpl. lia.
Qed.

Lemma heap_Pop_perm (h : list A) :
  h ≠ [] -> h ≡ₚ (heap_Pop less h).1 :: (heap_Pop less h).2.
Proof.
  intros Hne. unfold heap_Pop. cbn [fst snd].
  assert (0 < length h) as Hlen by (destruct h; [done|simpl; lia]).
  set (n := length h - 1).
  set (h1 := swap h 0 n).
  assert (h1 ≡ₚ h) as Hp1 by (apply swap_perm'; lia).
  set (h2 := down less (length h1) h1 0 n).
  assert (h2 ≡ₚ h) as Hp2.
  { subst h2. rewrite down_perm; [done|]. rewrite (Permutation_length Hp1). lia. }
  assert (length h2 = S n) as Hl2 by (rewrite (Permutation_length Hp2); lia).
  rewrite <- Hp2 at 1.
  rewrite <- (take_ge h2 (S n)) at 1 by lia.
  rewrite (take_S_r h2 n (h2 !!! n)) by (apply list_lookup_lookup_total_lt; lia).
  by rewrite Permutation_app_comm.
Qed.

Lemma heap_Pop_elem (h : list A) y : y ∈ (heap_Pop less h).2 -> y ∈ h.
Proof.
  destruct (decide (h = [])) as [->|Hne].
  - unfold heap_Pop. cbn [snd length]. rewrite take_0. by intros ?%elem_of_nil.
  - intros Hy. rewrite (heap_Pop_perm h Hne). by right.
Qed.

Lemma offer_elem k (h : list A) x y :
  y ∈ offer less k h x -> y = x \/ y ∈ h.
Proof.
  unfold offer. destruct (Z.of_nat (length h) <? k)%Z.
  - rewrite heap_Push_perm. by intros [->|?]%elem_of_cons; [left|right].
  - destruct (less (h !!! 0) x); [|by right].
    rewrite heap_Push_perm. intros [->|Hy]%elem_of_cons; [by left|].
    right. by apply heap_Pop_elem.
Qed.

Lemma foldl_offer_elem k (xs h : list A) y :
  y ∈ foldl (offer less k) h xs -> y ∈ h \/ y ∈ xs.
Proof.
  revert h. induction xs as [|x xs IH]; intros h; [by left|].
  simpl. intros [Hy|Hy]%IH.
  - apply offer_elem in Hy as [->|Hy]; [right; by left|by left].
  - right. by right.
Qed.

Lemma drain_elem (post : A -> A) fuel (h acc : list A) y :
  fuel <= length h ->
  y ∈ drain less post fuel h acc -> y ∈ acc \/ exists z, z ∈ h /\ y = post z.
Proof.
  revert h acc. induction fuel as [|fuel IH]; intros h acc Hf; [by left|].
  assert (h ≠ []) as Hne by (destruct h; [simpl in Hf; lia|done]).
  pose proof (heap_Pop_perm h Hne) as Hperm.
  cbn [drain]. destruct (heap_Pop less h) as [x h']. cbn [fst snd] in Hperm.
  intros [Hy|(z & Hz & ->)]%IH.
  - apply elem_of_cons in Hy as [->|Hy]; [|by left].
    right. exists x. split; [|done]. rewrite Hperm. by left.
  - right. exists z. split; [|done]. rewrite Hperm. by right.
  - apply Permutation_length in Hperm. simpl in Hperm. lia.
Qed.

Lemma drain_all_elem (post : A -> A) (h : list A) y :
  y ∈ drain_all less post h -> exists z, z ∈ h /\ y = post z.
Proof.
  unfold drain_all. intros [Hy|?]%drain_elem; [|done|done].
  by apply elem_of_nil in Hy.
Qed.

End HeapMembers.

(** Every result of [knn] is the candidate of a stored row. *)
Lemma knn_elem procs metric post s query k r :
  length (shards s) = numShards ->
  r ∈ (knn procs metric post s query k).1 ->
  exists rw, rw ∈ contents s /\ r = post (candidate metric query rw).
Proof.
  intros Hlen. unfold knn.
  case_bool_decide; [by intros ?%elem_of_nil|].
  destruct (k <=? 0)%Z; [by intros ?%elem_of_nil|]. cbn [fst].
  intros (z & Hz & ->)%drain_all_elem.
  rewrite merge_fold in Hz.
  apply foldl_offer_elem in Hz as [Hz|Hz]; [by apply elem_of_nil in Hz|].
  apply elem_of_concat in Hz as (wr & Hz & Hwr).
  apply list_elem_of_fmap in Hwr as (w & -> & Hw).
  rewrite worker_fold in Hz.
  apply drain_all_elem in Hz as (z' & Hz' & ->).
  apply foldl_offer_elem in Hz' as [Hz'|Hz']; [by apply elem_of_nil in Hz'|].
  apply list_elem_of_fmap in Hz' as (rw & -> & Hrw).
  exists rw. split; [|done].
  rewrite <- (worker_rows_cover procs s Hlen).
  apply elem_of_concat. exists (worker_rows procs s w). split; [done|].
  by apply list_elem_of_fmap_2.
Qed.

(** ** Delete *)

(** C4: [Delete(id)] returns NotFound and leaves the store unchanged
    exactly when [id] is absent from its routed shard; otherwise it
    succeeds, the last row of the shard takes the place of the deleted row
    and the shard is truncated by one row, [idIndex] stays the inverse of
    [ids], the other shards are untouched, the store loses exactly that
    vector, [Count] drops by one and no later [Search] returns [id]. *)
Theorem Delete_correct D s id :
  reachable D s ->
  let si := shardIndex id in
  let sh := shards s !!! si in
  let rws := rows_of (dim_of s) sh in
  let s' := (Delete s id).1 in
  let sh' := shards s' !!! si in
  ((id ∉ ids sh) <-> Delete s id = (s, Some ErrNotFound)) /\
  (id ∈ ids sh ->
     exists idx vec,
       idIndex sh !! id = Some idx /\ rws !! idx = Some (id, vec) /\
       (Delete s id).2 = None /\
       rows_of (dim_of s) sh' =
         take (length rws - 1) (<[idx := rws !!! (length rws - 1)]> rws) /\
       (forall id' i, idIndex sh' !! id' = Some i <-> ids sh' !! i = Some id') /\
       (forall sj, sj ≠ si -> shards s' !! sj = shards s !! sj) /\
       contents s ≡ₚ (id, vec) :: contents s' /\
       Count s' + 1 = Count s /\
       (id ∉ (contents s').*1) /\
       (forall arch procs q k r, r ∈ (Search arch procs s' q k).1 -> rID r ≠ id)).
Proof.
  intros Hr si sh rws s' sh'.
  pose proof (reachable_ok _ _ Hr) as Hs.
  pose proof (shardIndex_lt id) as Hlt. fold si in Hlt.
  destruct (store_ok_shard _ _ _ Hs Hlt) as (sh0 & rws0 & Hlk & Htot & Hok & Hd).
  assert (sh0 = sh) as -> by done.
  assert (forall i, idIndex sh !! id = Some i <-> ids sh !! i = Some id) as Hix.
  { intros i. rewrite (ok_ids _ _ _ _ Hok). apply (ok_index _ _ _ _ Hok). }
  split.
  - split.
    + intros Hnin. unfold Delete. fold si. fold sh.
      destruct (idIndex sh !! id) as [i|] eqn:Hi; [|done].
      exfalso. apply Hnin. apply list_elem_of_lookup. exists i. by apply Hix.
    + intros Hdel [i Hi]%list_elem_of_lookup. apply Hix in Hi.
      destruct (Delete_found D s id i Hs Hi) as (Hnone & _).
      rewrite Hdel in Hnone. done.
  - intros [idx Hi]%list_elem_of_lookup. apply Hix in Hi.
    destruct (Delete_found D s id idx Hs Hi) as (Hnone & Hothers & Hrows & vec & Hrow & Hperm).
    fold si in Hothers, Hrows. fold sh in Hrows. fold rws in Hrows, Hrow.
    fold s' in Hothers, Hrows, Hperm. fold sh' in Hrows.
    pose proof (Delete_ok D s id Hs) as Hs'. fold s' in Hs'.
    destruct (store_ok_shard _ _ _ Hs' Hlt) as (sh1 & rws1 & Hlk1 & Htot1 & Hok1 & _).
    assert (sh1 = sh') as -> by done.
    assert (id ∉ (contents s').*1) as Hnin.
    { pose proof (contents_NoDup _ _ Hs) as Hnd.
      rewrite Hperm in Hnd. simpl in Hnd. by apply NoDup_cons in Hnd as [? _]. }
    exists idx, vec. split_and!; try done.
    + intros id' i. rewrite (ok_ids _ _ _ _ Hok1). apply (ok_index _ _ _ _ Hok1).
    + rewrite !Count_contents. rewrite (Permutation_length Hperm). simpl. lia.
    + intros arch procs q k r Hin Heq.
      apply knn_elem in Hin as (rw & Hrw & ->); [|apply Hs'].
      apply Hnin. simpl in Heq. rewrite <- Heq.
      by apply list_elem_of_fmap_2.
Qed.

Definition example_store3 : VectorStore :=
  (Insert
     (Insert
        (Insert (NewVectorStore 2) (mkVector "a" [F32.of_Z 1; F32.of_Z 2])).1
        (mkVector "b" [F32.of_Z 3; F32.of_Z 4])).1
     (mkVector "c" [F32.of_Z 5; F32.of_Z 6])).1.

Lemma example_store3_reachable : reachable 2 example_store3.
Proof. unfold example_store3. repeat constructor. Qed.

Lemma Delete_correct_witness :
  reachable 2 example_store3 /\
  let s := example_store3 in
  let id := "b" in
  let si := shardIndex id in
  let sh := shards s !!! si in
  let rws := rows_of (dim_of s) sh in
  let s' := (Delete s id).1 in
  let sh' := shards s' !!! si in
  ((id ∉ ids sh) <-> Delete s id = (s, Some ErrNotFound)) /\
  (id ∈ ids sh ->
     exists idx vec,
       idIndex sh !! id = Some idx /\ rws !! idx = Some (id, vec) /\
       (Delete s id).2 = None /\
       rows_of (dim_of s) sh' =
         take (length rws - 1) (<[idx := rws !!! (length rws - 1)]> rws) /\
       (forall id' i, idIndex sh' !! id' = Some i <-> ids sh' !! i = Some id') /\
       (forall sj, sj ≠ si -> shards s' !! sj = shards s !! sj) /\
       contents s ≡ₚ (id, vec) :: contents s' /\
       Count s' + 1 = Count s /\
       (id ∉ (contents s').*1) /\
       (forall arch procs q k r, r ∈ (Search arch procs s' q k).1 -> rID r ≠ id)).
Proof.
  split; [apply example_store3_reachable|].
  apply (Delete_correct 2 example_store3 "b" example_store3_reachable).
Defined.

(** ** Invariants of the kernels

    A property [P] of the accumulator that every step of a kernel
    preserves, for operands related by [R], holds of the kernel's result,
    on the scalar path and on the NEON path alike. *)

Section KernelInvariant.
Context {T : Type} `{Arith T}.
Variable R : T -> T -> Prop.
Variable P : T -> Prop.
Hypothesis R_zero : R a_zero a_zero.
Hypothesis P_zero : P a_zero.
Hypothesis P_add : forall a b, P a -> P b -> P (a_add a b).

Definition P4 (v : V4 T) : Prop :=
  P (lane0 v) /\ P (lane1 v) /\ P (lane2 v) /\ P (lane3 v).

Definition regs_inv (r : regs T) : Prop :=
  Forall2 R (R0 r) (R2 r) /\ P4 (V0 r) /\ P4 (V1 r) /\ P4 (V2 r) /\ P4 (V3 r).

Lemma Forall2_nth_zero (pa pb : list T) i :
  Forall2 R pa pb -> R (nth i pa a_zero) (nth i pb a_zero).
Proof.
  intros HF. revert i. induction HF as [|x y pa pb Hxy _ IH]; intros i.
  - by destruct i.
  - destruct i; simpl; [done|apply IH].
Qed.

Lemma Forall2_drop_R (pa pb : list T) n :
  Forall2 R pa pb -> Forall2 R (drop n pa) (drop n pb).
Proof. apply Forall2_drop. Qed.

Lemma regs_inv_entry (a b : list T) : Forall2 R a b -> regs_inv (neon_entry a b).
Proof.
  intros HF. unfold regs_inv, neon_entry, P4, vzero. simpl. split_and!; done.
Qed.

Lemma neon_reduce_inv (r : regs T) : regs_inv r -> P (neon_reduce r).
Proof.
  intros (_ & (? & ? & ? & ?) & (? & ? & ? & ?) & (? & ? & ? & ?) & (? & ? & ? & ?)).
  unfold neon_reduce, faddp_s, vfaddp, vfadd. simpl.
  repeat apply P_add; done.
Qed.

Section Euclidean.
Hypothesis P_scalar :
  forall x y acc, R x y -> P acc -> P (a_add acc (a_mul (a_sub x y) (a_sub x y))).
Hypothesis P_fma :
  forall x y acc, R x y -> P acc -> P (a_fma (a_sub x y) (a_sub x y) acc).

Lemma euclidean_scalar_from_inv sum (a b : list T) :
  Forall2 R a b -> P sum -> P (euclidean_scalar_from sum a b).
Proof.
  intros HF. revert sum. induction HF as [|x y a b Hxy _ IH]; intros sum Hsum; [done|].
  simpl. apply IH. by apply P_scalar.
Qed.

Lemma euc_fmla_inv (pa pb : list T) (acc : V4 T) :
  Forall2 R pa pb -> P4 acc ->
  P4 (vfmla (vfsub (vld1 pa) (vld1 pb)) (vfsub (vld1 pa) (vld1 pb)) acc).
Proof.
  intros HF (? & ? & ? & ?). unfold P4, vfmla, vfsub, vld1. simpl.
  split_and!; apply P_fma; try done; by apply Forall2_nth_zero.
Qed.

Lemma euc_loop16_inv fuel (r : regs T) : regs_inv r -> regs_inv (euc_loop16 fuel r).
Proof.
  revert r. induction fuel as [|fuel IH]; intros r Hr; [done|].
  cbn [euc_loop16]. destruct (R1 r <? 16); [done|]. cbv zeta.
  destruct Hr as (HF & H0 & H1 & H2 & H3).
  apply IH. unfold regs_inv. cbn [R0 R2 V0 V1 V2 V3].
  split_and!; [by apply Forall2_drop_R|..];
    apply euc_fmla_inv; try done; by apply Forall2_drop_R.
Qed.

Lemma euc_loop4_inv fuel (r : regs T) : regs_inv r -> regs_inv (euc_loop4 fuel r).
Proof.
  revert r. induction fuel as [|fuel IH]; intros r Hr; [done|].
  cbn [euc_loop4]. destruct (R1 r <? 4); [done|]. cbv zeta.
  destruct Hr as (HF & H0 & H1 & H2 & H3).
  apply IH. unfold regs_inv. cbn [R0 R2 V0 V1 V2 V3].
  split_and!; [by apply Forall2_drop_R| |done|done|done].
  by apply euc_fmla_inv.
Qed.

Lemma euc_tail_inv n f0 (pa pb : list T) :
  Forall2 R pa pb -> P f0 -> P (euc_tail n f0 pa pb).
Proof.
  revert f0 pa pb. induction n as [|n IH]; intros f0 pa pb HF Hf0; [done|].
  cbn [euc_tail]. cbv zeta. apply IH; [by apply Forall2_drop_R|].
  apply P_scalar; [|done]. by apply Forall2_nth_zero.
Qed.

Lemma euclideanDistanceSquaredNEON_inv (a b : list T) :
  Forall2 R a b -> P (euclideanDistanceSquaredNEON a b).
Proof.
  intros HF. unfold euclideanDistanceSquaredNEON.
  pose proof (euc_loop4_inv (length a) _
                (euc_loop16_inv (length a) _ (regs_inv_entry a b HF))) as Hr.
  apply euc_tail_inv; [apply Hr|by apply neon_reduce_inv].
Qed.

Lemma EuclideanDistanceSquared_inv arch (a b : list T) :
  Forall2 R a b -> P (EuclideanDistanceSquared arch a b).
Proof.
  intros HF. unfold EuclideanDistanceSquared, euclideanDistanceSquaredPlatform.
  destruct arch; [destruct (4 <=? length a)|].
  - by apply euclideanDistanceSquaredNEON_inv.
  - by apply euclidean_scalar_from_inv.
  - by apply euclidean_scalar_from_inv.
Qed.

End Euclidean.

Section Dot.
Hypothesis P_scalar : forall x y acc, R x y -> P acc -> P (a_add acc (a_mul x y)).
Hypothesis P_scalar' : forall x y acc, R x y -> P acc -> P (a_add acc (a_mul y x)).
Hypothesis P_fma : forall x y acc, R x y -> P acc -> P (a_fma y x acc).

Lemma dot_scalar_from_inv sum (a b : list T) :
  Forall2 R a b -> P sum -> P (dot_scalar_from sum a b).
Proof.
  intros HF. revert sum. induction HF as [|x y a b Hxy _ IH]; intros sum Hsum; [done|].
  simpl. apply IH. by apply P_scalar.
Qed.

Lemma dot_fmla_inv (pa pb : list T) (acc : V4 T) :
  Forall2 R pa pb -> P4 acc -> P4 (vfmla (vld1 pa) (vld1 pb) acc).
Proof.
  intros HF (? & ? & ? & ?). unfold P4, vfmla, vld1. simpl.
  split_and!; apply P_fma; try done; by apply Forall2_nth_zero.
Qed.

Lemma dot_loop16_inv fuel (r : regs T) : regs_inv r -> regs_inv (dot_loop16 fuel r).
Proof.
  revert r. induction fuel as [|fuel IH]; intros r Hr; [done|].
  cbn [dot_loop16]. destruct (R1 r <? 16); [done|]. cbv zeta.
  destruct Hr as (HF & H0 & H1 & H2 & H3).
  apply IH. unfold regs_inv. cbn [R0 R2 V0 V1 V2 V3].
  split_and!; [by apply Forall2_drop_R|..];
    apply dot_fmla_inv; try done; by apply Forall2_drop_R.
Qed.

Lemma dot_loop4_inv fuel (r : regs T) : regs_inv r -> regs_inv (dot_loop4 fuel r).
Proof.
  revert r. induction fuel as [|fuel IH]; intros r Hr; [done|].
  cbn [dot_loop4]. destruct (R1 r <? 4); [done|]. cbv zeta.
  destruct Hr as (HF & H0 & H1 & H2 & H3).
  apply IH. unfold regs_inv. cbn [R0 R2 V0 V1 V2 V3].
  split_and!; [by apply Forall2_drop_R| |done|done|done].
  by apply dot_fmla_inv.
Qed.

Lemma dot_tail_inv n f0 (pa pb : list T) :
  Forall2 R pa pb -> P f0 -> P (dot_tail n f0 pa pb).
Proof.
  revert f0 pa pb. induction n as [|n IH]; intros f0 pa pb HF Hf0; [done|].
  cbn [dot_tail]. cbv zeta. apply IH; [by apply Forall2_drop_R|].
  apply P_scalar'; [|done]. by apply Forall2_nth_zero.
Qed.

Lemma dotProductNEON_inv (a b : list T) : Forall2 R a b -> P (dotProductNEON a b).
Proof.
  intros HF. unfold dotProductNEON.
  pose proof (dot_loop4_inv (length a) _
                (dot_loop16_inv (length a) _ (regs_inv_entry a b HF))) as Hr.
  apply dot_tail_inv; [apply Hr|by apply neon_reduce_inv].
Qed.

Lemma DotProduct_inv arch (a b : list T) : Forall2 R a b -> P (DotProduct arch a b).
Proof.
  intros HF. unfold DotProduct, dotProductPlatform.
  destruct arch; [destruct (4 <=? length a)|].
  - by apply dotProductNEON_inv.
  - by apply dot_scalar_from_inv.
  - by apply dot_scalar_from_inv.
Qed.

End Dot.

End KernelInvariant.

(** ** Distance of a vector to itself *)

Lemma sub_diag_finite (x : float32) :
  F32.is_finite x = true -> F32.sub x x = F32.zero.
Proof.
  destruct x as [[]| | |s m e]; try done.
  intros _. unfold F32.sub, SFsub.
  rewrite Z.min_id. unfold shl_align. rewrite Z.sub_diag. cbn [fst].
  done.
Qed.

Definition is_zero (x : float32) : bool :=
  match x with S754_zero _ => true | _ => false end.

(** C9, on vectors of finite components: the squared Euclidean distance
    of [v] to itself is exactly [+0] on the scalar path, on the NEON path
    and through the dispatch; and the dot product of an all-zero vector
    with itself is exactly [+0] on both paths. *)
Theorem self_distance_zero (v z : list float32) :
  Forall (fun x => F32.is_finite x = true) v ->
  Forall (fun x => is_zero x = true) z ->
  (EuclideanDistanceSquaredScalar v v = F32.zero /\
   euclideanDistanceSquaredNEON v v = F32.zero /\
   forall arch, EuclideanDistanceSquared arch v v = F32.zero) /\
  (DotProductScalar z z = F32.zero /\
   dotProductNEON z z = F32.zero /\
   forall arch, DotProduct arch z z = F32.zero).
Proof.
  intros Hv Hz.
  set (P := fun acc : float32 => acc = F32.zero).
  assert (forall a b : float32, P a -> P b -> P (a_add a b)) as Hadd
    by (by intros a b -> ->).
  split.
  - set (R := fun x y : float32 => x = y /\ F32.is_finite x = true).
    assert (Forall2 R v v) as HF.
    { apply Forall_Forall2_diag. eapply Forall_impl; [exact Hv|]. by intros x Hx. }
    assert (forall x y acc : float32,
              R x y -> P acc -> P (a_add acc (a_mul (a_sub x y) (a_sub x y)))) as Hs.
    { intros x y acc [<- Hx] ->. unfold P. simpl. by rewrite sub_diag_finite. }
    assert (forall x y acc : float32,
              R x y -> P acc -> P (a_fma (a_sub x y) (a_sub x y) acc)) as Hf.
    { intros x y acc [<- Hx] ->. unfold P. simpl. by rewrite sub_diag_finite. }
    split_and!.
    + by apply (euclidean_scalar_from_inv R P Hs).
    + by apply (euclideanDistanceSquaredNEON_inv R P).
    + intros arch. by apply (EuclideanDistanceSquared_inv R P).
  - set (R := fun x y : float32 => is_zero x = true /\ is_zero y = true).
    assert (Forall2 R z z) as HF.
    { apply Forall_Forall2_diag. eapply Forall_impl; [exact Hz|]. by intros x Hx. }
    assert (forall x y acc : float32, R x y -> P acc -> P (a_add acc (a_mul x y))) as Hs.
    { intros [[]| | |] [[]| | |] acc [? ?] ->; done. }
    assert (forall x y acc : float32, R x y -> P acc -> P (a_add acc (a_mul y x))) as Hs'.
    { intros [[]| | |] [[]| | |] acc [? ?] ->; done. }
    assert (forall x y acc : float32, R x y -> P acc -> P (a_fma y x acc)) as Hf.
    { intros [[]| | |] [[]| | |] acc [? ?] ->; done. }
    split_and!.
    + by apply (dot_scalar_from_inv R P Hs).
    + by apply (dotProductNEON_inv R P).
    + intros arch. by apply (DotProduct_inv R P).
Qed.

Lemma self_distance_zero_witness :
  let v := [F32.of_Z 3; F32.of_Z 4; F32.of_Z 5; F32.of_Z 6; F32.of_Z 7] in
  let z := [F32.zero; S754_zero true; F32.zero; F32.zero] in
  Forall (fun x => F32.is_finite x = true) v /\
  Forall (fun x => is_zero x = true) z /\
  (EuclideanDistanceSquaredScalar v v = F32.zero /\
   euclideanDistanceSquaredNEON v v = F32.zero /\
   forall arch, EuclideanDistanceSquared arch v v = F32.zero) /\
  (DotProductScalar z z = F32.zero /\
   dotProductNEON z z = F32.zero /\
   forall arch, DotProduct arch z z = F32.zero).
Proof.
  intros v z.
  assert (Forall (fun x => F32.is_finite x = true) v) as Hv
    by (repeat constructor).
  assert (Forall (fun x => is_zero x = true) z) as Hz
    by (repeat constructor).
  split; [exact Hv|]. split; [exact Hz|].
  exact (self_distance_zero v z Hv Hz).
Defined.

(** The same distance on a vector with an infinite component is NaN, on
    the scalar path and on the NEON path: [Inf - Inf]. *)
Lemma self_distance_infinite :
  let v := [S754_infinity false; F32.zero; F32.zero; F32.zero] in
  F32.eqb (EuclideanDistanceSquaredScalar v v) F32.zero = false /\
  F32.eqb (euclideanDistanceSquaredNEON v v) F32.zero = false /\
  EuclideanDistanceSquaredScalar v v = S754_nan /\
  euclideanDistanceSquaredNEON v v = S754_nan.
Proof. vm_compute. done. Qed.

(** ** Search returns Euclidean distances, not squared ones *)




Lemma nWorkers_small (n : positive) : (n <= 16)%positive -> nWorkers n = Pos.to_nat n.
Proof. unfold nWorkers, numShards. lia. Qed.


(** ** The NEON kernels under exact arithmetic

    On [Z] the four accumulators, the lane reduction and the scalar
    epilogue add up to the plain sum of the scalar loop: the NEON path is
    the scalar sum in another order. *)

Section ExactKernels.
Local Open Scope Z_scope.



















End ExactKernels.

(** ** NEON against scalar on float32 *)








(** ** Search: what "the k nearest" means *)

(** [out] lists [min(k, Count)] vectors of the store with their Euclidean
    distance to [q]; no vector left out is nearer than a vector listed
    (ties broken arbitrarily); and the distances do not decrease along
    [out]. *)
Definition nearest_k (arch : GOARCH) (s : VectorStore) (q : list float32) (k : Z)
    (out : list SearchResult) : Prop :=
  exists sel rest : list row,
    contents s ≡ₚ sel ++ rest /\
    out = (fun rw => mkResult rw.1 (EuclideanDistance arch q rw.2)) <$> sel /\
    length sel = Z.to_nat k `min` Count s /\
    (forall y r, y ∈ sel -> r ∈ rest ->
       F32.leb (EuclideanDistance arch q y.2) (EuclideanDistance arch q r.2) = true) /\
    StronglySorted (fun a b => F32.leb (Distance a) (Distance b) = true) out.

(** A stored vector with a NaN component is returned in place of a
    vector at distance 0: every comparison with its distance is false, so
    it is never evicted from the heap. *)
Definition store_nan : VectorStore :=
  (Insert
     (Insert (NewVectorStore 1) (mkVector "b" [S754_nan])).1
     (mkVector "a" [F32.zero])).1.

Lemma Search_nan_payload :
  reachable 1 store_nan /\
  Z.of_nat (length [F32.zero]) = 1%Z /\
  contents store_nan = [("b", [S754_nan]); ("a", [F32.zero])] /\
  Search arm64 1 store_nan [F32.zero] 1 = ([mkResult "b" S754_nan], None) /\
  ¬ nearest_k arm64 store_nan [F32.zero] 1 (Search arm64 1 store_nan [F32.zero] 1).1.
Proof.
  assert (contents store_nan = [("b", [S754_nan]); ("a", [F32.zero])]) as Hc
    by (by vm_compute).
  assert (Search arm64 1 store_nan [F32.zero] 1 = ([mkResult "b" S754_nan], None))
    as Hs by (by vm_compute).
  split_and!; [unfold store_nan; repeat constructor|done|done|done|].
  rewrite Hs. cbn [fst].
  intros (sel & rest & Hperm & Hout & _ & Hle & _).
  destruct sel as [|y [|y' sel]]; [done| |done].
  injection Hout as Hid Hd.
  assert (("a", [F32.zero]) ∈ rest) as Hin.
  { assert (("a", [F32.zero]) ∈ [y] ++ rest) as [Hy|Hr]%elem_of_app.
    { rewrite <- Hperm, Hc. right. by left. }
    - apply list_elem_of_singleton in Hy. subst y. done.
    - done. }
  specialize (Hle y _ (ltac:(by left)) Hin).
  rewrite <- Hd in Hle. done.
Qed.

(** After [insert(v); insert(v)] a search at [v]'s own payload can
    return another vector at distance 0 in its place. *)
Definition store_tie : VectorStore :=
  (Insert (NewVectorStore 1) (mkVector "b" [F32.zero])).1.

Lemma upsert_search_tie :
  let v := mkVector "a" [F32.zero] in
  let s2 := (Insert (Insert store_tie v).1 v).1 in
  reachable 1 store_tie /\
  ID v ≠ "" /\ Z.of_nat (length (Data v)) = dimension store_tie /\
  Count s2 = Count (Insert store_tie v).1 /\
  Search arm64 1 s2 (Data v) 1 = ([mkResult "b" F32.zero], None) /\
  ¬ (exists r, r ∈ (Search arm64 1 s2 (Data v) 1).1 /\ rID r = ID v).
Proof.
  intros v s2.
  assert (Search arm64 1 s2 (Data v) 1 = ([mkResult "b" F32.zero], None))
    as Hs by (by vm_compute).
  split_and!; [unfold store_tie; repeat constructor|done|done|by vm_compute|done|].
  rewrite Hs. intros (r & Hr & Hid).
  apply list_elem_of_singleton in Hr. by subst r.
Qed.

(** The cosine distance of a vector to itself can come out negative:
    [sqrt32(2)^2] rounds below 2, so the similarity rounds above 1. *)
Definition store_11 : VectorStore :=
  (Insert (NewVectorStore 2) (mkVector "a" [F32.of_Z 1; F32.of_Z 1])).1.

Lemma cosine_distance_negative :
  reachable 2 store_11 /\
  CosineSimilarity arm64 [F32.of_Z 1; F32.of_Z 1] [F32.of_Z 1; F32.of_Z 1]
    = F32.of_scaled (2 ^ 23 + 1) (-23) /\
  SearchCosine arm64 1 store_11 [F32.of_Z 1; F32.of_Z 1] 1
    = ([mkResult "a" (F32.of_scaled (-1) (-23))], None) /\
  F32.leb F32.zero (F32.of_scaled (-1) (-23)) = false.
Proof.
  split_and!; [unfold store_11; repeat constructor|by vm_compute..].
Qed.


(* ===================================================================== *)
(** * Rounding: facts about the binary32 and binary64 operations *)
(* ===================================================================== *)

Section RoundingFacts.
Local Open Scope Z_scope.

(** ** Digits *)

Lemma digits2_pos_size p : digits2_pos p = Pos.size p.
Proof. induction p; simpl; congruence. Qed.

Lemma Zdigits2_log2 m : 0 < m -> Zdigits2 m = Z.log2 m + 1.
Proof.
  destruct m as [|p|p]; try lia. intros _. simpl.
  destruct p; simpl; rewrite ?digits2_pos_size; lia.
Qed.

Lemma Zdigits2_bounds m : 0 < m -> 2 ^ (Zdigits2 m - 1) <= m < 2 ^ Zdigits2 m.
Proof.
  intros Hm. rewrite Zdigits2_log2 by done.
  replace (Z.log2 m + 1 - 1) with (Z.log2 m) by lia.
  pose proof (Z.log2_spec m Hm) as Hs. rewrite <- Z.add_1_r in Hs. exact Hs.
Qed.

Lemma Zdigits2_unique m d : 0 < m -> 2 ^ (d - 1) <= m < 2 ^ d -> Zdigits2 m = d.
Proof.
  intros Hm Hb. rewrite Zdigits2_log2 by done.
  assert (0 < d).
  { destruct (Z.le_gt_cases d 0) as [Hd|]; [|done].
    assert (2 ^ d <= 2 ^ 0) by (apply Z.pow_le_mono_r; lia). simpl in *. lia. }
  rewrite (Z.log2_unique m (d - 1)); [lia|lia|].
  replace (Z.succ (d - 1)) with d by lia. exact Hb.
Qed.

Lemma Zdigits2_nonneg m : 0 <= Zdigits2 m.
Proof. destruct m; simpl; lia. Qed.

Lemma Zdigits2_pos m : 0 < m -> 0 < Zdigits2 m.
Proof. destruct m; simpl; lia. Qed.

Lemma Zdigits2_mono a b : 0 <= a <= b -> Zdigits2 a <= Zdigits2 b.
Proof.
  intros [Ha Hab]. destruct (Z.eq_dec a 0) as [->|Hne]; [apply Zdigits2_nonneg|].
  rewrite !Zdigits2_log2 by lia.
  pose proof (Z.log2_le_mono a b Hab). lia.
Qed.

(** ** One step of [shr], on the position code

    The record [(m, r, s)] locates a value between [m] and [m + 1]:
    [4 m + 2 r + s] is its position in quarter steps, order included. *)

Definition b2z (b : bool) : Z := if b then 1 else 0.

Definition code (mrs : shr_record) : Z :=
  4 * shr_m mrs + 2 * b2z (shr_r mrs) + b2z (shr_s mrs).

Definition code_step (c : Z) : Z := 2 * (c / 4) + (if c mod 4 =? 0 then 0 else 1).

Lemma shr_1_nonneg mrs : 0 <= shr_m mrs -> 0 <= shr_m (shr_1 mrs).
Proof. destruct mrs as [[|[p|p|]|p] r s]; simpl; lia. Qed.

Lemma shr_1_m mrs : 0 <= shr_m mrs -> shr_m (shr_1 mrs) = shr_m mrs / 2.
Proof.
  destruct mrs as [m r s]. cbn [shr_m]. intros Hm.
  destruct m as [|[p|p|]|p]; cbn [shr_1 shr_m]; try lia; try reflexivity.
  - rewrite Pos2Z.inj_xI. apply (Z.div_unique _ 2 _ 1); lia.
  - rewrite Pos2Z.inj_xO. apply (Z.div_unique _ 2 _ 0); lia.
Qed.

Lemma shr_1_code mrs : 0 <= shr_m mrs -> code (shr_1 mrs) = code_step (code mrs).
Proof.
  unfold code, code_step.
  destruct mrs as [m r s]. cbn [shr_m shr_r shr_s]. intros Hm.
  set (k := 2 * b2z r + b2z s).
  assert (0 <= k < 4 /\ (k = 0 <-> r || s = false)) as [Hk Hk0].
  { subst k. destruct r, s; unfold b2z; cbn [orb]; (split; [lia|]); split; intros; first [lia|congruence]. }
  replace (4 * m + 2 * b2z r + b2z s) with (4 * m + k) by lia.
  assert ((4 * m + k) / 4 = m) as Hdiv.
  { symmetry. apply (Z.div_unique _ 4 _ k); lia. }
  assert ((4 * m + k) mod 4 = k) as Hmod.
  { symmetry. apply (Z.mod_unique _ 4 m k); lia. }
  rewrite Hdiv, Hmod.
  assert (b2z (r || s) = if k =? 0 then 0 else 1) as Hrs.
  { destruct (Z.eqb_spec k 0) as [Hz|Hz].
    - apply Hk0 in Hz. by rewrite Hz.
    - destruct (r || s) eqn:E; [done|]. exfalso. apply Hz. by apply Hk0. }
  clearbody k. clear Hk0 Hdiv Hmod.
  destruct m as [|[p|p|]|p]; cbn [shr_1 shr_m shr_r shr_s]; try lia;
    rewrite Hrs; rewrite ?(Pos2Z.inj_xI p), ?(Pos2Z.inj_xO p);
    unfold b2z; destruct (k =? 0); lia.
Qed.

Lemma code_step_mono c c' : c <= c' -> code_step c <= code_step c'.
Proof.
  intros Hc. unfold code_step.
  pose proof (Z.div_mod c 4 ltac:(lia)). pose proof (Z.mod_pos_bound c 4 ltac:(lia)).
  pose proof (Z.div_mod c' 4 ltac:(lia)). pose proof (Z.mod_pos_bound c' 4 ltac:(lia)).
  destruct (Z.eqb_spec (c mod 4) 0); destruct (Z.eqb_spec (c' mod 4) 0); lia.
Qed.

Lemma code_step_div c : 0 <= c -> code_step c / 4 = (c / 4) / 2.
Proof.
  intros Hc. unfold code_step.
  pose proof (Z.div_mod c 4 ltac:(lia)). pose proof (Z.mod_pos_bound c 4 ltac:(lia)).
  pose proof (Z.div_mod (c / 4) 2 ltac:(lia)).
  pose proof (Z.mod_pos_bound (c / 4) 2 ltac:(lia)).
  destruct (Z.eqb_spec (c mod 4) 0).
  - symmetry. apply (Z.div_unique _ 4 _ (2 * ((c / 4) mod 2))); lia.
  - symmetry. apply (Z.div_unique _ 4 _ (2 * ((c / 4) mod 2) + 1)); lia.
Qed.

Lemma code_m mrs : code mrs / 4 = shr_m mrs.
Proof.
  unfold code. symmetry.
  apply (Z.div_unique _ 4 _ (2 * b2z (shr_r mrs) + b2z (shr_s mrs))).
  - destruct (shr_r mrs), (shr_s mrs); simpl; lia.
  - lia.
Qed.


(** ** Several steps *)

Lemma iter_pos_nat {A} (f : A -> A) p x :
  SpecFloat.iter_pos f p x = Nat.iter (Pos.to_nat p) f x.
Proof.
  revert x. induction p as [p IH|p IH|]; intros x; cbn [SpecFloat.iter_pos].
  - rewrite !IH, Pos2Nat.inj_xI.
    replace (S (2 * Pos.to_nat p))%nat with (Pos.to_nat p + S (Pos.to_nat p))%nat by lia.
    rewrite Nat.iter_add. f_equal. by rewrite Nat.iter_succ_r.
  - rewrite !IH, Pos2Nat.inj_xO.
    replace (2 * Pos.to_nat p)%nat with (Pos.to_nat p + Pos.to_nat p)%nat by lia.
    by rewrite Nat.iter_add.
  - done.
Qed.

Fixpoint shift_code (n : nat) (c : Z) : Z :=
  match n with
  | O => c
  | S n' => code_step (shift_code n' c)
  end.

Lemma code_step_nonneg c : 0 <= c -> 0 <= code_step c.
Proof.
  intros Hc. unfold code_step.
  pose proof (Z.div_pos c 4 Hc ltac:(lia)).
  destruct (c mod 4 =? 0); lia.
Qed.

Lemma shift_code_nonneg n c : 0 <= c -> 0 <= shift_code n c.
Proof.
  intros Hc. induction n as [|n IH]; [done|].
  cbn [shift_code]. by apply code_step_nonneg.
Qed.

Lemma shift_code_mono n c c' : c <= c' -> shift_code n c <= shift_code n c'.
Proof.
  intros Hc. induction n as [|n IH]; [done|].
  cbn [shift_code]. by apply code_step_mono.
Qed.

Lemma shift_code_div n c : 0 <= c -> shift_code n c / 4 = (c / 4) / 2 ^ Z.of_nat n.
Proof.
  intros Hc. induction n as [|n IH].
  - simpl. by rewrite Z.div_1_r.
  - cbn [shift_code].
    rewrite code_step_div by (by apply shift_code_nonneg).
    rewrite IH. rewrite Nat2Z.inj_succ, Z.pow_succ_r by lia.
    rewrite Z.div_div by lia. f_equal. lia.
Qed.

Lemma code_nonneg mrs : 0 <= shr_m mrs -> 0 <= code mrs.
Proof. unfold code. destruct (shr_r mrs), (shr_s mrs); simpl; lia. Qed.

Lemma shr_iter_code n mrs :
  0 <= shr_m mrs ->
  0 <= shr_m (Nat.iter n shr_1 mrs) /\
  code (Nat.iter n shr_1 mrs) = shift_code n (code mrs).
Proof.
  intros Hm. induction n as [|n [IH1 IH2]]; [done|].
  rewrite Nat.iter_succ. cbn [shift_code]. split.
  - by apply shr_1_nonneg.
  - by rewrite shr_1_code, IH2.
Qed.

(** ** Round to nearest even, on the position code *)

Definition loc_code (l : location) : Z :=
  match l with
  | loc_Exact => 0
  | loc_Inexact Lt => 1
  | loc_Inexact Eq => 2
  | loc_Inexact Gt => 3
  end.

Definition rne_code (c : Z) : Z :=
  let q := c / 4 in
  let k := c mod 4 in
  if k <? 2 then q
  else if k =? 2 then (if Z.even q then q else q + 1)
  else q + 1.

Lemma code_of_loc m l : code (shr_record_of_loc m l) = 4 * m + loc_code l.
Proof. destruct l as [|[]]; unfold code; simpl; lia. Qed.

Lemma shr_m_of_loc m l : shr_m (shr_record_of_loc m l) = m.
Proof. by destruct l as [|[]]. Qed.

Lemma rne_code_spec mrs :
  round_nearest_even (shr_m mrs) (loc_of_shr_record mrs) = rne_code (code mrs).
Proof.
  unfold rne_code. rewrite code_m.
  destruct mrs as [m r s]. unfold code. cbn [shr_m shr_r shr_s].
  set (k := 2 * b2z r + b2z s).
  assert ((4 * m + 2 * b2z r + b2z s) mod 4 = k) as ->.
  { symmetry. apply (Z.mod_unique _ 4 m k); subst k; destruct r, s; simpl; lia. }
  subst k. destruct r, s; reflexivity.
Qed.

Lemma rne_code_mono c c' : c <= c' -> rne_code c <= rne_code c'.
Proof.
  intros Hc. unfold rne_code.
  pose proof (Z.div_mod c 4 ltac:(lia)). pose proof (Z.mod_pos_bound c 4 ltac:(lia)).
  pose proof (Z.div_mod c' 4 ltac:(lia)). pose proof (Z.mod_pos_bound c' 4 ltac:(lia)).
  set (q := c / 4) in *. set (q' := c' / 4) in *.
  set (k := c mod 4) in *. set (k' := c' mod 4) in *.
  assert (q <= q') by lia.
  destruct (Z.eq_dec q q') as [<-|Hne].
  - assert (k <= k') by lia.
    destruct (Z.ltb_spec k 2); destruct (Z.ltb_spec k' 2);
      destruct (Z.eqb_spec k 2); destruct (Z.eqb_spec k' 2);
      destruct (Z.even q); lia.
  - assert (q + 1 <= q') by lia.
    destruct (Z.ltb_spec k 2); destruct (Z.ltb_spec k' 2);
      destruct (Z.eqb_spec k 2); destruct (Z.eqb_spec k' 2);
      destruct (Z.even q); destruct (Z.even q'); lia.
Qed.

Lemma rne_code_bounds c : c / 4 <= rne_code c <= c / 4 + 1.
Proof.
  unfold rne_code.
  destruct (c mod 4 <? 2); [lia|].
  destruct (c mod 4 =? 2); [destruct (Z.even (c / 4))|]; lia.
Qed.

Lemma rne_code_exact m : rne_code (4 * m) = m.
Proof.
  unfold rne_code.
  assert (4 * m / 4 = m) as -> by (symmetry; apply (Z.div_unique _ 4 _ 0); lia).
  assert ((4 * m) mod 4 = 0) as -> by (symmetry; apply (Z.mod_unique _ 4 m 0); lia).
  done.
Qed.


(** ** [binary_round_aux] in closed form *)

Section Format.
Variables prec emax : Z.
Hypothesis prec_pos : 0 < prec.
Hypothesis emin_neg : 3 - emax - prec <= 0.

Local Abbreviation fexp := (fexp prec emax).
Local Abbreviation emin := (emin prec emax).

Lemma fexp_spec z : fexp z = Z.max (z - prec) (3 - emax - prec).
Proof. reflexivity. Qed.

Lemma fexp_mono z z' : z <= z' -> fexp z <= fexp z'.
Proof. rewrite !fexp_spec. lia. Qed.

Lemma shr_spec mrs e n :
  0 <= shr_m mrs ->
  0 <= shr_m (shr mrs e n).1 /\
  code (shr mrs e n).1 = shift_code (Z.to_nat n) (code mrs) /\
  (shr mrs e n).2 = e + Z.max n 0.
Proof.
  intros Hm. destruct n as [|p|p]; cbn [shr fst snd].
  - split_and!; [done|done|lia].
  - rewrite iter_pos_nat. destruct (shr_iter_code (Pos.to_nat p) mrs Hm) as [H1 H2].
    split_and!; [done|by rewrite H2|lia].
  - split_and!; [done|done|lia].
Qed.

(** First shift and rounding, then the second shift (a carry). *)
Definition round_m1 (m e : Z) (l : location) : Z :=
  rne_code (shift_code (Z.to_nat (fexp (Zdigits2 m + e) - e)) (4 * m + loc_code l)).

Definition round_e1 (m e : Z) : Z := e + Z.max (fexp (Zdigits2 m + e) - e) 0.

Definition round_m2 (m1 e1 : Z) : Z := m1 / 2 ^ Z.max (fexp (Zdigits2 m1 + e1) - e1) 0.

Definition round_result (s : bool) (m2 e2 : Z) : spec_float :=
  match m2 with
  | Z0 => S754_zero s
  | Zpos p => if e2 <=? emax - prec then S754_finite s p e2 else S754_infinity s
  | Zneg _ => S754_nan
  end.

Lemma binary_round_aux_spec s m e l :
  0 <= m ->
  binary_round_aux prec emax s m e l =
    let m1 := round_m1 m e l in
    let e1 := round_e1 m e in
    round_result s (round_m2 m1 e1) (round_e1 m1 e1).
Proof.
  intros Hm. unfold binary_round_aux, shr_fexp.
  pose proof (shr_spec (shr_record_of_loc m l) e (fexp (Zdigits2 m + e) - e)) as Hs1.
  rewrite shr_m_of_loc in Hs1. specialize (Hs1 Hm).
  destruct (shr (shr_record_of_loc m l) e (fexp (Zdigits2 m + e) - e)) as [mrs' e'].
  cbn [fst snd] in Hs1. destruct Hs1 as (Hm' & Hc' & He').
  rewrite rne_code_spec, Hc', code_of_loc. fold (round_m1 m e l).
  subst e'. fold (round_e1 m e).
  set (m1 := round_m1 m e l). set (e1 := round_e1 m e).
  assert (0 <= m1) as Hm1.
  { subst m1. unfold round_m1.
    pose proof (rne_code_bounds (shift_code (Z.to_nat (fexp (Zdigits2 m + e) - e))
                                   (4 * m + loc_code l))) as [Hb _].
    etrans; [|exact Hb]. apply Z.div_pos; [|lia].
    apply shift_code_nonneg. destruct l as [|[]]; simpl; lia. }
  pose proof (shr_spec (shr_record_of_loc m1 loc_Exact) e1 (fexp (Zdigits2 m1 + e1) - e1)) as Hs2.
  rewrite shr_m_of_loc in Hs2. specialize (Hs2 Hm1).
  destruct (shr (shr_record_of_loc m1 loc_Exact) e1 (fexp (Zdigits2 m1 + e1) - e1))
    as [mrs'' e''].
  cbn [fst snd] in Hs2. destruct Hs2 as (Hm'' & Hc'' & He'').
  cbv zeta. subst e''. fold (round_e1 m1 e1).
  assert (shr_m mrs'' = round_m2 m1 e1) as ->.
  { rewrite <- code_m, Hc'', code_of_loc. simpl loc_code. rewrite Z.add_0_r.
    rewrite shift_code_div by lia.
    replace (4 * m1 / 4) with m1 by (apply (Z.div_unique _ 4 _ 0); lia).
    unfold round_m2. f_equal. f_equal. lia. }
  reflexivity.
Qed.


(** ** Canonical exponents *)

Lemma div_pow2_digits m n :
  0 <= m -> 0 <= n -> Zdigits2 (m / 2 ^ n) = Z.max (Zdigits2 m - n) 0.
Proof.
  intros Hm Hn. destruct (Z.eq_dec m 0) as [->|Hne].
  { rewrite Z.div_0_l by (apply Z.pow_nonzero; lia). simpl. lia. }
  pose proof (Zdigits2_bounds m ltac:(lia)) as [Hlo Hhi].
  pose proof (Zdigits2_pos m ltac:(lia)) as Hd.
  set (d := Zdigits2 m) in *.
  assert (0 < 2 ^ n) as Hpn by (apply Z.pow_pos_nonneg; lia).
  destruct (Z.le_gt_cases d n) as [Hdn|Hdn].
  - assert (2 ^ d <= 2 ^ n) by (apply Z.pow_le_mono_r; lia).
    rewrite Z.div_small by lia. simpl. lia.
  - replace (Z.max (d - n) 0) with (d - n) by lia.
    assert (2 ^ (d - 1) = 2 ^ (d - n - 1) * 2 ^ n) as E1.
    { rewrite <- Z.pow_add_r by lia. f_equal. lia. }
    assert (2 ^ d = 2 ^ (d - n) * 2 ^ n) as E2.
    { rewrite <- Z.pow_add_r by lia. f_equal. lia. }
    assert (0 < 2 ^ (d - n - 1)) by (apply Z.pow_pos_nonneg; lia).
    apply Zdigits2_unique.
    + apply Z.lt_le_trans with (2 ^ (d - n - 1)); [done|].
      apply Z.div_le_lower_bound; lia.
    + split.
      * apply Z.div_le_lower_bound; lia.
      * apply Z.div_lt_upper_bound; lia.
Qed.

(** The exponent [e] is at most the canonical one: rounding shifts right
    or not at all. *)
Definition below_canonical (m e : Z) : Prop := e <= fexp (Zdigits2 m + e).

Definition canonical (m e : Z) : Prop := fexp (Zdigits2 m + e) = e.

Lemma round_e1_below m e : below_canonical m e -> round_e1 m e = fexp (Zdigits2 m + e).
Proof. unfold below_canonical, round_e1. lia. Qed.

Lemma shift_canonical m e :
  0 <= m -> below_canonical m e ->
  let E := fexp (Zdigits2 m + e) in
  let m' := m / 2 ^ (E - e) in
  canonical m' E /\
  (forall m'', m' <= m'' -> below_canonical m'' E) /\
  m' < 2 ^ prec /\
  (3 - emax - prec < E -> 2 ^ (prec - 1) <= m').
Proof.
  intros Hm Hb E m'. unfold below_canonical, canonical in *.
  assert (0 <= E - e) as Hn by (subst E; lia).
  assert (Zdigits2 m' = Z.max (Zdigits2 m - (E - e)) 0) as Hd'
    by (by apply div_pow2_digits).
  pose proof (Zdigits2_nonneg m) as Hd0.
  assert (0 <= m') as Hm' by (apply Z.div_pos; [done|apply Z.pow_pos_nonneg; lia]).
  assert (E = Z.max (Zdigits2 m + e - prec) (3 - emax - prec)) as HE by done.
  assert (fexp (Zdigits2 m' + E) = E) as Hcan.
  { rewrite fexp_spec, Hd'. lia. }
  assert (Zdigits2 m' <= prec) as Hdp by lia.
  split_and!.
  - done.
  - intros m'' Hle. rewrite fexp_spec.
    pose proof (Zdigits2_mono m' m'' ltac:(lia)). rewrite fexp_spec in Hcan. lia.
  - destruct (Z.eq_dec m' 0) as [->|Hne]; [apply Z.pow_pos_nonneg; lia|].
    pose proof (Zdigits2_bounds m' ltac:(lia)) as [_ Hhi].
    apply Z.lt_le_trans with (2 ^ Zdigits2 m'); [done|].
    apply Z.pow_le_mono_r; lia.
  - intros HEmin.
    assert (Zdigits2 m' = prec) as Hdeq by lia.
    destruct (Z.eq_dec m' 0) as [Hz|Hne].
    { rewrite Hz in Hdeq. simpl in Hdeq. lia. }
    pose proof (Zdigits2_bounds m' ltac:(lia)) as [Hlo _].
    by rewrite Hdeq in Hlo.
Qed.

Lemma round_m1_bounds m e l :
  0 <= m ->
  let m' := m / 2 ^ Z.max (fexp (Zdigits2 m + e) - e) 0 in
  m' <= round_m1 m e l <= m' + 1.
Proof.
  intros Hm m'. unfold round_m1.
  set (n := Z.to_nat (fexp (Zdigits2 m + e) - e)).
  pose proof (rne_code_bounds (shift_code n (4 * m + loc_code l))) as Hb.
  rewrite shift_code_div in Hb by (destruct l as [|[]]; simpl; lia).
  assert ((4 * m + loc_code l) / 4 = m) as Hdiv.
  { symmetry. apply (Z.div_unique _ 4 _ (loc_code l)); destruct l as [|[]]; simpl; lia. }
  rewrite Hdiv in Hb.
  assert (Z.of_nat n = Z.max (fexp (Zdigits2 m + e) - e) 0) as Hn by (subst n; lia).
  rewrite Hn in Hb. done.
Qed.

(** The result of [binary_round_aux] on an input that is not above its
    canonical exponent: zero, or canonical, or an overflow. *)
Lemma round_canonical m e l :
  0 <= m -> below_canonical m e ->
  let m1 := round_m1 m e l in
  let e1 := round_e1 m e in
  let m2 := round_m2 m1 e1 in
  let e2 := round_e1 m1 e1 in
  0 <= m2 /\ canonical m2 e2 /\ m2 < 2 ^ prec /\
  fexp (Zdigits2 m + e) <= e2 <= fexp (Zdigits2 m + e) + 1 /\
  (e2 = fexp (Zdigits2 m + e) + 1 -> m2 = 2 ^ (prec - 1)) /\
  (3 - emax - prec < e2 -> 2 ^ (prec - 1) <= m2).
Proof.
  intros Hm Hb m1 e1 m2 e2.
  pose proof (round_e1_below m e Hb) as He1. fold e1 in He1.
  destruct (shift_canonical m e Hm Hb) as (Hc & Hq & Hlt & Hnorm).
  pose proof (round_m1_bounds m e l Hm) as Hb1. cbv zeta in Hb1. fold m1 in Hb1.
  replace (Z.max (fexp (Zdigits2 m + e) - e) 0) with (fexp (Zdigits2 m + e) - e) in Hb1
    by (unfold below_canonical in Hb; lia).
  rewrite <- He1 in *.
  set (m' := m / 2 ^ (e1 - e)) in *.
  assert (0 <= m') as Hm'.
  { apply Z.div_pos; [done|]. apply Z.pow_pos_nonneg; [lia|].
    unfold below_canonical in Hb. lia. }
  assert (0 <= m1) as Hm1 by lia.
  assert (below_canonical m1 e1) as Hb2 by (apply Hq; lia).
  pose proof (round_e1_below m1 e1 Hb2) as He2. fold e2 in He2.
  destruct (shift_canonical m1 e1 Hm1 Hb2) as (Hc2 & _ & Hlt2 & Hnorm2).
  rewrite <- He2 in *.
  assert (round_m2 m1 e1 = m1 / 2 ^ (e2 - e1)) as Hm2.
  { unfold round_m2. f_equal. f_equal. unfold below_canonical in Hb2. lia. }
  fold m2 in Hm2. rewrite <- Hm2 in *.
  assert (0 <= m2) as Hm2pos.
  { rewrite Hm2. apply Z.div_pos; [done|]. apply Z.pow_pos_nonneg; [lia|].
    unfold below_canonical in Hb2. lia. }
  (* the second shift is by zero or one digit *)
  assert (Zdigits2 m1 <= Zdigits2 m' + 1) as Hd1.
  { destruct (Z.eq_dec m' 0) as [Hz|Hnz].
    - rewrite Hz in *. simpl.
      assert (m1 = 0 \/ m1 = 1) as [->| ->] by lia; simpl; lia.
    - pose proof (Zdigits2_bounds m' ltac:(lia)) as [Hlo Hhi].
      pose proof (Zdigits2_pos m' ltac:(lia)).
      destruct (Z.eq_dec m1 (2 ^ Zdigits2 m')) as [->|Hne].
      + rewrite (Zdigits2_unique (2 ^ Zdigits2 m') (Zdigits2 m' + 1)); [lia| |].
        * apply Z.pow_pos_nonneg; lia.
        * replace (Zdigits2 m' + 1 - 1) with (Zdigits2 m') by lia.
          split; [lia|]. apply Z.pow_lt_mono_r; lia.
      + rewrite (Zdigits2_unique m1 (Zdigits2 m')); [lia|lia|]. lia. }
  unfold canonical in Hc, Hc2.
  assert (e1 <= e2 <= e1 + 1) as He12.
  { rewrite He2, fexp_spec. rewrite fexp_spec in Hc.
    pose proof (Zdigits2_mono m' m1 ltac:(lia)). lia. }
  split_and!; try done; try lia.
  intros Hcarry.
  - assert (e2 - e1 = 1) as Hs by lia.
    (* a carry: [m1] has one digit more than [m'], so it is a power of two *)
    assert (Zdigits2 m1 = Zdigits2 m' + 1) as Hdd.
    { pose proof (Zdigits2_mono m' m1 ltac:(lia)).
      destruct (Z.eq_dec (Zdigits2 m1) (Zdigits2 m')) as [Heq|]; [|lia].
      rewrite He2, fexp_spec, Heq in Hs. rewrite fexp_spec in Hc. lia. }
    assert (Zdigits2 m' = prec) as Hdp.
    { rewrite He2, fexp_spec, Hdd in Hs. rewrite fexp_spec in Hc.
      pose proof (Zdigits2_nonneg m'). lia. }
    assert (m1 = 2 ^ prec) as Hm1eq.
    { destruct (Z.eq_dec m' 0) as [Hz|Hnz]; [rewrite Hz in Hdp; simpl in Hdp; lia|].
      pose proof (Zdigits2_bounds m' ltac:(lia)) as [_ Hhi]. rewrite Hdp in Hhi.
      destruct (Z.eq_dec m1 (2 ^ prec)) as [|Hne]; [done|].
      assert (m1 < 2 ^ prec) by lia.
      rewrite (Zdigits2_unique m1 prec) in Hdd; [lia|lia|].
      pose proof (Zdigits2_bounds m' ltac:(lia)) as [Hlo _]. rewrite Hdp in Hlo. lia. }
    rewrite Hm2, Hs, Hm1eq. rewrite Z.pow_1_r.
    replace prec with (prec - 1 + 1) at 1 by lia.
    rewrite Z.pow_add_r by lia. rewrite Z.pow_1_r. apply Z.div_mul. lia.
Qed.

Lemma round_result_valid s m2 e2 :
  0 <= m2 -> canonical m2 e2 -> valid_binary prec emax (round_result s m2 e2) = true.
Proof.
  intros Hm Hc. unfold round_result. destruct m2 as [|p|p]; [done| |lia].
  destruct (Z.leb_spec e2 (emax - prec)); [|done].
  cbn [valid_binary]. unfold bounded, canonical_mantissa.
  unfold canonical in Hc. cbn [Zdigits2] in Hc.
  apply andb_true_intro. split; [by apply Z.eqb_eq|by apply Z.leb_le].
Qed.

Lemma binary_round_aux_valid s m e l :
  0 <= m -> below_canonical m e ->
  valid_binary prec emax (binary_round_aux prec emax s m e l) = true.
Proof.
  intros Hm Hb. rewrite binary_round_aux_spec by done. cbv zeta.
  destruct (round_canonical m e l Hm Hb) as (H0 & Hc & _).
  by apply round_result_valid.
Qed.


(** ** The operations return valid numbers *)

Lemma iter_xO_pow2 (m d : positive) :
  Z.pos (Pos.iter xO m d) = Z.pos m * 2 ^ Z.pos d.
Proof.
  rewrite (Pos.iter_swap_gen _ _ Z.pos xO (Z.mul 2)) by done.
  change (Pos.iter (Z.mul 2) (Z.pos m) d) with (Z.shiftl (Z.pos m) (Z.pos d)).
  by rewrite Z.shiftl_mul_pow2.
Qed.

Lemma shl_align_spec mx ex ex' :
  Z.pos (shl_align mx ex ex').1 = Z.pos mx * 2 ^ (ex - Z.min ex ex') /\
  (shl_align mx ex ex').2 = Z.min ex ex'.
Proof.
  unfold shl_align. destruct (ex' - ex) as [|d|d] eqn:E; cbn [fst snd].
  - replace (Z.min ex ex') with ex by lia. rewrite Z.sub_diag. simpl. lia.
  - replace (Z.min ex ex') with ex by lia. rewrite Z.sub_diag. simpl. lia.
  - replace (Z.min ex ex') with ex' by lia.
    replace (ex - ex') with (Z.pos d) by lia. split; [apply iter_xO_pow2|done].
Qed.

Lemma Zdigits2_mul_pow2 m k :
  0 < m -> 0 <= k -> Zdigits2 (m * 2 ^ k) = Zdigits2 m + k.
Proof.
  intros Hm Hk. pose proof (Zdigits2_bounds m Hm) as [Hlo Hhi].
  pose proof (Zdigits2_pos m Hm) as Hd.
  assert (0 < 2 ^ k) by (apply Z.pow_pos_nonneg; lia).
  apply Zdigits2_unique; [nia|].
  replace (Zdigits2 m + k - 1) with (Zdigits2 m - 1 + k) by lia.
  rewrite !Z.pow_add_r by lia. nia.
Qed.

Lemma Zdigits2_pow2 k : 0 <= k -> Zdigits2 (2 ^ k) = k + 1.
Proof.
  intros Hk. apply Zdigits2_unique.
  - apply Z.pow_pos_nonneg; lia.
  - replace (k + 1 - 1) with k by lia. split; [lia|]. apply Z.pow_lt_mono_r; lia.
Qed.

Lemma Zdigits2_mul_lower a b :
  0 < a -> 0 < b -> Zdigits2 a + Zdigits2 b - 1 <= Zdigits2 (a * b).
Proof.
  intros Ha Hb.
  pose proof (Zdigits2_bounds a Ha) as [Hla _]. pose proof (Zdigits2_pos a Ha).
  pose proof (Zdigits2_bounds b Hb) as [Hlb _]. pose proof (Zdigits2_pos b Hb).
  assert (2 ^ (Zdigits2 a - 1 + (Zdigits2 b - 1)) <= a * b) as Hle.
  { rewrite Z.pow_add_r by lia.
    assert (0 < 2 ^ (Zdigits2 a - 1)) by (apply Z.pow_pos_nonneg; lia).
    assert (0 < 2 ^ (Zdigits2 b - 1)) by (apply Z.pow_pos_nonneg; lia). nia. }
  assert (0 <= 2 ^ (Zdigits2 a - 1 + (Zdigits2 b - 1))) as Hp0
    by (apply Z.lt_le_incl, Z.pow_pos_nonneg; lia).
  pose proof (Zdigits2_mono _ _ (conj Hp0 Hle)) as Hm.
  rewrite Zdigits2_pow2 in Hm by lia. lia.
Qed.

Lemma shl_align_fexp_below mx ex :
  let r := shl_align mx ex (fexp (Z.pos (digits2_pos mx) + ex)) in
  below_canonical (Z.pos r.1) r.2 /\
  Z.pos r.1 = Z.pos mx * 2 ^ (ex - r.2) /\ r.2 <= ex /\
  Zdigits2 (Z.pos r.1) + r.2 = Zdigits2 (Z.pos mx) + ex.
Proof.
  intros r. destruct (shl_align_spec mx ex (fexp (Z.pos (digits2_pos mx) + ex))) as [Hm He].
  fold r in Hm, He. rewrite <- He in Hm.
  assert (Zdigits2 (Z.pos r.1) + r.2 = Zdigits2 (Z.pos mx) + ex) as Hd.
  { rewrite Hm, Zdigits2_mul_pow2 by lia. lia. }
  split_and!.
  - unfold below_canonical. rewrite Hd. cbn [Zdigits2]. lia.
  - done.
  - rewrite He. lia.
  - done.
Qed.

Lemma binary_round_valid s mx ex :
  valid_binary prec emax (binary_round prec emax s mx ex) = true.
Proof.
  unfold binary_round.
  pose proof (shl_align_fexp_below mx ex) as (Hb & _).
  destruct (shl_align mx ex _) as [mz ez]. cbn [fst snd] in Hb.
  by apply binary_round_aux_valid.
Qed.

Lemma binary_normalize_valid m e sz :
  valid_binary prec emax (binary_normalize prec emax m e sz) = true.
Proof. destruct m; [done|apply binary_round_valid..]. Qed.

Lemma valid_finite s m e :
  valid_binary prec emax (S754_finite s m e) = true <->
  canonical (Z.pos m) e /\ e <= emax - prec.
Proof.
  cbn [valid_binary]. unfold bounded, canonical_mantissa, canonical. cbn [Zdigits2].
  rewrite andb_true_iff, Z.eqb_eq, Z.leb_le. done.
Qed.

Lemma canonical_digits m e :
  0 < m -> canonical m e ->
  3 - emax - prec <= e /\ Zdigits2 m <= prec /\
  (3 - emax - prec < e -> Zdigits2 m = prec).
Proof.
  intros Hm. unfold canonical. rewrite fexp_spec.
  pose proof (Zdigits2_pos m Hm). lia.
Qed.

Lemma mul_below_canonical mx ex my ey :
  canonical (Z.pos mx) ex -> canonical (Z.pos my) ey ->
  below_canonical (Z.pos (mx * my)) (ex + ey).
Proof.
  intros Hx Hy.
  apply canonical_digits in Hx as (Hx1 & Hx2 & Hx3); [|lia].
  apply canonical_digits in Hy as (Hy1 & Hy2 & Hy3); [|lia].
  pose proof (Zdigits2_mul_lower (Z.pos mx) (Z.pos my) ltac:(lia) ltac:(lia)) as Hd.
  pose proof (Zdigits2_pos (Z.pos mx) ltac:(lia)).
  pose proof (Zdigits2_pos (Z.pos my) ltac:(lia)).
  unfold below_canonical. rewrite fexp_spec.
  change (Z.pos (mx * my)) with (Z.pos mx * Z.pos my). lia.
Qed.

Lemma SFmul_valid x y :
  valid_binary prec emax x = true -> valid_binary prec emax y = true ->
  valid_binary prec emax (SFmul prec emax x y) = true.
Proof.
  destruct x as [sx|sx| |sx mx ex], y as [sy|sy| |sy my ey]; try done.
  rewrite !valid_finite. intros [Hx _] [Hy _]. cbn [SFmul].
  apply binary_round_aux_valid; [lia|]. by apply mul_below_canonical.
Qed.

Lemma SFadd_valid x y :
  valid_binary prec emax x = true -> valid_binary prec emax y = true ->
  valid_binary prec emax (SFadd prec emax x y) = true.
Proof.
  destruct x as [[]|[]| |sx mx ex], y as [[]|[]| |sy my ey]; try done.
  intros _ _. apply binary_normalize_valid.
Qed.

Lemma SFsub_valid x y :
  valid_binary prec emax x = true -> valid_binary prec emax y = true ->
  valid_binary prec emax (SFsub prec emax x y) = true.
Proof.
  destruct x as [[]|[]| |sx mx ex], y as [[]|[]| |sy my ey]; try done.
  intros _ _. apply binary_normalize_valid.
Qed.

(** ** Sign of a rounded result *)

Definition has_sign (s : bool) (x : spec_float) : Prop :=
  match x with
  | S754_nan => False
  | S754_zero s' | S754_infinity s' | S754_finite s' _ _ => s' = s
  end.

Lemma round_m1_nonneg m e l : 0 <= m -> 0 <= round_m1 m e l.
Proof.
  intros Hm. pose proof (round_m1_bounds m e l Hm) as Hb. cbv zeta in Hb.
  assert (0 <= m / 2 ^ Z.max (fexp (Zdigits2 m + e) - e) 0).
  { apply Z.div_pos; [done|]. apply Z.pow_pos_nonneg; lia. }
  lia.
Qed.

Lemma round_m2_nonneg m1 e1 : 0 <= m1 -> 0 <= round_m2 m1 e1.
Proof.
  intros Hm. unfold round_m2. apply Z.div_pos; [done|]. apply Z.pow_pos_nonneg; lia.
Qed.

Lemma round_result_sign s m2 e2 : 0 <= m2 -> has_sign s (round_result s m2 e2).
Proof.
  intros Hm. unfold round_result. destruct m2 as [|p|p]; [done| |lia].
  by destruct (e2 <=? emax - prec).
Qed.

Lemma binary_round_aux_sign s m e l :
  0 <= m -> has_sign s (binary_round_aux prec emax s m e l).
Proof.
  intros Hm. rewrite binary_round_aux_spec by done. cbv zeta.
  apply round_result_sign, round_m2_nonneg. by apply round_m1_nonneg.
Qed.

Lemma binary_round_sign s mx ex : has_sign s (binary_round prec emax s mx ex).
Proof.
  unfold binary_round. destruct (shl_align mx ex _) as [mz ez].
  by apply binary_round_aux_sign.
Qed.

(** ** Rounding is monotone *)

Lemma round_result_le m2 e2 m2' e2' :
  0 <= m2 -> 0 <= m2' ->
  m2 = 0 \/ (0 < m2' /\ (e2 < e2' \/ (e2 = e2' /\ m2 <= m2'))) ->
  SFleb (round_result false m2 e2) (round_result false m2' e2') = true.
Proof.
  intros Hm Hm' Hle. apply SFleb_key. unfold round_result.
  destruct m2 as [|p|p], m2' as [|p'|p']; try lia;
    repeat match goal with |- context [?a <=? ?b] => destruct (Z.leb_spec a b) end;
    cbn [F32.is_nan fkey]; unfold key_lt; cbn [fst snd];
    (split_and!; [done|done|lia]).
Qed.

Lemma binary_round_aux_mono m e l m' e' l' :
  0 <= m -> 0 <= m' -> below_canonical m e -> below_canonical m' e' ->
  fexp (Zdigits2 m + e) < fexp (Zdigits2 m' + e') \/
  (fexp (Zdigits2 m + e) = fexp (Zdigits2 m' + e') /\
   round_m1 m e l <= round_m1 m' e' l') ->
  SFleb (binary_round_aux prec emax false m e l)
        (binary_round_aux prec emax false m' e' l') = true.
Proof.
  intros Hm Hm' Hb Hb' Hle. rewrite !binary_round_aux_spec by done. cbv zeta.
  destruct (round_canonical m e l Hm Hb) as (H0 & Hc & Hlt & He & Hcarry & Hnorm).
  destruct (round_canonical m' e' l' Hm' Hb') as (H0' & Hc' & Hlt' & He' & Hcarry' & Hnorm').
  assert (3 - emax - prec <= fexp (Zdigits2 m + e)) as Hmin by (rewrite fexp_spec; lia).
  assert (0 < 2 ^ (prec - 1)) as Hpp by (apply Z.pow_pos_nonneg; lia).
  apply round_result_le; [done|done|].
  destruct Hle as [Hle|[Heq Hle]].
  - right. split; [lia|].
    destruct (Z.eq_dec (round_e1 (round_m1 m e l) (round_e1 m e))
                (round_e1 (round_m1 m' e' l') (round_e1 m' e'))) as [E|E]; [|lia].
    right. split; [done|]. rewrite Hcarry by lia. lia.
  - pose proof (round_e1_below m e Hb) as He1.
    pose proof (round_e1_below m' e' Hb') as He1'.
    rewrite <- He1 in *. rewrite <- He1' in *. rewrite <- Heq in *.
    set (e1 := round_e1 m e) in *.
    set (m1 := round_m1 m e l) in *. set (m1' := round_m1 m' e' l') in *.
    assert (0 <= m1) as Hm1 by (by apply round_m1_nonneg).
    pose proof (Zdigits2_mono m1 m1' ltac:(lia)) as Hd.
    assert (round_e1 m1 e1 <= round_e1 m1' e1) as Hee.
    { unfold round_e1. rewrite !fexp_spec. lia. }
    destruct (Z.eq_dec (round_e1 m1 e1) (round_e1 m1' e1)) as [E|E].
    + assert (round_m2 m1 e1 <= round_m2 m1' e1) as Hmm.
      { unfold round_m2. unfold round_e1 in E.
        replace (Z.max (fexp (Zdigits2 m1' + e1) - e1) 0)
          with (Z.max (fexp (Zdigits2 m1 + e1) - e1) 0) by lia.
        apply Z.div_le_mono; [|done]. apply Z.pow_pos_nonneg; lia. }
      destruct (Z.eq_dec (round_m2 m1 e1) 0) as [|Hnz]; [by left|].
      right. split; [lia|]. right. done.
    + right. split; [lia|]. left. lia.
Qed.

(** ** Exact cases *)

Lemma binary_round_aux_exact s m e :
  0 <= m -> canonical m e ->
  binary_round_aux prec emax s m e loc_Exact = round_result s m e.
Proof.
  intros Hm Hc. rewrite binary_round_aux_spec by done. cbv zeta.
  unfold canonical in Hc.
  assert (round_m1 m e loc_Exact = m) as ->.
  { unfold round_m1. rewrite Hc, Z.sub_diag. cbn [Z.to_nat shift_code loc_code].
    rewrite Z.add_0_r. apply rne_code_exact. }
  assert (round_e1 m e = e) as -> by (unfold round_e1; lia).
  assert (round_m2 m e = m) as ->.
  { unfold round_m2. rewrite Hc, Z.sub_diag. cbn. by rewrite Z.div_1_r. }
  by assert (round_e1 m e = e) as -> by (unfold round_e1; lia).
Qed.

(** A number that fits the format is kept as it is, up to the alignment of
    its mantissa. *)
Lemma binary_round_exact s mx ex :
  let E := fexp (Zdigits2 (Z.pos mx) + ex) in
  E <= ex ->
  binary_round prec emax s mx ex = round_result s (Z.pos mx * 2 ^ (ex - E)) E.
Proof.
  intros E HE. unfold binary_round.
  pose proof (shl_align_fexp_below mx ex) as (Hb & Hm & Hle & Hd).
  pose proof (shl_align_spec mx ex (fexp (Z.pos (digits2_pos mx) + ex))) as [_ He].
  destruct (shl_align mx ex _) as [mz ez]. cbn [fst snd] in *.
  change (fexp (Z.pos (digits2_pos mx) + ex)) with E in He.
  assert (ez = E) as -> by lia.
  rewrite binary_round_aux_exact; [by rewrite Hm|lia|].
  unfold canonical. rewrite Hd. done.
Qed.

(** A rounded result is zero only if the first rounding gives zero. *)
Lemma binary_round_aux_nonzero s m e l :
  0 <= m -> below_canonical m e -> 0 < round_m1 m e l ->
  forall s', binary_round_aux prec emax s m e l <> S754_zero s'.
Proof.
  intros Hm Hb Hpos s'. rewrite binary_round_aux_spec by done. cbv zeta.
  destruct (round_canonical m e l Hm Hb) as (H0 & Hc & Hlt & He & Hcarry & Hnorm).
  assert (0 < 2 ^ (prec - 1)) as Hpp by (apply Z.pow_pos_nonneg; lia).
  assert (0 < round_m2 (round_m1 m e l) (round_e1 m e)) as Hm2.
  { pose proof (round_e1_below m e Hb) as He1.
    set (e1 := round_e1 m e) in *. set (m1 := round_m1 m e l) in *.
    destruct (Z.eq_dec (round_e1 m1 e1) (fexp (Zdigits2 m + e) + 1)) as [E|E].
    - rewrite Hcarry by done. done.
    - assert (round_e1 m1 e1 = e1) as E2 by lia.
      unfold round_e1 in E2. unfold round_m2.
      replace (Z.max (fexp (Zdigits2 m1 + e1) - e1) 0) with 0 by lia.
      by rewrite Z.div_1_r. }
  unfold round_result.
  destruct (round_m2 _ _) as [|p|p]; [lia| |lia].
  by destruct (_ <=? _).
Qed.

End Format.

(** ** Shifting a position code *)

Lemma shift_code_add a b c : shift_code (a + b) c = shift_code a (shift_code b c).
Proof. induction a as [|a IH]; [done|]. cbn [Nat.add shift_code]. by rewrite IH. Qed.

Lemma code_step_double c : c mod 2 = 0 -> code_step (2 * c) = c.
Proof.
  intros Hc. unfold code_step.
  pose proof (Z.div_mod c 2 ltac:(lia)) as Hd.
  assert (2 * c = 4 * (c / 2)) as H4 by lia.
  rewrite H4. rewrite (Z.mul_comm 4), Z.div_mul, Z.mod_mul by lia. simpl. lia.
Qed.

Lemma shift_code_exact k c :
  c mod 2 = 0 -> shift_code k (2 ^ Z.of_nat k * c) = c.
Proof.
  revert c. induction k as [|k IH]; intros c Hc.
  - simpl. lia.
  - rewrite Nat2Z.inj_succ, Z.pow_succ_r by lia.
    replace (S k) with (1 + k)%nat by lia. rewrite shift_code_add.
    replace (2 * 2 ^ Z.of_nat k * c) with (2 ^ Z.of_nat k * (2 * c)) by lia.
    rewrite IH.
    + cbn [shift_code]. by apply code_step_double.
    + by rewrite Z.mul_comm, Z.mod_mul.
Qed.

(** ** binary32 values of the program *)

(** A [float32] of the program is a valid binary32 number. *)
Definition wf32 (x : float32) : Prop := valid_binary F32.prec F32.emax x = true.

Lemma F32_format : 0 < F32.prec /\ 3 - F32.emax - F32.prec <= 0.
Proof. done. Qed.

Lemma F64_format : 0 < F64.prec /\ 3 - F64.emax - F64.prec <= 0.
Proof. done. Qed.

Lemma add_wf x y : wf32 x -> wf32 y -> wf32 (F32.add x y).
Proof. apply SFadd_valid; apply F32_format. Qed.

Lemma sub_wf x y : wf32 x -> wf32 y -> wf32 (F32.sub x y).
Proof. apply SFsub_valid; apply F32_format. Qed.

Lemma mul_wf x y : wf32 x -> wf32 y -> wf32 (F32.mul x y).
Proof. apply SFmul_valid; apply F32_format. Qed.

Lemma fma_wf x y z : wf32 x -> wf32 y -> wf32 z -> wf32 (F32.fma x y z).
Proof.
  intros Hx Hy Hz. unfold F32.fma.
  destruct x as [sx|sx| |sx mx ex], y as [sy|sy| |sy my ey]; try done;
    try (destruct z as [sz|sz| |sz mz ez]; try done;
         repeat match goal with |- context [if ?b then _ else _] => destruct b end;
         done).
  destruct z as [sz|sz| |sz mz ez]; try done.
  - by apply mul_wf.
  - apply binary_normalize_valid; apply F32_format.
Qed.

Lemma wf32_finite s m e :
  wf32 (S754_finite s m e) ->
  let d := Zdigits2 (Z.pos m) in
  1 <= d <= 24 /\ -149 <= e <= 104 /\ (d = 24 \/ e = -149).
Proof.
  unfold wf32. rewrite valid_finite. intros [Hc He].
  apply canonical_digits in Hc as (H1 & H2 & H3); [|apply F32_format..|lia].
  pose proof (Zdigits2_pos (Z.pos m) ltac:(lia)).
  unfold F32.prec, F32.emax in *. cbv zeta. lia.
Qed.

(** ** The conversion to binary64 is exact *)

Lemma of_f32_finite s m e :
  wf32 (S754_finite s m e) ->
  let d := Zdigits2 (Z.pos m) in
  exists M, F64.of_f32 (S754_finite s m e) = S754_finite s M (e + d - 53) /\
            Z.pos M = Z.pos m * 2 ^ (53 - d).
Proof.
  intros Hwf d. destruct (wf32_finite s m e Hwf) as (Hd & He & _). fold d in Hd.
  assert (F64.of_f32 (S754_finite s m e) = binary_round F64.prec F64.emax s m e) as ->
    by (by destruct s).
  assert (fexp F64.prec F64.emax (d + e) = e + d - 53) as HE.
  { rewrite fexp_spec. unfold F64.prec, F64.emax. lia. }
  rewrite binary_round_exact; [|apply F64_format..|fold d; lia].
  fold d. rewrite HE. replace (e - (e + d - 53)) with (53 - d) by lia.
  assert (0 < Z.pos m * 2 ^ (53 - d)) as Hpos.
  { apply Z.mul_pos_pos; [lia|]. apply Z.pow_pos_nonneg; lia. }
  unfold round_result. destruct (Z.pos m * 2 ^ (53 - d)) as [|M|M] eqn:EM; try lia.
  exists M. split; [|done].
  unfold F64.prec, F64.emax. destruct (Z.leb_spec (e + d - 53) (1024 - 53)); [done|lia].
Qed.

(** ** The binary64 square root of a normal number *)

Ltac div_lia := Z.to_euclidean_division_equations; lia.

(** Integer square root with the position of the remainder, as a
    position code. *)
Definition sqrt_code (n : Z) : Z :=
  let (q, r) := Z.sqrtrem n in
  4 * q + (if r =? 0 then 0 else if r <=? q then 1 else 3).

Lemma sqrt_code_mono n n' : 0 <= n <= n' -> sqrt_code n <= sqrt_code n'.
Proof.
  intros [Hn Hnn]. unfold sqrt_code.
  pose proof (Z.sqrtrem_spec n Hn) as H. pose proof (Z.sqrtrem_spec n' ltac:(lia)) as H'.
  destruct (Z.sqrtrem n) as [q r], (Z.sqrtrem n') as [q' r'].
  destruct H as [E [Hr0 Hr1]], H' as [E' [Hr0' Hr1']].
  assert (q <= q') as Hq.
  { destruct (Z.le_gt_cases q q') as [|Hgt]; [done|exfalso].
    assert ((q' + 1) * (q' + 1) <= q * q) by (apply Z.mul_le_mono_nonneg; lia).
    lia. }
  destruct (Z.eq_dec q q') as [->|Hne].
  - assert (r <= r') by lia.
    destruct (Z.eqb_spec r 0), (Z.eqb_spec r' 0), (Z.leb_spec r q'), (Z.leb_spec r' q'); lia.
  - destruct (Z.eqb_spec r 0), (Z.eqb_spec r' 0), (Z.leb_spec r q), (Z.leb_spec r' q'); lia.
Qed.

Lemma pow2_52 : 2 ^ 52 = 4503599627370496.
Proof. reflexivity. Qed.

Lemma pow2_53 : 2 ^ 53 = 9007199254740992.
Proof. reflexivity. Qed.

Lemma digits_53 m : 0 < m -> Zdigits2 m = 53 <-> 2 ^ 52 <= m < 2 ^ 53.
Proof.
  intros Hm. split.
  - intros Hd.
    pose proof (Zdigits2_bounds m Hm) as Hb. rewrite Hd in Hb. exact Hb.
  - intros Hb. by apply Zdigits2_unique.
Qed.

Lemma sqrt_bounds q r n :
  n = q * q + r -> 0 <= r <= 2 * q ->
  2 ^ 52 * 2 ^ 52 <= n < 2 ^ 53 * 2 ^ 53 -> 2 ^ 52 <= q < 2 ^ 53.
Proof.
  intros E Hr Hn. split.
  - destruct (Z.le_gt_cases (2 ^ 52) q) as [|Hlt]; [done|exfalso].
    assert ((q + 1) * (q + 1) <= 2 ^ 52 * 2 ^ 52)
      by (apply Z.mul_le_mono_nonneg; lia).
    lia.
  - destruct (Z.lt_ge_cases q (2 ^ 53)) as [|Hge]; [done|exfalso].
    assert (2 ^ 53 * 2 ^ 53 <= q * q) by (apply Z.mul_le_mono_nonneg; lia).
    lia.
Qed.

(** The radicand: the mantissa aligned to an even exponent. *)
Definition radicand (m : positive) (e : Z) : Z := Z.pos m * 2 ^ (e - 2 * (e / 2) + 52).

Lemma radicand_bounds m e :
  Zdigits2 (Z.pos m) = 53 ->
  2 ^ 52 * 2 ^ 52 <= radicand m e < 2 ^ 53 * 2 ^ 53.
Proof.
  intros Hd. apply digits_53 in Hd; [|lia]. unfold radicand.
  assert (e - 2 * (e / 2) + 52 = 52 \/ e - 2 * (e / 2) + 52 = 53) as [-> | ->] by div_lia;
    rewrite ?pow2_52, ?pow2_53 in *; lia.
Qed.

Lemma SFsqrt_core_normal m e :
  Zdigits2 (Z.pos m) = 53 -> -300 <= e <= 300 ->
  exists q l,
    SFsqrt_core_binary F64.prec F64.emax (Z.pos m) e = (q, e / 2 - 26, l) /\
    4 * q + loc_code l = sqrt_code (radicand m e) /\
    2 ^ 52 <= q < 2 ^ 53.
Proof.
  intros Hd He. pose proof (radicand_bounds m e Hd) as Hrad.
  unfold SFsqrt_core_binary. rewrite Hd.
  assert (Z.min (fexp F64.prec F64.emax (Z.div2 (53 + e + 1))) (Z.div2 e) = e / 2 - 26) as ->.
  { rewrite !Z.div2_div, fexp_spec. unfold F64.prec, F64.emax. div_lia. }
  assert (match e - 2 * (e / 2 - 26) with
          | 0 => Z.pos m
          | Z.pos _ => Z.shiftl (Z.pos m) (e - 2 * (e / 2 - 26))
          | Z.neg _ => 0
          end = radicand m e) as ->.
  { unfold radicand. replace (e - 2 * (e / 2) + 52) with (e - 2 * (e / 2 - 26)) by lia.
    destruct (e - 2 * (e / 2 - 26)) as [|s|s] eqn:Es; [div_lia| |div_lia].
    by rewrite Z.shiftl_mul_pow2. }
  unfold sqrt_code.
  pose proof (Z.sqrtrem_spec (radicand m e) ltac:(rewrite pow2_52 in Hrad; lia)) as Hs.
  destruct (Z.sqrtrem (radicand m e)) as [q r]. destruct Hs as [E Hr].
  eexists q, _. split; [reflexivity|]. split.
  - destruct (r =? 0); [done|]. by destruct (r <=? q).
  - by eapply sqrt_bounds.
Qed.

Lemma canonical_53 q e : Zdigits2 q = 53 -> -1074 <= e -> canonical F64.prec F64.emax q e.
Proof.
  intros Hd He. unfold canonical. rewrite Hd, fexp_spec. unfold F64.prec, F64.emax. lia.
Qed.

Lemma sqrt_normal m e :
  Zdigits2 (Z.pos m) = 53 -> -300 <= e <= 300 ->
  exists q l,
    F64.sqrt (S754_finite false m e) =
      binary_round_aux F64.prec F64.emax false q (e / 2 - 26) l /\
    canonical F64.prec F64.emax q (e / 2 - 26) /\ 0 <= q /\
    round_m1 F64.prec F64.emax q (e / 2 - 26) l = rne_code (sqrt_code (radicand m e)).
Proof.
  intros Hd He. destruct (SFsqrt_core_normal m e Hd He) as (q & l & Hcore & Hcode & Hq).
  exists q, l. unfold F64.sqrt, SFsqrt. rewrite Hcore.
  assert (canonical F64.prec F64.emax q (e / 2 - 26)) as Hc.
  { apply canonical_53; [apply digits_53; [rewrite pow2_52 in Hq; lia|done]|div_lia]. }
  split_and!; [done|done|rewrite pow2_52 in Hq; lia|].
  unfold round_m1. unfold canonical in Hc. rewrite Hc, Z.sub_diag.
  cbn [Z.to_nat shift_code]. by rewrite Hcode.
Qed.

Lemma canonical_below prec emax m e : canonical prec emax m e -> below_canonical prec emax m e.
Proof. unfold canonical, below_canonical. lia. Qed.

Lemma sqrt_normal_result m e :
  Zdigits2 (Z.pos m) = 53 -> -300 <= e <= 300 ->
  exists q2 e2,
    F64.sqrt (S754_finite false m e) = S754_finite false q2 e2 /\
    Zdigits2 (Z.pos q2) = 53 /\ e / 2 - 26 <= e2 <= e / 2 - 25.
Proof.
  intros Hd He. destruct (sqrt_normal m e Hd He) as (q & l & Hs & Hc & Hq & _).
  rewrite Hs, binary_round_aux_spec by done. cbv zeta.
  destruct (round_canonical F64.prec F64.emax ltac:(done) q (e / 2 - 26) l Hq
              (canonical_below _ _ _ _ Hc)) as (H0 & Hc2 & Hlt & He2 & Hcarry & Hnorm).
  unfold canonical in Hc. rewrite Hc in He2.
  set (m1 := round_m1 F64.prec F64.emax q (e / 2 - 26) l) in *.
  set (e1 := round_e1 F64.prec F64.emax q (e / 2 - 26)) in *.
  set (m2 := round_m2 F64.prec F64.emax m1 e1) in *.
  set (e2 := round_e1 F64.prec F64.emax m1 e1) in *.
  assert (2 ^ 52 <= m2) as Hlo by (apply Hnorm; unfold F64.prec, F64.emax; div_lia).
  change (2 ^ F64.prec) with (2 ^ 53) in Hlt.
  unfold round_result. destruct m2 as [|p|p] eqn:Em2; [rewrite pow2_52 in Hlo; lia| |lia].
  destruct (Z.leb_spec e2 (F64.emax - F64.prec)) as [_|Hov];
    [|unfold F64.prec, F64.emax in Hov; div_lia].
  exists p, e2. split; [done|]. split; [by apply digits_53|lia].
Qed.

Lemma radicand_mono m e m' e' :
  Zdigits2 (Z.pos m) = 53 -> Zdigits2 (Z.pos m') = 53 ->
  e / 2 = e' / 2 -> e < e' \/ (e = e' /\ (m <= m')%positive) ->
  radicand m e <= radicand m' e'.
Proof.
  intros Hd Hd' He Hle. apply digits_53 in Hd, Hd'; [|lia..]. unfold radicand.
  rewrite pow2_52, pow2_53 in *.
  destruct Hle as [Hlt|[-> Hm]].
  - replace (e - 2 * (e / 2) + 52) with 52 by div_lia.
    replace (e' - 2 * (e' / 2) + 52) with 53 by div_lia.
    rewrite pow2_52, pow2_53. lia.
  - apply Z.mul_le_mono_nonneg_r; [|lia]. apply Z.lt_le_incl, Z.pow_pos_nonneg; div_lia.
Qed.

Lemma radicand_nonneg m e : 0 <= radicand m e.
Proof.
  unfold radicand. apply Z.mul_nonneg_nonneg; [lia|].
  apply Z.lt_le_incl, Z.pow_pos_nonneg; div_lia.
Qed.

Lemma sqrt_normal_mono m e m' e' :
  Zdigits2 (Z.pos m) = 53 -> -300 <= e <= 300 ->
  Zdigits2 (Z.pos m') = 53 -> -300 <= e' <= 300 ->
  e < e' \/ (e = e' /\ (m <= m')%positive) ->
  SFleb (F64.sqrt (S754_finite false m e)) (F64.sqrt (S754_finite false m' e')) = true.
Proof.
  intros Hd He Hd' He' Hle.
  destruct (sqrt_normal m e Hd He) as (q & l & -> & Hc & Hq & Hm1).
  destruct (sqrt_normal m' e' Hd' He') as (q' & l' & -> & Hc' & Hq' & Hm1').
  apply binary_round_aux_mono;
    [done|done|done|by apply canonical_below|by apply canonical_below|].
  unfold canonical in Hc, Hc'. rewrite Hc, Hc', Hm1, Hm1'.
  destruct (Z.eq_dec (e / 2) (e' / 2)) as [E|E].
  - right. split; [lia|]. apply rne_code_mono, sqrt_code_mono.
    split; [apply radicand_nonneg|]. by apply radicand_mono.
  - left. div_lia.
Qed.

(** ** The conversion back to binary32 *)

Lemma to_f32_normal m e :
  Zdigits2 (Z.pos m) = 53 ->
  F64.to_f32 (S754_finite false m e) =
    binary_round_aux F32.prec F32.emax false (Z.pos m) e loc_Exact /\
  below_canonical F32.prec F32.emax (Z.pos m) e /\
  fexp F32.prec F32.emax (Zdigits2 (Z.pos m) + e) = Z.max (e + 29) (-149).
Proof.
  intros Hd.
  assert (fexp F32.prec F32.emax (Zdigits2 (Z.pos m) + e) = Z.max (e + 29) (-149)) as HE.
  { rewrite Hd, fexp_spec. unfold F32.prec, F32.emax. lia. }
  split_and!; [|unfold below_canonical; lia|done].
  unfold F64.to_f32. cbn [cond_Zopp binary_normalize]. unfold binary_round.
  change (Z.pos (digits2_pos m)) with (Zdigits2 (Z.pos m)). rewrite HE.
  unfold shl_align. by destruct (Z.max (e + 29) (-149) - e) as [|d|d] eqn:Ed; [|..|lia].
Qed.

Lemma to_f32_normal_mono m e m' e' :
  Zdigits2 (Z.pos m) = 53 -> Zdigits2 (Z.pos m') = 53 ->
  e < e' \/ (e = e' /\ (m <= m')%positive) ->
  SFleb (F64.to_f32 (S754_finite false m e)) (F64.to_f32 (S754_finite false m' e')) = true.
Proof.
  intros Hd Hd' Hle.
  destruct (to_f32_normal m e Hd) as (-> & Hb & HE).
  destruct (to_f32_normal m' e' Hd') as (-> & Hb' & HE').
  apply binary_round_aux_mono; [done|done|done|done|done|].
  unfold round_m1. rewrite HE, HE'. cbn [loc_code]. rewrite !Z.add_0_r.
  destruct (Z.eq_dec (Z.max (e + 29) (-149)) (Z.max (e' + 29) (-149))) as [E|E]; [|left; lia].
  right. split; [done|]. apply rne_code_mono.
  destruct Hle as [Hlt|[-> Hm]]; [|apply shift_code_mono; lia].
  (* both in the subnormal range, at different exponents *)
  apply digits_53 in Hd, Hd'; [|lia..]. rewrite pow2_52, pow2_53 in *.
  set (n' := Z.to_nat (Z.max (e' + 29) (-149) - e')).
  set (k := Z.to_nat (e' - e)).
  replace (Z.to_nat (Z.max (e + 29) (-149) - e)) with (n' + k)%nat by (subst n' k; lia).
  rewrite shift_code_add. apply shift_code_mono.
  assert ((4 * Z.pos m') mod 2 = 0) as Hev.
  { replace (4 * Z.pos m') with (2 * Z.pos m' * 2) by lia. by apply Z.mod_mul. }
  rewrite <- (shift_code_exact k (4 * Z.pos m') Hev).
  apply shift_code_mono.
  assert (2 <= 2 ^ Z.of_nat k) as Hk.
  { change 2 with (2 ^ 1) at 1. apply Z.pow_le_mono_r; subst k; lia. }
  nia.
Qed.

(** ** [sqrt32] *)

Lemma to_f32_wf x : wf32 (F64.to_f32 x).
Proof.
  destruct x as [s|s| |s m e]; try done.
  apply binary_normalize_valid; done.
Qed.

Lemma sqrt32_wf x : wf32 (sqrt32 x).
Proof. apply to_f32_wf. Qed.

Lemma sqrt32_zero s : sqrt32 (S754_zero s) = S754_zero s.
Proof. reflexivity. Qed.

Lemma sqrt32_infinity : sqrt32 (S754_infinity false) = S754_infinity false.
Proof. reflexivity. Qed.

(** On a negative number, finite or not, [sqrt32] is NaN. *)
Lemma sqrt32_negative x :
  wf32 x -> F32.is_nan (sqrt32 x) = false ->
  match x with
  | S754_zero _ | S754_infinity false | S754_finite false _ _ => True
  | _ => False
  end.
Proof.
  intros Hwf Hn. destruct x as [s|[]| |[] m e]; try done.
  destruct (of_f32_finite true m e Hwf) as (M & HM & _).
  unfold sqrt32 in Hn. by rewrite HM in Hn.
Qed.

(** The three steps of [sqrt32] on a positive finite number. *)
Lemma sqrt32_finite m e :
  wf32 (S754_finite false m e) ->
  let d := Zdigits2 (Z.pos m) in
  exists M q2 e2,
    Z.pos M = Z.pos m * 2 ^ (53 - d) /\ Zdigits2 (Z.pos M) = 53 /\
    -300 <= e + d - 53 <= 300 /\
    F64.sqrt (S754_finite false M (e + d - 53)) = S754_finite false q2 e2 /\
    Zdigits2 (Z.pos q2) = 53 /\
    sqrt32 (S754_finite false m e) = F64.to_f32 (S754_finite false q2 e2).
Proof.
  intros Hwf d. destruct (wf32_finite false m e Hwf) as (Hd & He & _). fold d in Hd.
  destruct (of_f32_finite false m e Hwf) as (M & HM & HMz). fold d in HM, HMz.
  assert (Zdigits2 (Z.pos M) = 53) as HdM.
  { rewrite HMz, Zdigits2_mul_pow2 by lia. fold d. lia. }
  assert (-300 <= e + d - 53 <= 300) as HeM by lia.
  destruct (sqrt_normal_result M (e + d - 53) HdM HeM) as (q2 & e2 & Hs & Hdq & _).
  exists M, q2, e2. split_and!; try done; try lia.
  unfold sqrt32. by rewrite HM, Hs.
Qed.

Lemma sqrt32_finite_sign m e :
  wf32 (S754_finite false m e) -> has_sign false (sqrt32 (S754_finite false m e)).
Proof.
  intros Hwf. destruct (sqrt32_finite m e Hwf) as (M & q2 & e2 & _ & _ & _ & _ & Hd & ->).
  destruct (to_f32_normal q2 e2 Hd) as (-> & _). by apply binary_round_aux_sign.
Qed.

Lemma finite_leb m e m' e' :
  SFleb (S754_finite false m e) (S754_finite false m' e') = true <->
  e < e' \/ (e = e' /\ (m <= m')%positive).
Proof.
  rewrite SFleb_key. cbn [fkey F32.is_nan]. unfold key_lt. cbn [fst snd]. split.
  - intros (_ & _ & Hn). lia.
  - intros Hle. split_and!; [done|done|lia].
Qed.

Lemma sqrt32_mono_finite m e m' e' :
  wf32 (S754_finite false m e) -> wf32 (S754_finite false m' e') ->
  e < e' \/ (e = e' /\ (m <= m')%positive) ->
  SFleb (sqrt32 (S754_finite false m e)) (sqrt32 (S754_finite false m' e')) = true.
Proof.
  intros Hwf Hwf' Hle.
  destruct (sqrt32_finite m e Hwf) as (M & q2 & e2 & HM & HdM & HeM & Hs & Hdq & ->).
  destruct (sqrt32_finite m' e' Hwf') as (M' & q2' & e2' & HM' & HdM' & HeM' & Hs' & Hdq' & ->).
  destruct (wf32_finite false m e Hwf) as (Hd & He & Hn).
  destruct (wf32_finite false m' e' Hwf') as (Hd' & He' & Hn').
  cbv zeta in *.
  set (d := Zdigits2 (Z.pos m)) in *. set (d' := Zdigits2 (Z.pos m')) in *.
  assert (e + d - 53 < e' + d' - 53 \/ (e + d - 53 = e' + d' - 53 /\ (M <= M')%positive))
    as HleM.
  { destruct Hle as [Hlt|[-> Hm]]; [left; lia|].
    pose proof (Zdigits2_mono (Z.pos m) (Z.pos m') ltac:(lia)) as Hdd. fold d d' in Hdd.
    destruct (Z.eq_dec d d') as [E|E]; [|left; lia].
    right. split; [lia|]. rewrite <- E in HM'.
    assert (0 < 2 ^ (53 - d)) by (apply Z.pow_pos_nonneg; lia).
    assert (Z.pos M <= Z.pos M') by (rewrite HM, HM'; nia). lia. }
  pose proof (sqrt_normal_mono _ _ _ _ HdM HeM HdM' HeM' HleM) as Hsq.
  rewrite Hs, Hs' in Hsq. apply finite_leb in Hsq.
  by apply to_f32_normal_mono.
Qed.

Lemma has_sign_false_key x : has_sign false x -> ¬ key_lt (fkey x) (0, 0, 0).
Proof.
  destruct x as [s|s| |s m e]; simpl; try done; intros ->; unfold key_lt; simpl; lia.
Qed.

(** [sqrt32] keeps the order of the numbers it is defined on. *)
Lemma sqrt32_mono x y :
  wf32 x -> wf32 y ->
  F32.is_nan (sqrt32 x) = false -> F32.is_nan (sqrt32 y) = false ->
  SFltb y x = false ->
  SFleb (sqrt32 x) (sqrt32 y) = true.
Proof.
  intros Hx Hy Hnx Hny Hlt.
  pose proof (sqrt32_negative x Hx Hnx) as Hsx.
  pose proof (sqrt32_negative y Hy Hny) as Hsy.
  assert (F32.is_nan x = false) as Hxn by (by destruct x).
  assert (F32.is_nan y = false) as Hyn by (by destruct y).
  apply SFleb_not_ltb in Hlt; [|done|done].
  destruct x as [sx|[]| |[] m e]; try done.
  - (* zero *)
    rewrite sqrt32_zero. apply SFleb_key. split_and!; [done|done|].
    destruct y as [sy|[]| |[] m' e']; try done.
    + rewrite sqrt32_zero. unfold key_lt. simpl. lia.
    + rewrite sqrt32_infinity. unfold key_lt. simpl. lia.
    + apply has_sign_false_key, sqrt32_finite_sign. done.
  - (* infinity *)
    destruct y as [sy|[]| |[] m' e']; try done.
  - destruct y as [sy|[]| |[] m' e']; try done.
    + rewrite sqrt32_infinity. apply SFleb_key. split_and!; [done|done|].
      pose proof (sqrt32_finite_sign m e Hx) as Hs.
      destruct (sqrt32 (S754_finite false m e)) as [s|s| |s m2 e2]; simpl in Hs;
        try done; subst; unfold key_lt; simpl; lia.
    + apply sqrt32_mono_finite; [done|done|]. by apply finite_leb.
Qed.

(** ** The kernels return valid numbers *)

Definition wf_pair (x y : float32) : Prop := wf32 x /\ wf32 y.

Lemma wf_pairs (a b : list float32) :
  length a = length b -> Forall wf32 a -> Forall wf32 b -> Forall2 wf_pair a b.
Proof.
  intros Hlen Ha Hb. apply Forall2_same_length_lookup_2; [done|].
  intros i x y Hx Hy. split.
  - eapply (proj1 (Forall_lookup _ _) Ha); done.
  - eapply (proj1 (Forall_lookup _ _) Hb); done.
Qed.

Lemma EuclideanDistanceSquared_wf arch (a b : list float32) :
  length a = length b -> Forall wf32 a -> Forall wf32 b ->
  wf32 (EuclideanDistanceSquared arch a b).
Proof.
  intros Hlen Ha Hb.
  apply (EuclideanDistanceSquared_inv wf_pair wf32); [done|done|apply add_wf| | |].
  - intros x y acc [Hx Hy] Hacc. apply add_wf; [done|]. apply mul_wf; by apply sub_wf.
  - intros x y acc [Hx Hy] Hacc. apply fma_wf; [by apply sub_wf..|done].
  - by apply wf_pairs.
Qed.

Lemma DotProduct_wf arch (a b : list float32) :
  length a = length b -> Forall wf32 a -> Forall wf32 b ->
  wf32 (DotProduct arch a b).
Proof.
  intros Hlen Ha Hb.
  apply (DotProduct_inv wf_pair wf32); [done|done|apply add_wf| | | |].
  - intros x y acc [Hx Hy] Hacc. apply add_wf; [done|]. by apply mul_wf.
  - intros x y acc [Hx Hy] Hacc. apply add_wf; [done|]. by apply mul_wf.
  - intros x y acc [Hx Hy] Hacc. by apply fma_wf.
  - by apply wf_pairs.
Qed.

(** ** Magnitudes are not tiny

    The square root of the least positive binary32 number is about
    [2^-74.5]: the product of two non-zero magnitudes is at least about
    [2^-149], and it does not round to zero. *)

Definition sqrt32_least : float32 := S754_finite false 11863283 (-98).

Lemma sqrt32_least_eq : sqrt32 (S754_finite false 1 (-149)) = sqrt32_least.
Proof. by vm_compute. Qed.

Definition not_tiny (x : float32) : Prop :=
  match x with
  | S754_nan | S754_infinity false => True
  | S754_finite false m e =>
      wf32 x /\ (-98 < e \/ (e = -98 /\ 11863283 <= Z.pos m))
  | _ => False
  end.

Lemma sqrt32_not_tiny x :
  wf32 x -> F32.eqb (sqrt32 x) F32.zero = false -> not_tiny (sqrt32 x).
Proof.
  intros Hwf Hnz. destruct x as [s|[]| |[] m e]; try done.
  - destruct (of_f32_finite true m e Hwf) as (M & HM & _).
    unfold sqrt32. by rewrite HM.
  - pose proof (sqrt32_finite_sign m e Hwf) as Hs.
    pose proof (sqrt32_wf (S754_finite false m e)) as Hwf'.
    assert (SFleb sqrt32_least (sqrt32 (S754_finite false m e)) = true) as Hle.
    { rewrite <- sqrt32_least_eq. apply sqrt32_mono_finite; [done|done|].
      destruct (wf32_finite false m e Hwf) as (_ & He & _). lia. }
    destruct (sqrt32 (S754_finite false m e)) as [s|s| |s m2 e2]; simpl in Hs;
      try done; subst s; [done|].
    split; [done|]. apply finite_leb in Hle. lia.
Qed.

Lemma not_tiny_mantissa m e :
  not_tiny (S754_finite false m e) -> 2 ^ 23 <= Z.pos m < 2 ^ 24.
Proof.
  intros [Hwf He].
  destruct (wf32_finite false m e Hwf) as (Hd & _ & [Hd24| ->]); [|lia].
  pose proof (Zdigits2_bounds (Z.pos m) ltac:(lia)) as Hb. by rewrite Hd24 in Hb.
Qed.

Lemma product_round_pos mx ex my ey :
  not_tiny (S754_finite false mx ex) -> not_tiny (S754_finite false my ey) ->
  0 < round_m1 F32.prec F32.emax (Z.pos (mx * my)) (ex + ey) loc_Exact.
Proof.
  intros Hx Hy.
  pose proof (not_tiny_mantissa _ _ Hx) as Hmx.
  pose proof (not_tiny_mantissa _ _ Hy) as Hmy.
  destruct Hx as [_ Hex], Hy as [_ Hey].
  change (2 ^ 23) with 8388608 in *. change (2 ^ 24) with 16777216 in *.
  set (m := Z.pos (mx * my)).
  assert (m = Z.pos mx * Z.pos my) as Hm by done.
  assert (2 ^ 46 <= m < 2 ^ 48) as Hb.
  { change (2 ^ 46) with (8388608 * 8388608). change (2 ^ 48) with (16777216 * 16777216).
    rewrite Hm. split; [apply Z.mul_le_mono_nonneg; lia|apply Z.mul_lt_mono_nonneg; lia]. }
  assert (0 < m) as Hmpos by lia.
  assert (47 <= Zdigits2 m <= 48) as Hd.
  { pose proof (Zdigits2_bounds m Hmpos) as [Hlo Hhi].
    pose proof (Zdigits2_pos m Hmpos) as Hdp.
    assert (46 < Zdigits2 m) by (apply (Z.pow_lt_mono_r_iff 2); lia).
    assert (Zdigits2 m - 1 < 48) by (apply (Z.pow_lt_mono_r_iff 2); lia).
    lia. }
  unfold round_m1. cbn [loc_code]. rewrite Z.add_0_r, fexp_spec.
  unfold F32.prec, F32.emax.
  set (n := Z.to_nat (Z.max (Zdigits2 m + (ex + ey) - 24) (3 - 128 - 24) - (ex + ey))).
  destruct (Z.eq_dec (ex + ey) (-196)) as [E|E].
  - assert (n = 47%nat) as -> by (subst n; lia).
    assert (11863283 * 11863283 <= m) as Hlow
      by (rewrite Hm; apply Z.mul_le_mono_nonneg; lia).
    apply Z.lt_le_trans with (rne_code (shift_code 47 (4 * (11863283 * 11863283)))).
    + by vm_compute.
    + apply rne_code_mono, shift_code_mono. lia.
  - assert (Z.of_nat n <= 46) as Hn by (subst n; lia).
    pose proof (rne_code_bounds (shift_code n (4 * m))) as [Hlo _].
    rewrite shift_code_div in Hlo by lia.
    replace (4 * m / 4) with m in Hlo by (by rewrite Z.mul_comm, Z.div_mul).
    assert (1 <= m / 2 ^ Z.of_nat n); [|lia].
    apply Z.div_le_lower_bound; [apply Z.pow_pos_nonneg; lia|].
    rewrite Z.mul_1_r. apply Z.le_trans with (2 ^ 46); [|lia].
    apply Z.pow_le_mono_r; lia.
Qed.

Lemma mul_not_tiny x y :
  not_tiny x -> not_tiny y -> F32.eqb (F32.mul x y) F32.zero = false.
Proof.
  intros Hx Hy. destruct x as [sx|[]| |[] mx ex], y as [sy|[]| |[] my ey]; try done.
  pose proof (product_round_pos mx ex my ey Hx Hy) as Hpos.
  destruct Hx as [Hwx _], Hy as [Hwy _].
  apply valid_finite in Hwx as [Hcx _], Hwy as [Hcy _].
  assert (below_canonical F32.prec F32.emax (Z.pos (mx * my)) (ex + ey)) as Hb
    by (apply mul_below_canonical; done).
  pose proof (binary_round_aux_nonzero F32.prec F32.emax ltac:(done) false
                (Z.pos (mx * my)) (ex + ey) loc_Exact ltac:(lia) Hb Hpos) as Hnz.
  unfold F32.mul. cbn [SFmul xorb].
  destruct (binary_round_aux _ _ _ _ _ _) as [s|s| |s m e]; try done.
  - by destruct (Hnz s).
  - by destruct s.
  - by destruct s.
Qed.

End RoundingFacts.

(** ** Search returns the nearest vectors *)

Lemma contents_row_length D s rw :
  store_ok D s -> rw ∈ contents s -> length rw.2 = Z.to_nat D.
Proof.
  intros Hok Hrw. unfold contents in Hrw.
  apply elem_of_concat in Hrw as (l & Hrw & Hl).
  apply list_elem_of_fmap in Hl as (sh & -> & Hsh).
  apply list_elem_of_lookup in Hsh as [si Hsh].
  pose proof (store_ok_rows D s si sh Hok Hsh) as Hshard.
  pose proof (ok_uniform _ _ _ _ Hshard) as Hu.
  eapply (proj1 (Forall_forall _ _) Hu). by apply list_elem_of_fmap_2.
Qed.

Lemma StronglySorted_fmap_elem {A B} (f : A -> B) (R1 : relation A) (R2 : relation B) l :
  (forall x y, x ∈ l -> y ∈ l -> R1 x y -> R2 (f x) (f y)) ->
  StronglySorted R1 l -> StronglySorted R2 (f <$> l).
Proof.
  intros Himp Hs. induction Hs as [|x l Hs IH Hall]; [constructor|].
  rewrite fmap_cons. constructor.
  - apply IH. intros a b Ha Hb. apply Himp; by right.
  - apply Forall_fmap, Forall_forall. intros y Hy.
    apply Himp; [by left|by right|].
    by apply (proj1 (Forall_forall _ _) Hall).
Qed.

(** The squared distance of a stored row: valid, and in the domain of
    [sqrt32] when the distance is not NaN. *)
Lemma squared_distance_ok D arch s q rw :
  store_ok D s -> Z.of_nat (length q) = D ->
  Forall wf32 q -> Forall wf32 rw.2 -> rw ∈ contents s ->
  wf32 (EuclideanDistanceSquared arch q rw.2).
Proof.
  intros Hok Hq Hwq Hwr Hrw. apply EuclideanDistanceSquared_wf; [|done|done].
  rewrite (contents_row_length D s rw Hok Hrw). lia.
Qed.

Lemma sqrt32_nan x : F32.is_nan (sqrt32 x) = false -> F32.is_nan x = false.
Proof. by destruct x. Qed.

Lemma nearest_k_short arch s q k out :
  nearest_k arch s q k out ->
  ((k <= 0)%Z \/ Count s = 0 -> out = []) /\
  (Count s <= Z.to_nat k -> rID <$> out ≡ₚ (contents s).*1).
Proof.
  intros (sel & rest & Hperm & -> & Hlen & _). split.
  - intros Hk. assert (length sel = 0) as Hz by lia. by destruct sel.
  - intros Hk. rewrite Count_contents in *.
    assert (length rest = 0) as Hz.
    { apply Permutation_length in Hperm. rewrite length_app in Hperm. lia. }
    destruct rest; [|done]. rewrite app_nil_r in Hperm. rewrite Hperm.
    rewrite <- list_fmap_compose. done.
Qed.

Lemma StronglySorted_fmap_inv {A B} (f : A -> B) (R : relation B) l :
  StronglySorted R (f <$> l) -> StronglySorted (fun a b => R (f a) (f b)) l.
Proof.
  induction l as [|x l IH]; [constructor|].
  rewrite fmap_cons. intros Hs. apply StronglySorted_inv in Hs as [Hs Hall].
  constructor; [by apply IH|].
  apply Forall_forall. intros y Hy.
  apply (proj1 (Forall_forall _ _) Hall). by apply list_elem_of_fmap_2.
Qed.

(** The selection made by [Search], in terms of the squared distances it
    compares. *)
Lemma Search_select D arch procs s q k :
  store_ok D s -> Z.of_nat (length q) = D -> (1 <= k)%Z ->
  Forall (fun rw : row => F32.is_nan (EuclideanDistanceSquared arch q rw.2) = false)
    (contents s) ->
  exists sel rest : list row,
    contents s ≡ₚ sel ++ rest /\
    Search arch procs s q k =
      ((fun rw : row => mkResult rw.1 (EuclideanDistance arch q rw.2)) <$> sel, None) /\
    length sel = Z.to_nat k `min` Count s /\
    (forall y r : row, y ∈ sel -> r ∈ rest ->
       F32.ltb (EuclideanDistanceSquared arch q r.2)
               (EuclideanDistanceSquared arch q y.2) = false) /\
    StronglySorted
      (fun a b : row =>
         F32.ltb (EuclideanDistanceSquared arch q b.2)
                 (EuclideanDistanceSquared arch q a.2) = false) sel.
Proof.
  intros Hok Hq Hk Hnan. pose proof Hok as (HD & Hlen & Hall).
  unfold Search. rewrite knn_success by lia.
  assert (Forall result_ok (candidate (EuclideanDistanceSquared arch) q <$> contents s))
    as Hcand by (apply Forall_fmap; exact Hnan).
  destruct (knn_topk procs (EuclideanDistanceSquared arch) s q k Hlen Hk Hcand)
    as (Hasc & Hlenres & rest' & Hperm & Habove).
  set (res := drain_all maxHeap_Less id _) in *.
  symmetry in Hperm. apply Permutation_map_inv in Hperm as (l3 & Heq & Hperm).
  symmetry in Heq. apply fmap_app_inv in Heq as (sel & rest & Hres & Hrest & ->).
  exists sel, rest. split_and!.
  - done.
  - rewrite Hres, <- list_fmap_compose. done.
  - rewrite Count_contents. rewrite Hres, !length_fmap in Hlenres. done.
  - intros y r Hy Hr.
    apply (Habove (candidate (EuclideanDistanceSquared arch) q r)
                  (candidate (EuclideanDistanceSquared arch) q y)).
    + rewrite Hrest. by apply list_elem_of_fmap_2.
    + rewrite Hres. by apply list_elem_of_fmap_2.
  - rewrite Hres in Hasc. by apply StronglySorted_fmap_inv in Hasc.
Qed.

(** C1, on stores without NaN distances.  For every store built by insert and delete from a new
    store of dimension [D], every query [q] of length [D] and every
    integer [k]: if the components of [q] and of the stored vectors are
    binary32 numbers and no Euclidean distance from [q] to a stored
    vector is NaN, then [Search] succeeds and returns [min(k, Count)]
    stored vectors with their Euclidean distance to [q], such that no
    vector left out is nearer than a vector returned (ties broken
    arbitrarily) and the distances returned do not decrease.  In
    particular the result is empty for [k <= 0] and on an empty store,
    and it lists every stored vector when [k] is at least the
    population. *)
Theorem Search_nearest D arch procs s q k :
  reachable D s -> Z.of_nat (length q) = D ->
  Forall wf32 q ->
  Forall (fun rw : row => Forall wf32 rw.2) (contents s) ->
  Forall (fun rw : row => F32.is_nan (EuclideanDistance arch q rw.2) = false)
    (contents s) ->
  let out := (Search arch procs s q k).1 in
  (Search arch procs s q k).2 = None /\
  nearest_k arch s q k out /\
  ((k <= 0)%Z \/ Count s = 0 -> out = []) /\
  (Count s <= Z.to_nat k -> rID <$> out ≡ₚ (contents s).*1).
Proof.
  intros Hreach Hq Hwq Hwr Hnan out.
  pose proof (reachable_ok D s Hreach) as Hok.
  pose proof Hok as (HD & Hlen & Hall).
  rewrite Forall_forall in Hwr, Hnan.
  assert ((Search arch procs s q k).2 = None /\ nearest_k arch s q k out) as [Hnone Hnear];
    [|split_and!; [done|done|apply (nearest_k_short _ _ _ _ _ Hnear)..]].
  subst out. unfold Search.
  destruct (Z.leb_spec k 0) as [Hk|Hk].
  - unfold knn. rewrite bool_decide_eq_false_2 by (intros ?; lia).
    destruct (Z.leb_spec k 0); [|lia]. cbn [fst snd]. split; [done|].
    exists [], (contents s). split_and!; try done.
    + cbn [length]. lia.
    + intros y r Hy. by apply elem_of_nil in Hy.
    + constructor.
  - fold (Search arch procs s q k).
    assert (Forall (fun rw : row =>
                      F32.is_nan (EuclideanDistanceSquared arch q rw.2) = false)
              (contents s)) as Hsq.
    { apply Forall_forall. intros rw Hrw. apply sqrt32_nan. by apply Hnan. }
    destruct (Search_select D arch procs s q k Hok Hq ltac:(lia) Hsq)
      as (sel & rest & Hperm & -> & Hlensel & Hsel & Hsorted).
    cbn [fst snd]. split; [done|].
    assert (forall rw, rw ∈ sel ++ rest ->
              wf32 (EuclideanDistanceSquared arch q rw.2) /\
              F32.is_nan (sqrt32 (EuclideanDistanceSquared arch q rw.2)) = false) as Hrow.
    { intros rw Hrw. rewrite <- Hperm in Hrw. split.
      - eapply squared_distance_ok; eauto.
      - by apply Hnan. }
    exists sel, rest. split_and!; [done|done|done| |].
    + intros y r Hy Hr.
      destruct (Hrow y ltac:(apply elem_of_app; by left)) as [Hwy Hny].
      destruct (Hrow r ltac:(apply elem_of_app; by right)) as [Hwr' Hnr].
      apply sqrt32_mono; [done..|]. by apply Hsel.
    + eapply StronglySorted_fmap_elem; [|exact Hsorted].
      intros x y Hx Hy Hxy.
      destruct (Hrow x ltac:(apply elem_of_app; by left)) as [Hwx Hnx].
      destruct (Hrow y ltac:(apply elem_of_app; by left)) as [Hwy Hny].
      cbn. by apply sqrt32_mono.
Qed.

Lemma Search_nearest_witness :
  let s := example_store3 in
  let q := [F32.of_Z 1; F32.of_Z 2] in
  reachable 2 s /\ Z.of_nat (length q) = 2%Z /\
  Forall wf32 q /\
  Forall (fun rw : row => Forall wf32 rw.2) (contents s) /\
  Forall (fun rw : row => F32.is_nan (EuclideanDistance arm64 q rw.2) = false)
    (contents s) /\
  (Search arm64 4 s q 2).2 = None /\
  nearest_k arm64 s q 2 (Search arm64 4 s q 2).1 /\
  ((2 <= 0)%Z \/ Count s = 0 -> (Search arm64 4 s q 2).1 = []) /\
  (Count s <= Z.to_nat 2 -> rID <$> (Search arm64 4 s q 2).1 ≡ₚ (contents s).*1).
Proof.
  intros s q.
  assert (Z.of_nat (length q) = 2%Z) as Hq by reflexivity.
  assert (Forall wf32 q) as Hwq by (repeat constructor).
  assert (Forall (fun rw : row => Forall wf32 rw.2) (contents s)) as Hwr.
  { set (c := contents s). vm_compute in c. subst c. repeat constructor. }
  assert (Forall (fun rw : row => F32.is_nan (EuclideanDistance arm64 q rw.2) = false)
            (contents s)) as Hnan.
  { set (c := contents s). vm_compute in c. subst c.
    repeat (constructor; [by vm_compute|]). constructor. }
  split; [exact example_store3_reachable|]. split; [exact Hq|].
  split; [exact Hwq|]. split; [exact Hwr|]. split; [exact Hnan|].
  exact (Search_nearest 2 arm64 4 s q 2 example_store3_reachable Hq Hwq Hwr Hnan).
Defined.


(** ** Inserting the same vector twice *)

Lemma EuclideanDistanceSquared_self arch v :
  Forall (fun x => F32.is_finite x = true) v ->
  EuclideanDistanceSquared arch v v = F32.zero.
Proof.
  intros Hv.
  set (P := fun acc : float32 => acc = F32.zero).
  set (R := fun x y : float32 => x = y /\ F32.is_finite x = true).
  apply (EuclideanDistanceSquared_inv R P); subst P R; cbn beta.
  - done.
  - done.
  - by intros a b -> ->.
  - intros x y acc [<- Hx] ->. simpl. by rewrite sub_diag_finite.
  - intros x y acc [<- Hx] ->. simpl. by rewrite sub_diag_finite.
  - apply Forall_Forall2_diag. eapply Forall_impl; [exact Hv|]. by intros x Hx.
Qed.

Lemma contents_lookup s si sh rw :
  shards s !! si = Some sh -> rw ∈ rows_of (dim_of s) sh -> rw ∈ contents s.
Proof.
  intros Hsh Hrw. unfold contents. apply elem_of_concat.
  exists (rows_of (dim_of s) sh). split; [done|].
  apply list_elem_of_fmap_2. by eapply list_elem_of_lookup_2.
Qed.

(** The second of two identical inserts finds the row of the first and
    writes the same payload over it. *)
Lemma Insert_again D s v :
  store_ok D s -> ID v ≠ "" -> Z.of_nat (length (Data v)) = D ->
  let si := shardIndex (ID v) in
  let s1 := (Insert s v).1 in
  let s2 := (Insert s1 v).1 in
  (Insert s v).2 = None /\ (Insert s1 v).2 = None /\
  contents s2 = contents s1 /\
  (ID v, Data v) ∈ contents s1 /\
  exists idx,
    idIndex (shards s1 !!! si) !! ID v = Some idx /\
    rows_of (dim_of s1) (shards s2 !!! si)
      = <[idx := (ID v, Data v)]> (rows_of (dim_of s1) (shards s1 !!! si)).
Proof.
  intros Hok Hid Hlen si s1 s2.
  pose proof (Insert_ok D s v Hok) as Hok1. fold s1 in Hok1.
  pose proof (Insert_ok D s1 v Hok1) as Hok2. fold s2 in Hok2.
  assert (dim_of s1 = dim_of s) as Hd1.
  { unfold dim_of. by rewrite (proj1 Hok), (proj1 Hok1). }
  assert (dim_of s2 = dim_of s1) as Hd2.
  { unfold dim_of. by rewrite (proj1 Hok1), (proj1 Hok2). }
  destruct (Insert_success D s v Hok Hid Hlen) as (Hnone & _ & _ & idx & Hidx & Hrow).
  fold si s1 in Hidx, Hrow. rewrite <- Hd1 in Hrow.
  destruct (Insert_success D s1 v Hok1 Hid Hlen) as (Hnone2 & Hother & Hrows & _).
  fold si s2 in Hother, Hrows. rewrite Hidx in Hrows.
  pose proof (shardIndex_lt (ID v)) as Hlt. fold si in Hlt.
  assert (length (shards s1) = numShards) as Hl1 by apply Hok1.
  assert (length (shards s2) = numShards) as Hl2 by apply Hok2.
  assert (shards s1 !! si = Some (shards s1 !!! si)) as Hs1.
  { apply list_lookup_lookup_total_lt. lia. }
  assert (shards s2 !! si = Some (shards s2 !!! si)) as Hs2.
  { apply list_lookup_lookup_total_lt. lia. }
  split_and!; [done|done| | |].
  - unfold contents. rewrite Hd2. f_equal. apply list_eq. intros i.
    rewrite !list_lookup_fmap.
    destruct (decide (i = si)) as [->|Hne].
    + rewrite Hs1, Hs2. cbn. f_equal. rewrite Hrows. by apply list_insert_id.
    + by rewrite Hother.
  - eapply contents_lookup; [exact Hs1|]. by eapply list_elem_of_lookup_2.
  - by exists idx.
Qed.

(** C5, with ties at distance 0.  For every store built by insert and delete and every
    vector [v] with a non-empty id and [len(v.Data) = D]: both inserts
    succeed; the second finds the row of [v.ID], overwrites it in place
    with the same payload and appends nothing, so that the contents and
    [Count] are those after the first insert.  If moreover the
    components of [v.Data] are finite, the stored components are
    binary32 numbers and no distance from [v.Data] to a stored vector is
    NaN, then [Search] at [v.Data] with [k >= 1] succeeds and either
    returns [v.ID] at distance 0, or returns [k] other vectors that are
    all at distance 0 (ties are broken arbitrarily). *)
Theorem upsert_idempotent D arch procs s v k :
  reachable D s -> ID v ≠ "" -> Z.of_nat (length (Data v)) = D ->
  let si := shardIndex (ID v) in
  let s1 := (Insert s v).1 in
  let s2 := (Insert s1 v).1 in
  (Insert s v).2 = None /\ (Insert s1 v).2 = None /\
  Count s2 = Count s1 /\ contents s2 = contents s1 /\
  (exists idx,
     idIndex (shards s1 !!! si) !! ID v = Some idx /\
     rows_of (dim_of s1) (shards s2 !!! si)
       = <[idx := (ID v, Data v)]> (rows_of (dim_of s1) (shards s1 !!! si))) /\
  ((1 <= k)%Z ->
   Forall (fun x => F32.is_finite x = true) (Data v) ->
   Forall (fun rw : row => Forall wf32 rw.2) (contents s2) ->
   Forall (fun rw : row => F32.is_nan (EuclideanDistance arch (Data v) rw.2) = false)
     (contents s2) ->
   let out := (Search arch procs s2 (Data v) k).1 in
   (Search arch procs s2 (Data v) k).2 = None /\
   (mkResult (ID v) F32.zero ∈ out \/
    (length out = Z.to_nat k /\
     Forall (fun r => is_zero (Distance r) = true) out))).
Proof.
  intros Hreach Hid Hlen si s1 s2.
  pose proof (reachable_ok D s Hreach) as Hok.
  destruct (Insert_again D s v Hok Hid Hlen) as (Hn1 & Hn2 & Hcont & Hin & Hidx).
  fold si s1 s2 in Hn2, Hcont, Hin, Hidx.
  split_and!; [done|done|by rewrite !Count_contents, Hcont|done|done|].
  intros Hk Hfin Hwr Hnan out.
  assert (store_ok D s2) as Hok2 by (by do 2 apply Insert_ok).
  rewrite Forall_forall in Hwr, Hnan.
  rewrite <- Hcont in Hin.
  assert (Forall wf32 (Data v)) as Hwv by (by apply (Hwr _ Hin)).
  assert (Forall (fun rw : row =>
                    F32.is_nan (EuclideanDistanceSquared arch (Data v) rw.2) = false)
            (contents s2)) as Hsq.
  { apply Forall_forall. intros rw Hrw. apply sqrt32_nan. by apply Hnan. }
  destruct (Search_select D arch procs s2 (Data v) k Hok2 Hlen Hk Hsq)
    as (sel & rest & Hperm & Hs & Hlensel & Hsel & _).
  subst out. rewrite Hs. cbn [fst snd]. split; [done|].
  pose proof (EuclideanDistanceSquared_self arch (Data v) Hfin) as Hself.
  assert (EuclideanDistance arch (Data v) (Data v) = F32.zero) as Hself'.
  { unfold EuclideanDistance. by rewrite Hself. }
  rewrite Hperm in Hin. apply elem_of_app in Hin as [Hin|Hin].
  - left. apply list_elem_of_fmap. exists (ID v, Data v). split; [|done].
    cbn [fst snd]. by rewrite Hself'.
  - right. rewrite length_fmap. split.
    + apply Permutation_length in Hperm. rewrite length_app in Hperm.
      rewrite Count_contents in Hlensel.
      assert (0 < length rest) by (destruct rest; [by apply elem_of_nil in Hin|simpl; lia]).
      lia.
    + apply Forall_fmap, Forall_forall. intros y Hy. cbn.
      assert (y ∈ contents s2) as Hyc by (rewrite Hperm; apply elem_of_app; by left).
      pose proof (Hsel y _ Hy Hin) as Hlt. cbn [snd] in Hlt. rewrite Hself in Hlt.
      pose proof (squared_distance_ok D arch s2 (Data v) y Hok2 Hlen Hwv (Hwr _ Hyc) Hyc)
        as Hwf.
      pose proof (sqrt32_negative _ Hwf (Hnan _ Hyc)) as Hshape.
      unfold EuclideanDistance.
      destruct (EuclideanDistanceSquared arch (Data v) y.2) as [sy|[]| |[] my ey];
        done.
Qed.

Lemma upsert_idempotent_witness :
  let s := example_store3 in
  let v := mkVector "b" [F32.of_Z 7; F32.of_Z 8] in
  let s1 := (Insert s v).1 in
  let s2 := (Insert s1 v).1 in
  reachable 2 s /\ ID v ≠ "" /\ Z.of_nat (length (Data v)) = 2%Z /\
  (Insert s v).2 = None /\ (Insert s1 v).2 = None /\
  Count s2 = Count s1 /\ contents s2 = contents s1 /\
  (exists idx,
     idIndex (shards s1 !!! shardIndex (ID v)) !! ID v = Some idx /\
     rows_of (dim_of s1) (shards s2 !!! shardIndex (ID v))
       = <[idx := (ID v, Data v)]> (rows_of (dim_of s1) (shards s1 !!! shardIndex (ID v)))) /\
  (1 <= 1)%Z /\
  Forall (fun x => F32.is_finite x = true) (Data v) /\
  Forall (fun rw : row => Forall wf32 rw.2) (contents s2) /\
  Forall (fun rw : row => F32.is_nan (EuclideanDistance arm64 (Data v) rw.2) = false)
    (contents s2) /\
  ((Search arm64 4 s2 (Data v) 1).2 = None /\
   (mkResult (ID v) F32.zero ∈ (Search arm64 4 s2 (Data v) 1).1 \/
    (length (Search arm64 4 s2 (Data v) 1).1 = Z.to_nat 1 /\
     Forall (fun r => is_zero (Distance r) = true) (Search arm64 4 s2 (Data v) 1).1))).
Proof.
  intros s v s1 s2.
  assert (ID v ≠ "") as Hid by done.
  assert (Z.of_nat (length (Data v)) = 2%Z) as Hlen by reflexivity.
  assert ((1 <= 1)%Z) as Hk by lia.
  assert (Forall (fun x => F32.is_finite x = true) (Data v)) as Hfin
    by (repeat constructor).
  assert (Forall (fun rw : row => Forall wf32 rw.2) (contents s2)) as Hwr.
  { set (c := contents s2). vm_compute in c. subst c. repeat constructor. }
  assert (Forall (fun rw : row =>
                    F32.is_nan (EuclideanDistance arm64 (Data v) rw.2) = false)
            (contents s2)) as Hnan.
  { set (c := contents s2). vm_compute in c. subst c.
    repeat (constructor; [by vm_compute|]). constructor. }
  destruct (upsert_idempotent 2 arm64 4 s v 1 example_store3_reachable Hid Hlen)
    as (H1 & H2 & H3 & H4 & H5 & H6).
  split; [exact example_store3_reachable|]. split; [exact Hid|]. split; [exact Hlen|].
  split; [exact H1|]. split; [exact H2|]. split; [exact H3|]. split; [exact H4|].
  split; [exact H5|]. split; [exact Hk|]. split; [exact Hfin|].
  split; [exact Hwr|]. split; [exact Hnan|].
  exact (H6 Hk Hfin Hwr Hnan).
Defined.

(** C8, without the interval.  For vectors of binary32 components:
    [CosineSimilarity(a, b)] returns 0 whenever the magnitude of [a] or
    of [b] compares equal to 0; otherwise it returns
    [dot / (magA * magB)], and the divisor does not compare equal to 0:
    the product of two non-zero magnitudes does not underflow to zero.
    Every distance returned by [SearchCosine] is [1 - CosineSimilarity]
    of the query and a stored vector with the returned id.  (That
    distance is not confined to [0, 2].) *)
Theorem cosine_similarity_guard arch (a b : list float32) :
  Forall wf32 a -> Forall wf32 b ->
  let dot := DotProduct arch a b in
  let magA := Magnitude arch a in
  let magB := Magnitude arch b in
  (F32.eqb magA F32.zero = true \/ F32.eqb magB F32.zero = true ->
     CosineSimilarity arch a b = F32.zero) /\
  (F32.eqb magA F32.zero = false -> F32.eqb magB F32.zero = false ->
     CosineSimilarity arch a b = F32.div dot (F32.mul magA magB) /\
     F32.eqb (F32.mul magA magB) F32.zero = false) /\
  (forall D procs s k r,
     reachable D s -> r ∈ (SearchCosine arch procs s a k).1 ->
     exists rw, rw ∈ contents s /\ rID r = rw.1 /\
       Distance r = F32.sub F32.one (CosineSimilarity arch a rw.2)).
Proof.
  intros Ha Hb dot magA magB. split_and!.
  - intros Hz. unfold CosineSimilarity. fold magA magB.
    destruct Hz as [-> | ->]; [done|]. by rewrite orb_true_r.
  - intros HzA HzB. unfold CosineSimilarity. fold magA magB dot.
    rewrite HzA, HzB. split; [done|].
    apply mul_not_tiny; apply sqrt32_not_tiny; try done; by apply DotProduct_wf.
  - intros D procs s k r Hreach Hr.
    pose proof (reachable_ok D s Hreach) as (_ & Hlen & _).
    apply (knn_elem _ _ _ _ _ _ _ Hlen) in Hr as (rw & Hrw & ->).
    by exists rw.
Qed.


Lemma cosine_similarity_guard_witness :
  let a := [F32.of_Z 3; F32.of_Z 4] in
  let b := [F32.of_Z 1; F32.zero] in
  Forall wf32 a /\ Forall wf32 b /\
  (F32.eqb (Magnitude arm64 a) F32.zero = true \/
   F32.eqb (Magnitude arm64 b) F32.zero = true ->
     CosineSimilarity arm64 a b = F32.zero) /\
  (F32.eqb (Magnitude arm64 a) F32.zero = false ->
   F32.eqb (Magnitude arm64 b) F32.zero = false ->
     CosineSimilarity arm64 a b
       = F32.div (DotProduct arm64 a b) (F32.mul (Magnitude arm64 a) (Magnitude arm64 b)) /\
     F32.eqb (F32.mul (Magnitude arm64 a) (Magnitude arm64 b)) F32.zero = false) /\
  (forall D procs s k r,
     reachable D s -> r ∈ (SearchCosine arm64 procs s a k).1 ->
     exists rw, rw ∈ contents s /\ rID r = rw.1 /\
       Distance r = F32.sub F32.one (CosineSimilarity arm64 a rw.2)).
Proof.
  intros a b.
  assert (Forall wf32 a) as Ha by (repeat constructor).
  assert (Forall wf32 b) as Hb by (repeat constructor).
  split; [exact Ha|]. split; [exact Hb|].
  exact (cosine_similarity_guard arm64 a b Ha Hb).
Defined.


(* ===================================================================== *)
(** * The store as a finite map *)
(* ===================================================================== *)

(** The stored vectors, by identifier. *)
Definition store_map (s : VectorStore) : gmap string (list float32) :=
  list_to_map (contents s).

(** The effect of one operation on the map: an [Insert] that passes the
    two checks writes its payload under its identifier, a [Delete]
    removes the identifier. *)
Definition map_step (D : Z) (m : gmap string (list float32)) (o : op)
    : gmap string (list float32) :=
  match o with
  | OpInsert v =>
      if bool_decide (ID v ≠ "" /\ Z.of_nat (length (Data v)) = D)
      then <[ID v := Data v]> m else m
  | OpDelete id => delete id m
  end.

Lemma store_map_lookup D s id d :
  store_ok D s -> store_map s !! id = Some d <-> (id, d) ∈ contents s.
Proof.
  intros Hok. unfold store_map. symmetry.
  apply elem_of_list_to_map. by eapply contents_NoDup.
Qed.

Lemma store_map_None D s id :
  store_ok D s -> store_map s !! id = None <-> id ∉ (contents s).*1.
Proof. intros Hok. unfold store_map. symmetry. apply not_elem_of_list_to_map. Qed.

Lemma store_map_size D s : store_ok D s -> Count s = size (store_map s).
Proof.
  intros Hok. rewrite Count_contents. unfold store_map.
  rewrite map_size_list_to_map; [done|]. by eapply contents_NoDup.
Qed.

Lemma contents_routed D s id d :
  store_ok D s ->
  (id, d) ∈ contents s <-> (id, d) ∈ rows_of (dim_of s) (shards s !!! shardIndex id).
Proof.
  intros Hok. split.
  - intros Hin. unfold contents in Hin.
    apply elem_of_concat in Hin as (l & Hin & Hl).
    apply list_elem_of_fmap in Hl as (sh & -> & Hsh).
    apply list_elem_of_lookup in Hsh as [si Hsh].
    pose proof (store_ok_rows D s si sh Hok Hsh) as Hshard.
    assert (shardIndex id = si) as ->.
    { apply (ok_route _ _ _ _ Hshard). apply list_elem_of_fmap. by exists (id, d). }
    by rewrite (list_lookup_total_correct _ _ _ Hsh).
  - intros Hin. eapply contents_lookup; [|done].
    apply list_lookup_lookup_total_lt.
    destruct Hok as (_ & -> & _). apply shardIndex_lt.
Qed.

Lemma lookup_total_eq {A} `{Inhabited A} (l l' : list A) i :
  l !! i = l' !! i -> l !!! i = l' !!! i.
Proof. intros E. by rewrite !list_lookup_total_alt, E. Qed.

Lemma dim_of_ok D s : store_ok D s -> dim_of s = Z.to_nat D.
Proof. intros (HD & _). unfold dim_of. by rewrite HD. Qed.

(** The rows of the store after a successful [Insert]. *)
Lemma Insert_elem D s v id d :
  store_ok D s -> ID v ≠ "" -> Z.of_nat (length (Data v)) = D ->
  (id, d) ∈ contents (Insert s v).1 <->
  (id = ID v /\ d = Data v) \/ (id ≠ ID v /\ (id, d) ∈ contents s).
Proof.
  intros Hok Hid Hlen.
  pose proof (Insert_ok D s v Hok) as Hok'.
  rewrite (contents_routed D _ id d Hok'), (contents_routed D s id d Hok).
  rewrite (dim_of_ok D _ Hok'), <- (dim_of_ok D s Hok).
  destruct (Insert_success D s v Hok Hid Hlen) as (_ & Hother & Hrows & _).
  pose proof (shardIndex_lt (ID v)) as Hlt.
  destruct (store_ok_shard _ _ _ Hok Hlt) as (sh & rws & Hlk & Htot & Hshard & _).
  pose proof (shard_ok_rows _ _ _ _ Hshard) as Hr.
  rewrite <- (dim_of_ok D s Hok) in Hr.
  destruct (decide (shardIndex id = shardIndex (ID v))) as [E|E].
  - rewrite E, Hrows, Htot, Hr.
    pose proof (shard_ok_nodup _ _ _ _ Hshard) as Hnd.
    destruct (idIndex sh !! ID v) as [idx|] eqn:Hidx.
    + apply (ok_index _ _ _ _ Hshard) in Hidx.
      rewrite list_lookup_fmap in Hidx.
      destruct (rws !! idx) as [[id0 d0]|] eqn:Hrow; [|done].
      injection Hidx as ->.
      assert (idx < length rws) as Hlti by (by eapply lookup_lt_Some).
      split.
      * intros [j Hj]%list_elem_of_lookup.
        destruct (decide (j = idx)) as [->|Hne].
        -- rewrite list_lookup_insert_eq in Hj by done. injection Hj as <- <-. by left.
        -- rewrite list_lookup_insert_ne in Hj by done. right.
           split; [|by eapply list_elem_of_lookup_2].
           intros ->. apply Hne. eapply (NoDup_lookup _ _ _ _ Hnd).
           ++ by rewrite list_lookup_fmap, Hj.
           ++ by rewrite list_lookup_fmap, Hrow.
      * intros [[-> ->]|[Hne [j Hj]%list_elem_of_lookup]].
        -- apply list_elem_of_lookup. exists idx. by rewrite list_lookup_insert_eq.
        -- apply list_elem_of_lookup. exists j.
           rewrite list_lookup_insert_ne; [done|]. intros <-. congruence.
    + assert (ID v ∉ rws.*1) as Hnin.
      { intros [i Hi]%list_elem_of_lookup.
        apply (ok_index _ _ _ _ Hshard) in Hi. congruence. }
      rewrite elem_of_app, list_elem_of_singleton. split.
      * intros [Hin|[= -> ->]]; [|by left]. right. split; [|done].
        intros ->. apply Hnin. apply list_elem_of_fmap. by exists (ID v, d).
      * intros [[-> ->]|[_ Hin]]; [by right|by left].
  - rewrite (lookup_total_eq _ _ _ (Hother _ E)). split.
    + intros Hin. right. split; [|done]. by intros ->.
    + intros [[-> _]|[_ Hin]]; done.
Qed.

Lemma Insert_store_map D s v :
  store_ok D s -> ID v ≠ "" -> Z.of_nat (length (Data v)) = D ->
  store_map (Insert s v).1 = <[ID v := Data v]> (store_map s).
Proof.
  intros Hok Hid Hlen. pose proof (Insert_ok D s v Hok) as Hok'.
  apply map_eq. intros id. apply option_eq. intros d.
  rewrite (store_map_lookup D _ id d Hok'), (Insert_elem D s v id d Hok Hid Hlen).
  destruct (decide (id = ID v)) as [->|Hne].
  - rewrite lookup_insert_eq. split.
    + by intros [[_ ->]|[? _]].
    + intros [= ->]. by left.
  - rewrite lookup_insert_ne by done. rewrite (store_map_lookup D s id d Hok). split.
    + by intros [[? _]|[_ ?]].
    + intros ?. by right.
Qed.

Lemma Delete_not_found D s id :
  store_ok D s ->
  idIndex (shards s !!! shardIndex id) !! id = None <-> store_map s !! id = None.
Proof.
  intros Hok. rewrite (store_map_None D s id Hok).
  pose proof (shardIndex_lt id) as Hlt.
  destruct (store_ok_shard _ _ _ Hok Hlt) as (sh & rws & Hlk & Htot & Hshard & _).
  pose proof (shard_ok_rows _ _ _ _ Hshard) as Hr.
  rewrite <- (dim_of_ok D s Hok) in Hr. rewrite Htot. split.
  - intros Hnone [[id' d] [Hid Hin]]%list_elem_of_fmap. cbn in Hid. subst id'.
    apply (contents_routed D s id d Hok) in Hin. rewrite Htot, Hr in Hin.
    assert (id ∈ rws.*1) as [i Hi]%list_elem_of_lookup
      by (apply list_elem_of_fmap; by exists (id, d)).
    apply (ok_index _ _ _ _ Hshard) in Hi. congruence.
  - intros Hnin. destruct (idIndex sh !! id) as [i|] eqn:Hi; [|done].
    exfalso. apply Hnin. apply (ok_index _ _ _ _ Hshard) in Hi.
    rewrite list_lookup_fmap in Hi.
    destruct (rws !! i) as [[id' d]|] eqn:Hrow; [|done]. injection Hi as ->.
    apply list_elem_of_fmap. exists (id, d). split; [done|].
    apply (contents_routed D s id d Hok). rewrite Htot, Hr.
    by eapply list_elem_of_lookup_2.
Qed.

Lemma Delete_store_map D s id :
  store_ok D s -> store_map (Delete s id).1 = delete id (store_map s).
Proof.
  intros Hok. pose proof (Delete_ok D s id Hok) as Hok'.
  destruct (idIndex (shards s !!! shardIndex id) !! id) as [idx|] eqn:Hidx.
  - destruct (Delete_found D s id idx Hok Hidx) as (_ & _ & _ & vec & _ & Hperm).
    pose proof (contents_NoDup D s Hok) as Hnd.
    rewrite Hperm, fmap_cons in Hnd. apply NoDup_cons in Hnd as [Hnin Hnd].
    apply map_eq. intros id'. apply option_eq. intros d.
    rewrite (store_map_lookup D _ id' d Hok').
    destruct (decide (id' = id)) as [->|Hne].
    + rewrite lookup_delete_eq. split; [|done]. intros Hin. exfalso.
      apply Hnin. apply list_elem_of_fmap. by exists (id, d).
    + rewrite lookup_delete_ne by done. rewrite (store_map_lookup D s id' d Hok).
      rewrite Hperm, elem_of_cons. split; [by right|].
      intros [[= -> _]|?]; done.
  - assert ((Delete s id).1 = s) as -> by (unfold Delete; by rewrite Hidx).
    symmetry. apply delete_id. by apply (Delete_not_found D).
Qed.

(** X1.  On a store built by insert and delete, an [Insert] that passes
    the two checks acts on the stored vectors as the update of a finite
    map: afterwards [v.ID] has the payload [v.Data], every other
    identifier keeps its payload, and [Count] grows by one exactly when
    [v.ID] was not stored before. *)
Theorem Insert_as_map D s v :
  reachable D s -> ID v ≠ "" -> Z.of_nat (length (Data v)) = D ->
  let s' := (Insert s v).1 in
  store_map s' = <[ID v := Data v]> (store_map s) /\
  store_map s' !! ID v = Some (Data v) /\
  (forall id, id ≠ ID v -> store_map s' !! id = store_map s !! id) /\
  Count s' = match store_map s !! ID v with
             | Some _ => Count s
             | None => S (Count s)
             end.
Proof.
  intros Hreach Hid Hlen s'.
  pose proof (reachable_ok D s Hreach) as Hok.
  pose proof (Insert_ok D s v Hok) as Hok'. fold s' in Hok'.
  pose proof (Insert_store_map D s v Hok Hid Hlen) as Hmap. fold s' in Hmap.
  split_and!.
  - done.
  - by rewrite Hmap, lookup_insert_eq.
  - intros id Hne. by rewrite Hmap, lookup_insert_ne.
  - rewrite (store_map_size D s' Hok'), (store_map_size D s Hok), Hmap.
    rewrite map_size_insert. by destruct (store_map s !! ID v).
Qed.

Lemma Insert_as_map_witness :
  let s := example_store3 in
  let v := mkVector "d" [F32.of_Z 7; F32.of_Z 8] in
  let s' := (Insert s v).1 in
  reachable 2 s /\ ID v ≠ "" /\ Z.of_nat (length (Data v)) = 2%Z /\
  store_map s' = <[ID v := Data v]> (store_map s) /\
  store_map s' !! ID v = Some (Data v) /\
  (forall id, id ≠ ID v -> store_map s' !! id = store_map s !! id) /\
  Count s' = match store_map s !! ID v with
             | Some _ => Count s
             | None => S (Count s)
             end.
Proof.
  intros s v s'.
  assert (ID v ≠ "") as Hid by done.
  assert (Z.of_nat (length (Data v)) = 2%Z) as Hlen by reflexivity.
  split; [exact example_store3_reachable|]. split; [exact Hid|]. split; [exact Hlen|].
  exact (Insert_as_map 2 s v example_store3_reachable Hid Hlen).
Defined.

(** X2.  On a store built by insert and delete, [Delete(id)] acts on the
    stored vectors as the removal of [id] from a finite map; it returns
    NotFound exactly when [id] is not stored and succeeds otherwise; and
    a second [Delete(id)] right after always returns NotFound and changes
    nothing. *)
Theorem Delete_as_map D s id :
  reachable D s ->
  let s' := (Delete s id).1 in
  store_map s' = delete id (store_map s) /\
  ((Delete s id).2 = Some ErrNotFound <-> store_map s !! id = None) /\
  ((Delete s id).2 = None <-> is_Some (store_map s !! id)) /\
  Delete s' id = (s', Some ErrNotFound).
Proof.
  intros Hreach s'.
  pose proof (reachable_ok D s Hreach) as Hok.
  pose proof (Delete_ok D s id Hok) as Hok'. fold s' in Hok'.
  pose proof (Delete_store_map D s id Hok) as Hmap. fold s' in Hmap.
  pose proof (Delete_not_found D s id Hok) as Hnf.
  assert ((Delete s id).2 = Some ErrNotFound <-> store_map s !! id = None) as Herr.
  { rewrite <- Hnf. unfold Delete.
    destruct (idIndex (shards s !!! shardIndex id) !! id); split; done. }
  split_and!; [done|done| |].
  - rewrite <- not_eq_None_Some, <- Herr. unfold Delete.
    destruct (idIndex (shards s !!! shardIndex id) !! id); split; done.
  - assert (store_map s' !! id = None) as Hn by (by rewrite Hmap, lookup_delete_eq).
    apply (Delete_not_found D s' id Hok') in Hn. unfold Delete. by rewrite Hn.
Qed.

Lemma Delete_as_map_witness :
  let s := example_store3 in
  let id := "b" in
  let s' := (Delete s id).1 in
  reachable 2 s /\
  store_map s' = delete id (store_map s) /\
  ((Delete s id).2 = Some ErrNotFound <-> store_map s !! id = None) /\
  ((Delete s id).2 = None <-> is_Some (store_map s !! id)) /\
  Delete s' id = (s', Some ErrNotFound).
Proof.
  split; [exact example_store3_reachable|].
  exact (Delete_as_map 2 example_store3 "b" example_store3_reachable).
Defined.

Lemma run_ops_store_map D s os :
  store_ok D s ->
  store_ok D (run_ops s os) /\
  store_map (run_ops s os) = foldl (map_step D) (store_map s) os.
Proof.
  revert s. induction os as [|o os IH]; intros s Hok; [done|].
  cbn [run_ops foldl]. fold (run_ops (apply_op s o) os).
  assert (store_ok D (apply_op s o) /\
          store_map (apply_op s o) = map_step D (store_map s) o) as [Hok' Hstep].
  { destruct o as [v|id]; cbn [apply_op map_step].
    - split; [by apply Insert_ok|].
      case_bool_decide as Hv.
      + destruct Hv as [Hid Hlen]. by apply (Insert_store_map D).
      + unfold Insert. pose proof (proj1 Hok) as HD.
        case_bool_decide as Hid; [done|].
        case_bool_decide as Hlen; [done|].
        exfalso. apply Hv. split; [done|]. by rewrite HD in Hlen.
    - split; [by apply Delete_ok|by apply (Delete_store_map D)]. }
  destruct (IH _ Hok') as [IH1 IH2]. split; [done|]. by rewrite IH2, Hstep.
Qed.

(** X3.  Whatever sequence of [Insert] and [Delete] calls is run on a new
    store of dimension [D], the vectors stored at the end are those of
    the finite map obtained by running the same calls on the empty map
    (an [Insert] that fails a check does nothing), and [Count] is the
    number of identifiers of that map. *)
Theorem run_ops_as_map D os :
  let s := run_ops (NewVectorStore D) os in
  store_map s = foldl (map_step D) ∅ os /\
  Count s = size (foldl (map_step D) ∅ os) /\
  Dimension s = D.
Proof.
  intros s.
  destruct (run_ops_store_map D (NewVectorStore D) os (store_ok_new D)) as [Hok Hmap].
  fold s in Hok, Hmap.
  assert (store_map (NewVectorStore D) = ∅) as Hnew by done.
  rewrite Hnew in Hmap. split_and!; [done| |apply Hok].
  by rewrite (store_map_size D s Hok), Hmap.
Qed.

(** X4.  Inserting a vector under an identifier that is not stored and
    deleting it right after gives back the very same store:
    identifiers, data and index of every shard are as before. *)
Theorem Insert_Delete_roundtrip D s v :
  reachable D s -> ID v ≠ "" -> Z.of_nat (length (Data v)) = D ->
  store_map s !! ID v = None ->
  (Insert s v).2 = None /\
  Delete (Insert s v).1 (ID v) = (s, None).
Proof.
  intros Hreach Hid Hlen Hfresh.
  pose proof (reachable_ok D s Hreach) as Hok.
  apply (Delete_not_found D s (ID v) Hok) in Hfresh.
  pose proof (shardIndex_lt (ID v)) as Hlt.
  destruct (store_ok_shard _ _ _ Hok Hlt) as (sh & rws & Hlk & Htot & Hshard & Hd).
  rewrite Htot in Hfresh.
  assert (length (shards s) = numShards) as Hlens by apply Hok.
  assert (dimension s = D) as HD by apply Hok.
  unfold Insert.
  rewrite bool_decide_eq_false_2 by done.
  rewrite bool_decide_eq_false_2 by (intros ?; lia).
  rewrite Htot, Hfresh. cbn [fst snd]. split; [done|].
  unfold Delete. rewrite set_shard_lookup_eq by lia.
  cbn [idIndex ids data]. rewrite lookup_insert_eq.
  rewrite length_app. cbn [length].
  replace (length (ids sh) + 1 - 1) with (length (ids sh)) by lia.
  rewrite bool_decide_eq_false_2 by (intros Hne; by apply Hne).
  cbn [ids data idIndex].
  rewrite take_app_length, delete_insert_id by done.
  assert (take (length (ids sh) * dim_of (set_shard s (shardIndex (ID v))
                  (mkShard (ids sh ++ [ID v]) (data sh ++ Data v)
                     (<[ID v := length (ids sh)]> (idIndex sh)))))
            (data sh ++ Data v) = data sh) as ->.
  { assert (length (data sh) = length (ids sh) * dim_of s) as Hdl.
    { rewrite (ok_data _ _ _ _ Hshard), (ok_ids _ _ _ _ Hshard).
      rewrite (length_concat_uniform (Z.to_nat D)) by apply Hshard.
      rewrite !length_fmap. unfold dim_of. by rewrite HD. }
    change (dim_of (set_shard s _ _)) with (dim_of s).
    rewrite <- Hdl. apply take_app_length. }
  f_equal. unfold set_shard. cbn [shards dimension].
  rewrite list_insert_insert_eq.
  assert (mkShard (ids sh) (data sh) (idIndex sh) = sh) as -> by (by destruct sh).
  rewrite list_insert_id by done. by destruct s.
Qed.

Lemma Insert_Delete_roundtrip_witness :
  let s := example_store3 in
  let v := mkVector "d" [F32.of_Z 7; F32.of_Z 8] in
  reachable 2 s /\ ID v ≠ "" /\ Z.of_nat (length (Data v)) = 2%Z /\
  store_map s !! ID v = None /\
  (Insert s v).2 = None /\
  Delete (Insert s v).1 (ID v) = (s, None).
Proof.
  intros s v.
  assert (ID v ≠ "") as Hid by done.
  assert (Z.of_nat (length (Data v)) = 2%Z) as Hlen by reflexivity.
  assert (store_map s !! ID v = None) as Hfresh by (by vm_compute).
  split; [exact example_store3_reachable|]. split; [exact Hid|]. split; [exact Hlen|].
  split; [exact Hfresh|].
  exact (Insert_Delete_roundtrip 2 s v example_store3_reachable Hid Hlen Hfresh).
Defined.

(* ===================================================================== *)
(** * Size and members of a search result, whatever the distances *)
(* ===================================================================== *)

Section HeapSize.
Context {A : Type} `{Inhabited A}.
Variable less : A -> A -> bool.

Lemma offer_submseteq k (h : list A) x :
  (1 <= k)%Z -> offer less k h x ⊆+ x :: h.
Proof.
  intros Hk. unfold offer. destruct (Z.ltb_spec (Z.of_nat (length h)) k) as [Hlt|Hge].
  - apply Permutation_submseteq, heap_Push_perm.
  - assert (h ≠ []) as Hne by (intros ->; simpl in Hge; lia).
    destruct (less (h !!! 0) x).
    + rewrite heap_Push_perm. apply submseteq_skip.
      rewrite (heap_Pop_perm less h Hne) at 2. by apply submseteq_cons.
    + by apply submseteq_cons.
Qed.

Lemma offer_length k (h : list A) x :
  (1 <= k)%Z -> length h <= Z.to_nat k ->
  length (offer less k h x) = Z.to_nat k `min` S (length h).
Proof.
  intros Hk Hlen. unfold offer.
  destruct (Z.ltb_spec (Z.of_nat (length h)) k) as [Hlt|Hge].
  - rewrite (Permutation_length (heap_Push_perm less h x)). simpl. lia.
  - destruct (less (h !!! 0) x).
    + rewrite (Permutation_length (heap_Push_perm less _ x)). cbn [length].
      rewrite heap_Pop_length. lia.
    + lia.
Qed.

Lemma foldl_offer_submseteq k (xs h : list A) :
  (1 <= k)%Z -> foldl (offer less k) h xs ⊆+ xs ++ h.
Proof.
  intros Hk. revert h. induction xs as [|x xs IH]; intros h; [done|].
  cbn [foldl]. etrans; [apply IH|].
  etrans; [apply submseteq_skips_l, (offer_submseteq k h x Hk)|].
  apply Permutation_submseteq. by rewrite <- Permutation_middle.
Qed.

Lemma foldl_offer_length k (xs h : list A) :
  (1 <= k)%Z -> length h <= Z.to_nat k ->
  length (foldl (offer less k) h xs) = Z.to_nat k `min` (length h + length xs).
Proof.
  intros Hk. revert h. induction xs as [|x xs IH]; intros h Hlen.
  - simpl. lia.
  - cbn [foldl length]. rewrite IH; rewrite offer_length by done; lia.
Qed.

Lemma drain_perm (post : A -> A) fuel (h acc : list A) :
  fuel = length h -> drain less post fuel h acc ≡ₚ (post <$> h) ++ acc.
Proof.
  revert h acc. induction fuel as [|fuel IH]; intros h acc Hf.
  - by destruct h.
  - assert (h ≠ []) as Hne by (by destruct h).
    pose proof (heap_Pop_perm less h Hne) as Hp.
    pose proof (heap_Pop_length less h) as Hl.
    cbn [drain]. destruct (heap_Pop less h) as [x h']. cbn [fst snd] in *.
    rewrite IH by lia. rewrite Hp, fmap_cons. by rewrite <- Permutation_middle.
Qed.

Lemma drain_all_perm (post : A -> A) (h : list A) :
  drain_all less post h ≡ₚ post <$> h.
Proof. unfold drain_all. rewrite drain_perm by done. by rewrite app_nil_r. Qed.

End HeapSize.

Lemma concat_submseteq {A} (ls ks : list (list A)) :
  Forall2 submseteq ls ks -> concat ls ⊆+ concat ks.
Proof.
  induction 1 as [|l k ls ks Hlk _ IH]; [done|]. simpl. by apply submseteq_app.
Qed.

Lemma min_sum_min k (ns : list nat) :
  k `min` sum_list ((fun n => k `min` n) <$> ns) = k `min` sum_list ns.
Proof. induction ns as [|n ns IH]; [done|]. rewrite fmap_cons. simpl. lia. Qed.

Lemma length_concat_sum {A} (ls : list (list A)) :
  length (concat ls) = sum_list (length <$> ls).
Proof. induction ls as [|l ls IH]; [done|]. simpl. by rewrite length_app, IH. Qed.

Section KnnSize.
Variable procs : positive.
Variable metric : list float32 -> list float32 -> float32.

(** The final heap of [knn]: its size, and where its elements come
    from. *)
Lemma knn_heap s query k :
  length (shards s) = numShards -> (1 <= k)%Z ->
  let h := merge k (worker procs metric s query k <$> seq 0 (nWorkers procs)) in
  h ⊆+ candidate metric query <$> contents s /\
  length h = Z.to_nat k `min` Count s.
Proof.
  intros Hlen Hk h. subst h. rewrite merge_fold.
  set (ws := seq 0 (nWorkers procs)).
  assert (Forall2 submseteq (worker procs metric s query k <$> ws)
            ((fun w => candidate metric query <$> worker_rows procs s w) <$> ws)) as Hsub.
  { apply Forall2_fmap, Forall_Forall2_diag, Forall_forall. intros w _.
    rewrite worker_fold, drain_all_perm, list_fmap_id.
    etrans; [by apply foldl_offer_submseteq|]. by rewrite app_nil_r. }
  assert (concat ((fun w => candidate metric query <$> worker_rows procs s w) <$> ws)
          = candidate metric query <$> contents s) as Hcover.
  { rewrite <- (worker_rows_cover procs s Hlen). fold ws.
    rewrite <- concat_fmap_fmap, <- list_fmap_compose. done. }
  split.
  - etrans; [by apply foldl_offer_submseteq|]. rewrite app_nil_r.
    rewrite <- Hcover. by apply concat_submseteq.
  - rewrite foldl_offer_length by (simpl; lia). rewrite length_concat_sum.
    rewrite <- list_fmap_compose.
    assert (length ∘ worker procs metric s query k <$> ws
            = (fun n => Z.to_nat k `min` n) <$> (length ∘ worker_rows procs s <$> ws)) as ->.
    { rewrite <- list_fmap_compose. apply list_fmap_ext. intros _ w _.
      unfold compose.
      rewrite worker_fold, (Permutation_length (drain_all_perm _ _ _)), length_fmap.
      rewrite foldl_offer_length by (simpl; lia). by rewrite length_fmap. }
    cbn [length Nat.add]. rewrite min_sum_min.
    rewrite Count_contents, <- (worker_rows_cover procs s Hlen). fold ws.
    by rewrite length_concat_sum, <- list_fmap_compose.
Qed.

Lemma knn_size post s query k :
  length (shards s) = numShards -> Z.of_nat (length query) = dimension s ->
  let out := (knn procs metric post s query k).1 in
  (knn procs metric post s query k).2 = None /\
  length out = Z.to_nat k `min` Count s /\
  out ⊆+ post ∘ candidate metric query <$> contents s.
Proof.
  intros Hlen Hq out. subst out.
  destruct (Z.leb_spec k 0) as [Hk|Hk].
  - unfold knn. rewrite bool_decide_eq_false_2 by (intros ?; done).
    destruct (Z.leb_spec k 0); [|lia]. cbn [fst snd]. split_and!; [done| |].
    + simpl. lia.
    + apply submseteq_nil_l.
  - rewrite knn_success by lia. cbn [fst snd].
    destruct (knn_heap s query k Hlen ltac:(lia)) as [Hsub Hl]. cbv zeta in Hsub, Hl.
    split_and!; [done| |].
    + by rewrite length_fmap, (Permutation_length (drain_all_perm _ _ _)), length_fmap.
    + rewrite drain_all_perm, list_fmap_id, list_fmap_compose.
      by apply fmap_submseteq.
Qed.

End KnnSize.

Lemma submseteq_NoDup_fmap {A B} (f : A -> B) (l k : list A) :
  l ⊆+ k -> NoDup (f <$> k) -> NoDup (f <$> l).
Proof.
  intros Hsub Hnd. apply submseteq_Permutation in Hsub as [r Hr].
  rewrite Hr, fmap_app in Hnd. by apply NoDup_app in Hnd as [? _].
Qed.

(** X5.  On a store built by insert and delete and a query of the
    store's dimension, [Search] and [SearchCosine] succeed and return
    exactly [min(k, Count)] results ([0] for [k <= 0]), with pairwise
    different identifiers, each one the identifier of a stored vector
    together with the distance of the query to that vector.  This holds
    whatever the distances are, NaN included, and for every number of
    workers. *)
Theorem Search_size D arch procs s q k :
  reachable D s -> Z.of_nat (length q) = D ->
  let out := (Search arch procs s q k).1 in
  let outc := (SearchCosine arch procs s q k).1 in
  ((Search arch procs s q k).2 = None /\
   length out = Z.to_nat k `min` Count s /\
   NoDup (rID <$> out) /\
   (forall r, r ∈ out ->
      exists d, store_map s !! rID r = Some d /\
                Distance r = EuclideanDistance arch q d)) /\
  ((SearchCosine arch procs s q k).2 = None /\
   length outc = Z.to_nat k `min` Count s /\
   NoDup (rID <$> outc) /\
   (forall r, r ∈ outc ->
      exists d, store_map s !! rID r = Some d /\
                Distance r = CosineDistance arch q d)).
Proof.
  intros Hreach Hq out outc.
  pose proof (reachable_ok D s Hreach) as Hok.
  pose proof Hok as (HD & Hlen & _). rewrite <- HD in Hq.
  pose proof (contents_NoDup D s Hok) as Hnd.
  split.
  - destruct (knn_size procs (EuclideanDistanceSquared arch) sqrt_result s q k Hlen Hq)
      as (Hnone & Hl & Hsub).
    fold (Search arch procs s q k) in Hnone, Hl, Hsub. fold out in Hl, Hsub.
    split_and!; [done|done| |].
    + apply (submseteq_NoDup_fmap rID _ _ Hsub). by rewrite <- list_fmap_compose.
    + intros r Hr. apply (elem_of_submseteq _ _ _ Hr) in Hsub.
      apply list_elem_of_fmap in Hsub as ([id d] & -> & Hin).
      exists d. split; [|done]. by apply (store_map_lookup D).
  - destruct (knn_size procs (CosineDistance arch) id s q k Hlen Hq)
      as (Hnone & Hl & Hsub).
    fold (SearchCosine arch procs s q k) in Hnone, Hl, Hsub. fold outc in Hl, Hsub.
    split_and!; [done|done| |].
    + apply (submseteq_NoDup_fmap rID _ _ Hsub). by rewrite <- list_fmap_compose.
    + intros r Hr. apply (elem_of_submseteq _ _ _ Hr) in Hsub.
      apply list_elem_of_fmap in Hsub as ([id' d] & -> & Hin).
      exists d. split; [|done]. by apply (store_map_lookup D).
Qed.

Lemma store_nan_reachable : reachable 1 store_nan.
Proof. unfold store_nan. repeat constructor. Qed.

Lemma Search_size_witness :
  let s := store_nan in
  let q := [F32.zero] in
  reachable 1 s /\ Z.of_nat (length q) = 1%Z /\
  ((Search arm64 4 s q 1).2 = None /\
   length (Search arm64 4 s q 1).1 = Z.to_nat 1 `min` Count s /\
   NoDup (rID <$> (Search arm64 4 s q 1).1) /\
   (forall r, r ∈ (Search arm64 4 s q 1).1 ->
      exists d, store_map s !! rID r = Some d /\
                Distance r = EuclideanDistance arm64 q d)) /\
  ((SearchCosine arm64 4 s q 1).2 = None /\
   length (SearchCosine arm64 4 s q 1).1 = Z.to_nat 1 `min` Count s /\
   NoDup (rID <$> (SearchCosine arm64 4 s q 1).1) /\
   (forall r, r ∈ (SearchCosine arm64 4 s q 1).1 ->
      exists d, store_map s !! rID r = Some d /\
                Distance r = CosineDistance arm64 q d)).
Proof.
  intros s q.
  assert (Z.of_nat (length q) = 1%Z) as Hq by reflexivity.
  split; [exact store_nan_reachable|]. split; [exact Hq|].
  exact (Search_size 1 arm64 4 s q 1 store_nan_reachable Hq).
Defined.

(* ===================================================================== *)
(** * SearchCosine returns the nearest vectors *)
(* ===================================================================== *)

(** [out] lists [min(k, Count)] vectors of the store with their distance
    [dist]; no vector left out is nearer than a vector listed; and the
    distances do not decrease along [out]. *)
Definition nearest_by (dist : list float32 -> float32) (s : VectorStore) (k : Z)
    (out : list SearchResult) : Prop :=
  exists sel rest : list row,
    contents s ≡ₚ sel ++ rest /\
    out = (fun rw : row => mkResult rw.1 (dist rw.2)) <$> sel /\
    length sel = Z.to_nat k `min` Count s /\
    (forall y r : row, y ∈ sel -> r ∈ rest -> F32.leb (dist y.2) (dist r.2) = true) /\
    StronglySorted (fun a b => F32.leb (Distance a) (Distance b) = true) out.

(** The selection made by [knn], in terms of the values it compares. *)
Lemma knn_select D procs metric post s q k :
  store_ok D s -> Z.of_nat (length q) = D -> (1 <= k)%Z ->
  Forall (fun rw : row => F32.is_nan (metric q rw.2) = false) (contents s) ->
  exists sel rest : list row,
    contents s ≡ₚ sel ++ rest /\
    knn procs metric post s q k = (post ∘ candidate metric q <$> sel, None) /\
    length sel = Z.to_nat k `min` Count s /\
    (forall y r : row, y ∈ sel -> r ∈ rest ->
       F32.ltb (metric q r.2) (metric q y.2) = false) /\
    StronglySorted
      (fun a b : row => F32.ltb (metric q b.2) (metric q a.2) = false) sel.
Proof.
  intros Hok Hq Hk Hnan. pose proof Hok as (HD & Hlen & Hall).
  rewrite knn_success by lia.
  assert (Forall result_ok (candidate metric q <$> contents s))
    as Hcand by (apply Forall_fmap; exact Hnan).
  destruct (knn_topk procs metric s q k Hlen Hk Hcand)
    as (Hasc & Hlenres & rest' & Hperm & Habove).
  set (res := drain_all maxHeap_Less id _) in *.
  symmetry in Hperm. apply Permutation_map_inv in Hperm as (l3 & Heq & Hperm).
  symmetry in Heq. apply fmap_app_inv in Heq as (sel & rest & Hres & Hrest & ->).
  exists sel, rest. split_and!.
  - done.
  - rewrite Hres, <- list_fmap_compose. done.
  - rewrite Count_contents. rewrite Hres, !length_fmap in Hlenres. done.
  - intros y r Hy Hr.
    apply (Habove (candidate metric q r) (candidate metric q y)).
    + rewrite Hrest. by apply list_elem_of_fmap_2.
    + rewrite Hres. by apply list_elem_of_fmap_2.
  - rewrite Hres in Hasc. by apply StronglySorted_fmap_inv in Hasc.
Qed.

(** X6.  On a store built by insert and delete and a query of the store's
    dimension, if no cosine distance from the query to a stored vector is
    NaN, [SearchCosine] succeeds and returns [min(k, Count)] stored
    vectors with their cosine distance to the query, such that no vector
    left out has a lower cosine distance than a vector returned (ties
    broken arbitrarily) and the distances returned do not decrease. *)
Theorem SearchCosine_nearest D arch procs s q k :
  reachable D s -> Z.of_nat (length q) = D ->
  Forall (fun rw : row => F32.is_nan (CosineDistance arch q rw.2) = false)
    (contents s) ->
  (SearchCosine arch procs s q k).2 = None /\
  nearest_by (CosineDistance arch q) s k (SearchCosine arch procs s q k).1.
Proof.
  intros Hreach Hq Hnan.
  pose proof (reachable_ok D s Hreach) as Hok.
  pose proof Hok as (HD & Hlen & _).
  unfold SearchCosine.
  destruct (Z.leb_spec k 0) as [Hk|Hk].
  - unfold knn. rewrite bool_decide_eq_false_2 by (intros ?; lia).
    destruct (Z.leb_spec k 0); [|lia]. cbn [fst snd]. split; [done|].
    exists [], (contents s). split_and!; try done.
    + cbn [length]. lia.
    + intros y r Hy. by apply elem_of_nil in Hy.
    + constructor.
  - destruct (knn_select D procs (CosineDistance arch) id s q k Hok Hq ltac:(lia) Hnan)
      as (sel & rest & Hperm & -> & Hlensel & Hsel & Hsorted).
    cbn [fst snd]. split; [done|].
    rewrite Forall_forall in Hnan.
    assert (forall rw, rw ∈ sel ++ rest ->
              F32.is_nan (CosineDistance arch q rw.2) = false) as Hrow.
    { intros rw Hrw. rewrite <- Hperm in Hrw. by apply Hnan. }
    exists sel, rest. split_and!; [done|done|done| |].
    + intros y r Hy Hr. apply SFleb_not_ltb.
      * apply Hrow, elem_of_app. by left.
      * apply Hrow, elem_of_app. by right.
      * by apply Hsel.
    + eapply StronglySorted_fmap_elem; [|exact Hsorted].
      intros x y Hx Hy Hxy. cbn. apply SFleb_not_ltb; [| |done].
      * apply Hrow, elem_of_app. by left.
      * apply Hrow, elem_of_app. by left.
Qed.

Lemma SearchCosine_nearest_witness :
  let s := example_store3 in
  let q := [F32.of_Z 1; F32.of_Z 2] in
  reachable 2 s /\ Z.of_nat (length q) = 2%Z /\
  Forall (fun rw : row => F32.is_nan (CosineDistance arm64 q rw.2) = false)
    (contents s) /\
  (SearchCosine arm64 4 s q 2).2 = None /\
  nearest_by (CosineDistance arm64 q) s 2 (SearchCosine arm64 4 s q 2).1.
Proof.
  intros s q.
  assert (Z.of_nat (length q) = 2%Z) as Hq by reflexivity.
  assert (Forall (fun rw : row => F32.is_nan (CosineDistance arm64 q rw.2) = false)
            (contents s)) as Hnan.
  { set (c := contents s). vm_compute in c. subst c.
    repeat (constructor; [by vm_compute|]). constructor. }
  split; [exact example_store3_reachable|]. split; [exact Hq|]. split; [exact Hnan|].
  exact (SearchCosine_nearest 2 arm64 4 s q 2 example_store3_reachable Hq Hnan).
Defined.

(* ===================================================================== *)
(** * Distances are never negative *)
(* ===================================================================== *)

Lemma has_sign_false_sign x : has_sign false x -> F32.sign x = false.
Proof. by destruct x. Qed.

Lemma sign_false_ltb x : F32.sign x = false -> F32.ltb x F32.zero = false.
Proof. destruct x as [s|s| |s m e]; simpl; intros Hs; by subst. Qed.

Lemma binary_normalize_pos_sign prec emax (a b : positive) e :
  F32.sign (binary_normalize prec emax (Z.pos a + Z.pos b) e false) = false.
Proof. simpl. apply has_sign_false_sign, binary_round_sign. Qed.

Lemma add_sign x y :
  F32.sign x = false -> F32.sign y = false -> F32.sign (F32.add x y) = false.
Proof.
  destruct x as [sx|sx| |sx mx ex], y as [sy|sy| |sy my ey]; simpl;
    intros Hx Hy; subst; try done.
  apply (binary_normalize_pos_sign F32.prec F32.emax).
Qed.

Lemma mul_self_sign x : F32.sign (F32.mul x x) = false.
Proof.
  destruct x as [s|s| |s m e]; try done; try (by destruct s).
  unfold F32.mul. cbn [SFmul]. rewrite xorb_nilpotent.
  apply has_sign_false_sign, binary_round_aux_sign. done.
Qed.

Lemma fma_self_sign x acc :
  F32.sign acc = false -> F32.sign (F32.fma x x acc) = false.
Proof.
  intros Hacc. unfold F32.fma.
  destruct x as [s|s| |s m e].
  - rewrite xorb_nilpotent. destruct acc as [sz|sz| |sz mz ez]; simpl in *; by subst.
  - rewrite xorb_nilpotent. destruct acc as [sz|sz| |sz mz ez]; simpl in *; by subst.
  - done.
  - destruct acc as [sz|sz| |sz mz ez]; simpl in Hacc; subst; try done.
    + apply mul_self_sign.
    + rewrite xorb_nilpotent. cbn [cond_Zopp].
      apply (binary_normalize_pos_sign F32.prec F32.emax).
Qed.

Lemma EuclideanDistanceSquared_sign arch (a b : list float32) :
  length a = length b -> F32.sign (EuclideanDistanceSquared arch a b) = false.
Proof.
  intros Hlen.
  apply (EuclideanDistanceSquared_inv (fun _ _ => True) (fun x => F32.sign x = false)).
  - done.
  - done.
  - apply add_sign.
  - intros x y acc _ Hacc. apply add_sign; [done|apply mul_self_sign].
  - intros x y acc _ Hacc. by apply fma_self_sign.
  - by apply Forall2_true.
Qed.

Lemma DotProduct_self_sign arch (v : list float32) :
  F32.sign (DotProduct arch v v) = false.
Proof.
  apply (DotProduct_inv (fun x y => x = y) (fun x => F32.sign x = false)).
  - done.
  - done.
  - apply add_sign.
  - intros x y acc <- Hacc. apply add_sign; [done|apply mul_self_sign].
  - intros x y acc <- Hacc. apply add_sign; [done|apply mul_self_sign].
  - intros x y acc <- Hacc. by apply fma_self_sign.
  - by apply Forall_Forall2_diag, Forall_true.
Qed.

Lemma SFsqrt_core_nonneg prec emax (m : positive) e :
  (0 <= (SFsqrt_core_binary prec emax (Z.pos m) e).1.1)%Z.
Proof.
  unfold SFsqrt_core_binary.
  set (s := (e - 2 * _)%Z).
  set (m' := match s with Z0 => Z.pos m | Z.pos _ => Z.shiftl (Z.pos m) s | Z.neg _ => 0%Z end).
  assert (0 <= m')%Z as Hm'.
  { subst m'. destruct s; [lia| |lia]. apply Z.shiftl_nonneg. lia. }
  pose proof (Z.sqrtrem_spec m' Hm') as Hs.
  destruct (Z.sqrtrem m') as [q r]. cbn [fst]. nia.
Qed.

Lemma sqrt32_sign x : F32.sign x = false -> F32.sign (sqrt32 x) = false.
Proof.
  intros Hx. unfold sqrt32.
  assert (F32.sign (F64.of_f32 x) = false) as H1.
  { destruct x as [s|s| |s m e]; simpl in *; subst; try done.
    apply has_sign_false_sign, binary_round_sign. }
  assert (F32.sign (F64.sqrt (F64.of_f32 x)) = false) as H2.
  { destruct (F64.of_f32 x) as [s|s| |s m e]; simpl in *; subst; try done.
    pose proof (SFsqrt_core_nonneg F64.prec F64.emax m e) as Hq.
    destruct (SFsqrt_core_binary F64.prec F64.emax (Z.pos m) e) as [[mz ez] lz].
    by apply has_sign_false_sign, binary_round_aux_sign. }
  destruct (F64.sqrt (F64.of_f32 x)) as [s|s| |s m e]; simpl in *; subst; try done.
  apply has_sign_false_sign, binary_round_sign.
Qed.

(** X7.  A distance is never negative.  For vectors of equal length the
    squared Euclidean distance and the Euclidean distance have a clear
    sign bit (they are [+0], positive, [+Inf] or NaN, never [-0]) and
    never compare below 0, on every platform and for every input; so has
    the magnitude of a vector; and so has every distance returned by
    [Search]. *)
Theorem distance_nonnegative arch (a b : list float32) :
  length a = length b ->
  (F32.sign (EuclideanDistanceSquared arch a b) = false /\
   F32.ltb (EuclideanDistanceSquared arch a b) F32.zero = false) /\
  (F32.sign (EuclideanDistance arch a b) = false /\
   F32.ltb (EuclideanDistance arch a b) F32.zero = false) /\
  (F32.sign (Magnitude arch a) = false /\
   F32.ltb (Magnitude arch a) F32.zero = false) /\
  (forall D procs s k r,
     reachable D s -> Z.of_nat (length a) = D ->
     r ∈ (Search arch procs s a k).1 ->
     F32.sign (Distance r) = false /\ F32.ltb (Distance r) F32.zero = false).
Proof.
  intros Hlen.
  pose proof (EuclideanDistanceSquared_sign arch a b Hlen) as Hsq.
  pose proof (sqrt32_sign _ Hsq) as Hd.
  pose proof (sqrt32_sign _ (DotProduct_self_sign arch a)) as Hm.
  split_and!; try done; try (by apply sign_false_ltb).
  intros D procs s k r Hreach Hq Hr.
  pose proof (reachable_ok D s Hreach) as Hok.
  apply (knn_elem _ _ _ _ _ _ _ (proj1 (proj2 Hok))) in Hr as (rw & Hrw & ->).
  assert (F32.sign (Distance (sqrt_result (candidate (EuclideanDistanceSquared arch) a rw)))
          = false) as Hs.
  { cbn. apply sqrt32_sign, EuclideanDistanceSquared_sign.
    rewrite (contents_row_length D s rw Hok Hrw). lia. }
  split; [done|by apply sign_false_ltb].
Qed.

Lemma distance_nonnegative_witness :
  let a := [F32.of_Z 1; F32.of_scaled (-3) (-1); S754_zero true; F32.of_Z 4; F32.of_Z 5] in
  let b := [F32.of_Z 2; F32.of_Z 7; F32.zero; S754_infinity true; F32.of_Z 5] in
  length a = length b /\
  (F32.sign (EuclideanDistanceSquared arm64 a b) = false /\
   F32.ltb (EuclideanDistanceSquared arm64 a b) F32.zero = false) /\
  (F32.sign (EuclideanDistance arm64 a b) = false /\
   F32.ltb (EuclideanDistance arm64 a b) F32.zero = false) /\
  (F32.sign (Magnitude arm64 a) = false /\
   F32.ltb (Magnitude arm64 a) F32.zero = false) /\
  (forall D procs s k r,
     reachable D s -> Z.of_nat (length a) = D ->
     r ∈ (Search arm64 procs s a k).1 ->
     F32.sign (Distance r) = false /\ F32.ltb (Distance r) F32.zero = false).
Proof.
  intros a b.
  assert (length a = length b) as Hlen by reflexivity.
  split; [exact Hlen|].
  exact (distance_nonnegative arm64 a b Hlen).
Defined.

(* ===================================================================== *)
(** * The kernels are symmetric in their two arguments *)
(* ===================================================================== *)

Section KernelSwap.
Context {T : Type} `{Arith T}.
Hypothesis mul_comm : forall x y : T, a_mul x y = a_mul y x.
Hypothesis fma_comm : forall x y z : T, a_fma x y z = a_fma y x z.
Hypothesis sq_sub :
  forall x y : T, a_mul (a_sub x y) (a_sub x y) = a_mul (a_sub y x) (a_sub y x).
Hypothesis fma_sq_sub :
  forall x y z : T,
    a_fma (a_sub x y) (a_sub x y) z = a_fma (a_sub y x) (a_sub y x) z.

(** The register file with the two pointers exchanged. *)
Definition swap_regs (r : regs T) : regs T :=
  mkRegs (R1 r) (R2 r) (R0 r) (V0 r) (V1 r) (V2 r) (V3 r).

Lemma vfmla_comm (m n d : V4 T) : vfmla m n d = vfmla n m d.
Proof. unfold vfmla. f_equal; apply fma_comm. Qed.

Lemma vfmla_sq_sub (n m d : V4 T) :
  vfmla (vfsub n m) (vfsub n m) d = vfmla (vfsub m n) (vfsub m n) d.
Proof. unfold vfmla, vfsub. cbn [lane0 lane1 lane2 lane3]. f_equal; apply fma_sq_sub. Qed.

Lemma dot_scalar_from_swap sum (a b : list T) :
  dot_scalar_from sum a b = dot_scalar_from sum b a.
Proof.
  revert sum b. induction a as [|x a IH]; intros sum [|y b]; try done.
  cbn [dot_scalar_from]. by rewrite IH, mul_comm.
Qed.

Lemma euclidean_scalar_from_swap sum (a b : list T) :
  euclidean_scalar_from sum a b = euclidean_scalar_from sum b a.
Proof.
  revert sum b. induction a as [|x a IH]; intros sum [|y b]; try done.
  cbn [euclidean_scalar_from]. cbv zeta. by rewrite IH, sq_sub.
Qed.

Lemma dot_loop16_swap fuel (r : regs T) :
  dot_loop16 fuel (swap_regs r) = swap_regs (dot_loop16 fuel r).
Proof.
  revert r. induction fuel as [|fuel IH]; intros r; [done|].
  cbn [dot_loop16]. cbn [swap_regs R0 R1 R2 V0 V1 V2 V3].
  destruct (R1 r <? 16); [done|]. cbv zeta. rewrite <- IH.
  unfold swap_regs. cbn [R0 R1 R2 V0 V1 V2 V3].
  f_equal. f_equal; apply vfmla_comm.
Qed.

Lemma dot_loop4_swap fuel (r : regs T) :
  dot_loop4 fuel (swap_regs r) = swap_regs (dot_loop4 fuel r).
Proof.
  revert r. induction fuel as [|fuel IH]; intros r; [done|].
  cbn [dot_loop4]. cbn [swap_regs R0 R1 R2 V0 V1 V2 V3].
  destruct (R1 r <? 4); [done|]. cbv zeta. rewrite <- IH.
  unfold swap_regs. cbn [R0 R1 R2 V0 V1 V2 V3].
  f_equal. f_equal; apply vfmla_comm.
Qed.

Lemma euc_loop16_swap fuel (r : regs T) :
  euc_loop16 fuel (swap_regs r) = swap_regs (euc_loop16 fuel r).
Proof.
  revert r. induction fuel as [|fuel IH]; intros r; [done|].
  cbn [euc_loop16]. cbn [swap_regs R0 R1 R2 V0 V1 V2 V3].
  destruct (R1 r <? 16); [done|]. cbv zeta. rewrite <- IH.
  unfold swap_regs. cbn [R0 R1 R2 V0 V1 V2 V3].
  f_equal. f_equal; apply vfmla_sq_sub.
Qed.

Lemma euc_loop4_swap fuel (r : regs T) :
  euc_loop4 fuel (swap_regs r) = swap_regs (euc_loop4 fuel r).
Proof.
  revert r. induction fuel as [|fuel IH]; intros r; [done|].
  cbn [euc_loop4]. cbn [swap_regs R0 R1 R2 V0 V1 V2 V3].
  destruct (R1 r <? 4); [done|]. cbv zeta. rewrite <- IH.
  unfold swap_regs. cbn [R0 R1 R2 V0 V1 V2 V3].
  f_equal. f_equal; apply vfmla_sq_sub.
Qed.

Lemma dot_tail_swap n f0 (pa pb : list T) :
  dot_tail n f0 pa pb = dot_tail n f0 pb pa.
Proof.
  revert f0 pa pb. induction n as [|n IH]; intros f0 pa pb; [done|].
  cbn [dot_tail]. cbv zeta. by rewrite IH, mul_comm.
Qed.

Lemma euc_tail_swap n f0 (pa pb : list T) :
  euc_tail n f0 pa pb = euc_tail n f0 pb pa.
Proof.
  revert f0 pa pb. induction n as [|n IH]; intros f0 pa pb; [done|].
  cbn [euc_tail]. cbv zeta. by rewrite IH, sq_sub.
Qed.

Lemma neon_entry_swap (a b : list T) :
  length a = length b -> neon_entry b a = swap_regs (neon_entry a b).
Proof. intros Hlen. unfold neon_entry, swap_regs. cbn. by rewrite Hlen. Qed.

Lemma dotProductNEON_swap (a b : list T) :
  length a = length b -> dotProductNEON a b = dotProductNEON b a.
Proof.
  intros Hlen. unfold dotProductNEON. cbv zeta.
  rewrite (neon_entry_swap a b Hlen), <- Hlen.
  rewrite dot_loop16_swap, dot_loop4_swap.
  set (r := dot_loop4 _ _). cbn [swap_regs R0 R1 R2].
  by rewrite dot_tail_swap.
Qed.

Lemma euclideanDistanceSquaredNEON_swap (a b : list T) :
  length a = length b ->
  euclideanDistanceSquaredNEON a b = euclideanDistanceSquaredNEON b a.
Proof.
  intros Hlen. unfold euclideanDistanceSquaredNEON. cbv zeta.
  rewrite (neon_entry_swap a b Hlen), <- Hlen.
  rewrite euc_loop16_swap, euc_loop4_swap.
  set (r := euc_loop4 _ _). cbn [swap_regs R0 R1 R2].
  by rewrite euc_tail_swap.
Qed.

Lemma DotProduct_swap arch (a b : list T) :
  length a = length b -> DotProduct arch a b = DotProduct arch b a.
Proof.
  intros Hlen. unfold DotProduct, dotProductPlatform. rewrite <- Hlen.
  destruct arch; [destruct (4 <=? length a)|].
  - by apply dotProductNEON_swap.
  - apply dot_scalar_from_swap.
  - apply dot_scalar_from_swap.
Qed.

Lemma EuclideanDistanceSquared_swap arch (a b : list T) :
  length a = length b ->
  EuclideanDistanceSquared arch a b = EuclideanDistanceSquared arch b a.
Proof.
  intros Hlen. unfold EuclideanDistanceSquared, euclideanDistanceSquaredPlatform.
  rewrite <- Hlen.
  destruct arch; [destruct (4 <=? length a)|].
  - by apply euclideanDistanceSquaredNEON_swap.
  - apply euclidean_scalar_from_swap.
  - apply euclidean_scalar_from_swap.
Qed.

End KernelSwap.

(** ** The binary32 operations the symmetry rests on *)

Lemma F32_mul_comm x y : F32.mul x y = F32.mul y x.
Proof.
  destruct x as [sx|sx| |sx mx ex], y as [sy|sy| |sy my ey]; unfold F32.mul;
    cbn [SFmul]; rewrite ?(xorb_comm sx sy); try done.
  by rewrite (Pos.mul_comm mx my), (Z.add_comm ex ey).
Qed.

Lemma F32_fma_comm x y z : F32.fma x y z = F32.fma y x z.
Proof.
  destruct x as [sx|sx| |sx mx ex], y as [sy|sy| |sy my ey]; unfold F32.fma;
    rewrite ?(xorb_comm sx sy); try done.
  destruct z as [sz|sz| |sz mz ez]; try done.
  - apply F32_mul_comm.
  - by rewrite (Pos.mul_comm mx my), (Z.add_comm ex ey).
Qed.

Lemma round_result_opp prec emax s m e :
  round_result prec emax (negb s) m e = SFopp (round_result prec emax s m e).
Proof.
  unfold round_result. destruct m; [done| |done].
  by destruct (_ <=? _)%Z.
Qed.

Lemma binary_round_opp prec emax s m e :
  binary_round prec emax (negb s) m e = SFopp (binary_round prec emax s m e).
Proof.
  unfold binary_round. destruct (shl_align m e _) as [mz ez].
  rewrite !binary_round_aux_spec by done. cbv zeta. apply round_result_opp.
Qed.

(** [y - x] is [x - y] with the sign changed, or both are the same zero
    or NaN. *)
Lemma F32_sub_swap x y :
  F32.sub y x = SFopp (F32.sub x y) \/
  (F32.sub y x = F32.sub x y /\
   (F32.sub x y = S754_nan \/ F32.sub x y = F32.zero)).
Proof.
  destruct x as [[]|[]| |sx mx ex], y as [[]|[]| |sy my ey]; unfold F32.sub;
    cbn [SFsub SFopp negb]; rewrite ?negb_involutive; auto.
  rewrite (Z.min_comm ey ex).
  set (A := cond_Zopp sx (Z.pos (shl_align mx ex (ex `min` ey)).1)).
  set (B := cond_Zopp sy (Z.pos (shl_align my ey (ex `min` ey)).1)).
  assert (B - A = - (A - B))%Z as -> by lia.
  destruct (A - B)%Z as [|p|p]; cbn [Z.opp binary_normalize].
  - right. auto.
  - left. apply (binary_round_opp _ _ false).
  - left. apply (binary_round_opp _ _ true).
Qed.

Lemma F32_mul_opp d : F32.mul (SFopp d) (SFopp d) = F32.mul d d.
Proof. destruct d as [[]|[]| |[] m e]; done. Qed.

Lemma F32_fma_opp d z : F32.fma (SFopp d) (SFopp d) z = F32.fma d d z.
Proof. destruct d as [[]|[]| |[] m e]; done. Qed.

Lemma F32_sq_sub x y :
  F32.mul (F32.sub x y) (F32.sub x y) = F32.mul (F32.sub y x) (F32.sub y x).
Proof.
  destruct (F32_sub_swap x y) as [-> | [-> _]]; [|done].
  by rewrite F32_mul_opp.
Qed.

Lemma F32_fma_sq_sub x y z :
  F32.fma (F32.sub x y) (F32.sub x y) z = F32.fma (F32.sub y x) (F32.sub y x) z.
Proof.
  destruct (F32_sub_swap x y) as [-> | [-> _]]; [|done].
  by rewrite F32_fma_opp.
Qed.

(** X8.  The Euclidean distance is symmetric, bit for bit: for vectors
    of equal length, [EuclideanDistanceSquared(a, b)] and
    [EuclideanDistance(a, b)] equal their value at [(b, a)], on the
    scalar path, on the NEON path and through the dispatch of every
    platform, for all inputs (NaN and infinities included). *)
Theorem EuclideanDistance_symmetric (a b : list float32) :
  length a = length b ->
  EuclideanDistanceSquaredScalar a b = EuclideanDistanceSquaredScalar b a /\
  euclideanDistanceSquaredNEON a b = euclideanDistanceSquaredNEON b a /\
  (forall arch,
     EuclideanDistanceSquared arch a b = EuclideanDistanceSquared arch b a /\
     EuclideanDistance arch a b = EuclideanDistance arch b a).
Proof.
  intros Hlen. split_and!.
  - apply (euclidean_scalar_from_swap (H := float32_arith) F32_sq_sub).
  - by apply (euclideanDistanceSquaredNEON_swap (H := float32_arith) F32_sq_sub F32_fma_sq_sub).
  - intros arch.
    pose proof (EuclideanDistanceSquared_swap (H := float32_arith)
                  F32_sq_sub F32_fma_sq_sub arch a b Hlen)
      as Hsq.
    split; [done|]. unfold EuclideanDistance. by rewrite Hsq.
Qed.

Lemma EuclideanDistance_symmetric_witness :
  let a := [F32.of_Z 1; F32.of_scaled (-3) (-1); S754_zero true; F32.of_Z 4; S754_nan] in
  let b := [F32.of_Z 2; F32.of_Z 7; F32.zero; S754_infinity true; F32.of_Z 5] in
  length a = length b /\
  EuclideanDistanceSquaredScalar a b = EuclideanDistanceSquaredScalar b a /\
  euclideanDistanceSquaredNEON a b = euclideanDistanceSquaredNEON b a /\
  (forall arch,
     EuclideanDistanceSquared arch a b = EuclideanDistanceSquared arch b a /\
     EuclideanDistance arch a b = EuclideanDistance arch b a).
Proof.
  intros a b.
  assert (length a = length b) as Hlen by reflexivity.
  split; [exact Hlen|].
  exact (EuclideanDistance_symmetric a b Hlen).
Defined.

(** X9.  The dot product and the cosine measures are symmetric, bit for
    bit: for vectors of equal length, [DotProduct], [CosineSimilarity]
    and [CosineDistance] at [(a, b)] equal their value at [(b, a)], on
    the scalar path, on the NEON path and through the dispatch of every
    platform, for all inputs. *)
Theorem DotProduct_symmetric (a b : list float32) :
  length a = length b ->
  DotProductScalar a b = DotProductScalar b a /\
  dotProductNEON a b = dotProductNEON b a /\
  (forall arch,
     DotProduct arch a b = DotProduct arch b a /\
     CosineSimilarity arch a b = CosineSimilarity arch b a /\
     CosineDistance arch a b = CosineDistance arch b a).
Proof.
  intros Hlen. split_and!.
  - apply (dot_scalar_from_swap (H := float32_arith) F32_mul_comm).
  - by apply (dotProductNEON_swap (H := float32_arith) F32_mul_comm F32_fma_comm).
  - intros arch.
    pose proof (DotProduct_swap (H := float32_arith)
                  F32_mul_comm F32_fma_comm arch a b Hlen) as Hdot.
    assert (CosineSimilarity arch a b = CosineSimilarity arch b a) as Hcos.
    { unfold CosineSimilarity. cbv zeta. rewrite Hdot.
      rewrite (orb_comm (F32.eqb (Magnitude arch a) F32.zero)).
      by rewrite (F32_mul_comm (Magnitude arch a)). }
    split; [done|]. split; [done|]. unfold CosineDistance. by rewrite Hcos.
Qed.

Lemma DotProduct_symmetric_witness :
  let a := [F32.of_Z 1; F32.of_scaled (-3) (-1); S754_zero true; F32.of_Z 4; S754_nan] in
  let b := [F32.of_Z 2; F32.of_Z 7; F32.zero; S754_infinity true; F32.of_Z 5] in
  length a = length b /\
  DotProductScalar a b = DotProductScalar b a /\
  dotProductNEON a b = dotProductNEON b a /\
  (forall arch,
     DotProduct arch a b = DotProduct arch b a /\
     CosineSimilarity arch a b = CosineSimilarity arch b a /\
     CosineDistance arch a b = CosineDistance arch b a).
Proof.
  intros a b.
  assert (length a = length b) as Hlen by reflexivity.
  split; [exact Hlen|].
  exact (DotProduct_symmetric a b Hlen).
Defined.

(* ===================================================================== *)
(** * sqrt32 *)
(* ===================================================================== *)

Lemma sqrt32_finite_nonzero m e :
  wf32 (S754_finite false m e) ->
  F32.eqb (sqrt32 (S754_finite false m e)) F32.zero = false.
Proof.
  intros Hwf.
  assert (SFleb sqrt32_least (sqrt32 (S754_finite false m e)) = true) as Hle.
  { rewrite <- sqrt32_least_eq. apply sqrt32_mono_finite; [done|done|].
    destruct (wf32_finite false m e Hwf) as (_ & He & _). lia. }
  destruct (sqrt32 (S754_finite false m e)) as [s|[]| |[] m2 e2]; try done.
Qed.

(** X10.  [sqrt32], which rounds twice (to binary64 by [math.Sqrt], then
    to binary32), keeps the order of binary32 numbers: [x <= y] implies
    [sqrt32(x) <= sqrt32(y)] whenever neither result is NaN.  Its result
    is NaN exactly when [x] is NaN or compares below 0; it compares equal
    to 0 exactly when [x] does (a positive number never underflows to
    zero); and it never has the sign bit set unless [x] is [-0]. *)
Theorem sqrt32_monotone x y :
  wf32 x -> wf32 y ->
  (F32.leb x y = true ->
   F32.is_nan (sqrt32 x) = false -> F32.is_nan (sqrt32 y) = false ->
   F32.leb (sqrt32 x) (sqrt32 y) = true) /\
  (F32.is_nan (sqrt32 x) = true <->
   F32.is_nan x = true \/ F32.ltb x F32.zero = true) /\
  (F32.eqb (sqrt32 x) F32.zero = true <-> F32.eqb x F32.zero = true) /\
  (F32.sign (sqrt32 x) = true -> x = S754_zero true) /\
  wf32 (sqrt32 x).
Proof.
  intros Hx Hy. split_and!.
  - intros Hle Hnx Hny. apply sqrt32_mono; try done.
    pose proof Hle as Hle'. apply SFleb_key in Hle' as (Hxn & Hyn & _).
    by apply (SFleb_not_ltb x y Hxn Hyn).
  - destruct x as [s|[]| |[] m e]; try (split; [done|intros [?|?]; done]);
      try (split; [intros _; by auto|done]).
    + split; [intros _; by right|intros _].
      destruct (of_f32_finite true m e Hx) as (M & HM & _).
      unfold sqrt32. by rewrite HM.
    + pose proof (sqrt32_finite_sign m e Hx) as Hs.
      split; [|intros [?|?]; done].
      intros Hn. by destruct (sqrt32 (S754_finite false m e)).
  - destruct x as [s|[]| |[] m e]; try done.
    + destruct (of_f32_finite true m e Hx) as (M & HM & _).
      unfold sqrt32. by rewrite HM.
    + by rewrite sqrt32_finite_nonzero.
  - destruct x as [s|[]| |[] m e]; try done.
    + simpl. by intros ->.
    + destruct (of_f32_finite true m e Hx) as (M & HM & _).
      unfold sqrt32. by rewrite HM.
    + pose proof (sqrt32_finite_sign m e Hx) as Hs.
      apply has_sign_false_sign in Hs. by rewrite Hs.
  - apply sqrt32_wf.
Qed.

Lemma sqrt32_monotone_witness :
  let x := F32.of_Z 2 in
  let y := F32.of_Z 3 in
  wf32 x /\ wf32 y /\
  (F32.leb x y = true ->
   F32.is_nan (sqrt32 x) = false -> F32.is_nan (sqrt32 y) = false ->
   F32.leb (sqrt32 x) (sqrt32 y) = true) /\
  (F32.is_nan (sqrt32 x) = true <->
   F32.is_nan x = true \/ F32.ltb x F32.zero = true) /\
  (F32.eqb (sqrt32 x) F32.zero = true <-> F32.eqb x F32.zero = true) /\
  (F32.sign (sqrt32 x) = true -> x = S754_zero true) /\
  wf32 (sqrt32 x).
Proof.
  intros x y.
  assert (wf32 x) as Hx by reflexivity.
  assert (wf32 y) as Hy by reflexivity.
  split; [exact Hx|]. split; [exact Hy|].
  exact (sqrt32_monotone x y Hx Hy).
Defined.

(* ===================================================================== *)
(** * The shards of the workers *)
(* ===================================================================== *)

(** X11.  For every value of GOMAXPROCS (at least 1), [Search] and
    [SearchCosine] start between 1 and 16 workers, and the shard ranges
    [start, end) the workers compute, taken in worker order, list every
    shard index [0..15] exactly once: no shard is skipped and none is
    scanned twice, also when 16 is not a multiple of the number of
    workers (a worker whose range starts past the last shard scans
    nothing).  Hence the rows the workers scan are the rows of the
    store. *)
Theorem worker_partition procs :
  1 <= nWorkers procs <= numShards /\
  concat (worker_range procs <$> seq 0 (nWorkers procs)) = seq 0 numShards /\
  (forall w, w < nWorkers procs ->
     worker_range procs w =
       seq (w * shardsPerWorker procs)
           ((w * shardsPerWorker procs + shardsPerWorker procs) `min` numShards
            - w * shardsPerWorker procs)) /\
  (forall metric s q k w,
     worker procs metric s q k w =
       drain_all maxHeap_Less id
         (foldl (offer maxHeap_Less k) [] (candidate metric q <$> worker_rows procs s w))) /\
  (forall s, length (shards s) = numShards ->
     concat (worker_rows procs s <$> seq 0 (nWorkers procs)) = contents s).
Proof.
  split; [|split; [|split; [|split]]].
  - unfold nWorkers. pose proof (Pos2Nat.is_pos procs). unfold numShards. lia.
  - apply worker_ranges_cover.
  - intros w _. unfold worker_range. cbv zeta.
    destruct (Nat.ltb_spec numShards (w * shardsPerWorker procs + shardsPerWorker procs));
      f_equal; lia.
  - intros metric s q k w. apply worker_fold.
  - intros s Hlen. by apply worker_rows_cover.
Qed.

(* ===================================================================== *)
(** * The result does not depend on the number of workers *)
(* ===================================================================== *)

Lemma sorted_perm_eq {A} (R : relation A) (l1 l2 : list A) :
  (forall x y, x ∈ l1 -> y ∈ l1 -> R x y -> R y x -> x = y) ->
  StronglySorted R l1 -> StronglySorted R l2 -> l1 ≡ₚ l2 -> l1 = l2.
Proof.
  revert l2. induction l1 as [|x l1 IH]; intros l2 Hanti Hs1 Hs2 Hperm.
  - by apply Permutation_nil_l in Hperm.
  - destruct l2 as [|y l2]; [by apply Permutation_nil_r in Hperm|].
    apply StronglySorted_inv in Hs1 as [Hs1 Hall1].
    apply StronglySorted_inv in Hs2 as [Hs2 Hall2].
    rewrite Forall_forall in Hall1, Hall2.
    assert (x = y) as <-.
    { assert (x ∈ y :: l2) as Hx by (rewrite <- Hperm; by left).
      assert (y ∈ x :: l1) as Hy by (rewrite Hperm; by left).
      apply elem_of_cons in Hx as [?|Hx]; [done|].
      apply elem_of_cons in Hy as [?|Hy]; [done|].
      apply Hanti; [by left|by right|by apply Hall1|by apply Hall2]. }
    f_equal. apply IH; [|done|done|by apply Permutation_cons_inv in Hperm].
    intros a b Ha Hb. apply Hanti; by right.
Qed.

#[local] Instance spec_float_eq_dec : EqDecision spec_float.
Proof. solve_decision. Defined.

(** Two selections of the [k] lowest rows are the same list when no two
    rows tie. *)
Lemma select_unique (key : row -> float32) (xs sel1 rest1 sel2 rest2 : list row) :
  NoDup xs ->
  (forall x y, x ∈ xs -> y ∈ xs -> x ≠ y ->
     F32.ltb (key x) (key y) = true \/ F32.ltb (key y) (key x) = true) ->
  xs ≡ₚ sel1 ++ rest1 -> xs ≡ₚ sel2 ++ rest2 -> length sel1 = length sel2 ->
  (forall y r, y ∈ sel1 -> r ∈ rest1 -> F32.ltb (key r) (key y) = false) ->
  (forall y r, y ∈ sel2 -> r ∈ rest2 -> F32.ltb (key r) (key y) = false) ->
  StronglySorted (fun a b => F32.ltb (key b) (key a) = false) sel1 ->
  StronglySorted (fun a b => F32.ltb (key b) (key a) = false) sel2 ->
  sel1 = sel2.
Proof.
  intros Hnd Hstrict Hp1 Hp2 Hlen Htop1 Htop2 Hs1 Hs2.
  assert (NoDup sel1) as Hnd1.
  { rewrite Hp1 in Hnd. by apply NoDup_app in Hnd as [? _]. }
  assert (NoDup sel2) as Hnd2.
  { rewrite Hp2 in Hnd. by apply NoDup_app in Hnd as [? _]. }
  assert (forall x, x ∈ sel1 -> x ∈ xs) as Hin1
    by (intros x Hx; rewrite Hp1; apply elem_of_app; by left).
  assert (forall x, x ∈ sel2 -> x ∈ xs) as Hin2
    by (intros x Hx; rewrite Hp2; apply elem_of_app; by left).
  assert (forall x, x ∈ sel1 -> x ∈ sel2) as Hsub.
  { intros x Hx.
    destruct (decide (x ∈ sel2)) as [|Hnx]; [done|exfalso].
    assert (x ∈ rest2) as Hxr.
    { pose proof (Hin1 x Hx) as Hxs. rewrite Hp2 in Hxs.
      by apply elem_of_app in Hxs as [?|?]. }
    destruct (decide (Forall (fun y => y ∈ sel1) sel2)) as [Hall|Hex].
    - rewrite Forall_forall in Hall.
      assert (sel2 ≡ₚ sel1) as Hperm.
      { apply submseteq_length_Permutation; [by apply NoDup_submseteq|lia]. }
      apply Hnx. by rewrite Hperm.
    - apply not_Forall_Exists in Hex; [|apply _].
      apply Exists_exists in Hex as (y & Hy & Hny). cbn in Hny.
      assert (y ∈ rest1) as Hyr.
      { pose proof (Hin2 y Hy) as Hys. rewrite Hp1 in Hys.
        by apply elem_of_app in Hys as [?|?]. }
      pose proof (Htop1 x y Hx Hyr) as H1.
      pose proof (Htop2 y x Hy Hxr) as H2.
      destruct (Hstrict x y (Hin1 x Hx) (Hin2 y Hy)) as [E|E]; [|congruence..].
      intros ->. done. }
  apply (sorted_perm_eq (fun a b => F32.ltb (key b) (key a) = false));
    [|done|done|].
  - intros x y Hx Hy Hxy Hyx.
    destruct (decide (x = y)) as [|Hne]; [done|exfalso].
    destruct (Hstrict x y (Hin1 x Hx) (Hin1 y Hy) Hne); congruence.
  - apply submseteq_length_Permutation; [by apply NoDup_submseteq|lia].
Qed.

Lemma contents_NoDup_rows D s : store_ok D s -> NoDup (contents s).
Proof. intros Hok. eapply NoDup_fmap_1, contents_NoDup. done. Qed.

Lemma store_map_contents D s s' :
  store_ok D s -> store_ok D s' ->
  store_map s = store_map s' -> contents s ≡ₚ contents s'.
Proof.
  intros Hok Hok' Hmap. unfold store_map in Hmap.
  apply (list_to_map_inj (M := gmap string)) in Hmap; [done|by eapply contents_NoDup..].
Qed.

Lemma knn_same_contents D procs procs' metric post s s' q k :
  store_ok D s -> store_ok D s' -> store_map s = store_map s' ->
  Z.of_nat (length q) = D ->
  Forall (fun rw : row => F32.is_nan (metric q rw.2) = false) (contents s) ->
  (forall x y : row, x ∈ contents s -> y ∈ contents s -> x ≠ y ->
     F32.ltb (metric q x.2) (metric q y.2) = true \/
     F32.ltb (metric q y.2) (metric q x.2) = true) ->
  knn procs metric post s q k = knn procs' metric post s' q k.
Proof.
  intros Hok Hok' Hmap Hq Hnan Hstrict.
  pose proof (store_map_contents D s s' Hok Hok' Hmap) as Hperm.
  destruct (Z.leb_spec k 0) as [Hk|Hk].
  - unfold knn. rewrite (proj1 Hok), (proj1 Hok').
    destruct (bool_decide _); [done|].
    by destruct (Z.leb_spec k 0); [|lia].
  - assert (Forall (fun rw : row => F32.is_nan (metric q rw.2) = false) (contents s'))
      as Hnan' by (by rewrite <- Hperm).
    destruct (knn_select D procs metric post s q k Hok Hq ltac:(lia) Hnan)
      as (sel1 & rest1 & Hp1 & -> & Hl1 & Ht1 & Hs1).
    destruct (knn_select D procs' metric post s' q k Hok' Hq ltac:(lia) Hnan')
      as (sel2 & rest2 & Hp2 & -> & Hl2 & Ht2 & Hs2).
    rewrite <- Hperm in Hp2.
    rewrite !Count_contents in *. rewrite <- Hperm in Hl2.
    f_equal. f_equal.
    apply (select_unique (fun rw => metric q rw.2) (contents s) sel1 rest1 sel2 rest2);
      try done.
    + by eapply contents_NoDup_rows.
    + lia.
Qed.

(** X12.  The answer depends only on the vectors stored, not on the
    number of workers nor on the calls that built the store, when no two
    stored vectors are at the same distance: for two stores built by
    insert and delete that hold the same vectors and a query of their
    dimension, if no distance to a stored vector is NaN and the distances
    of any two different stored vectors compare strictly one way or the
    other, then [Search] returns the same list on both stores and for
    every two values of GOMAXPROCS; and likewise [SearchCosine]. *)
Theorem Search_depends_on_contents D arch procs procs' s s' q k :
  reachable D s -> reachable D s' -> store_map s = store_map s' ->
  Z.of_nat (length q) = D ->
  (Forall (fun rw : row => F32.is_nan (EuclideanDistanceSquared arch q rw.2) = false)
     (contents s) ->
   (forall x y : row, x ∈ contents s -> y ∈ contents s -> x ≠ y ->
      F32.ltb (EuclideanDistanceSquared arch q x.2)
              (EuclideanDistanceSquared arch q y.2) = true \/
      F32.ltb (EuclideanDistanceSquared arch q y.2)
              (EuclideanDistanceSquared arch q x.2) = true) ->
   Search arch procs s q k = Search arch procs' s' q k) /\
  (Forall (fun rw : row => F32.is_nan (CosineDistance arch q rw.2) = false)
     (contents s) ->
   (forall x y : row, x ∈ contents s -> y ∈ contents s -> x ≠ y ->
      F32.ltb (CosineDistance arch q x.2) (CosineDistance arch q y.2) = true \/
      F32.ltb (CosineDistance arch q y.2) (CosineDistance arch q x.2) = true) ->
   SearchCosine arch procs s q k = SearchCosine arch procs' s' q k).
Proof.
  intros Hreach Hreach' Hmap Hq.
  pose proof (reachable_ok D s Hreach) as Hok.
  pose proof (reachable_ok D s' Hreach') as Hok'.
  split; intros Hnan Hstrict; by apply (knn_same_contents D).
Qed.

(** The same three vectors, stored in two orders; "origin" and "near"
    share a shard, where their rows are exchanged. *)
Definition store_order1 : VectorStore :=
  (Insert
     (Insert
        (Insert (NewVectorStore 2) (mkVector "origin" [F32.zero; F32.zero])).1
        (mkVector "near" [F32.of_Z 1; F32.zero])).1
     (mkVector "a" [F32.of_Z 1; F32.of_Z 2])).1.

Definition store_order2 : VectorStore :=
  (Insert
     (Insert
        (Insert (NewVectorStore 2) (mkVector "a" [F32.of_Z 1; F32.of_Z 2])).1
        (mkVector "near" [F32.of_Z 1; F32.zero])).1
     (mkVector "origin" [F32.zero; F32.zero])).1.

Lemma store_order1_reachable : reachable 2 store_order1.
Proof. unfold store_order1. repeat constructor. Qed.

Lemma store_order2_reachable : reachable 2 store_order2.
Proof. unfold store_order2. repeat constructor. Qed.

Lemma Search_depends_on_contents_witness :
  let s := store_order1 in
  let s' := store_order2 in
  let q := [F32.of_Z 1; F32.of_Z 2] in
  reachable 2 s /\ reachable 2 s' /\ store_map s = store_map s' /\
  Z.of_nat (length q) = 2%Z /\
  Forall (fun rw : row => F32.is_nan (EuclideanDistanceSquared arm64 q rw.2) = false)
    (contents s) /\
  (forall x y : row, x ∈ contents s -> y ∈ contents s -> x ≠ y ->
     F32.ltb (EuclideanDistanceSquared arm64 q x.2)
             (EuclideanDistanceSquared arm64 q y.2) = true \/
     F32.ltb (EuclideanDistanceSquared arm64 q y.2)
             (EuclideanDistanceSquared arm64 q x.2) = true) /\
  Search arm64 4 s q 2 = Search arm64 7 s' q 2 /\
  Forall (fun rw : row => F32.is_nan (CosineDistance arm64 q rw.2) = false)
    (contents s) /\
  (forall x y : row, x ∈ contents s -> y ∈ contents s -> x ≠ y ->
     F32.ltb (CosineDistance arm64 q x.2) (CosineDistance arm64 q y.2) = true \/
     F32.ltb (CosineDistance arm64 q y.2) (CosineDistance arm64 q x.2) = true) /\
  SearchCosine arm64 4 s q 2 = SearchCosine arm64 7 s' q 2.
Proof.
  intros s s' q.
  assert (Z.of_nat (length q) = 2%Z) as Hq by reflexivity.
  assert (Forall (fun rw : row =>
                    F32.is_nan (EuclideanDistanceSquared arm64 q rw.2) = false)
            (contents s)) as Hnan.
  { set (c := contents s). vm_compute in c. subst c.
    repeat (constructor; [by vm_compute|]). constructor. }
  assert (forall x y : row, x ∈ contents s -> y ∈ contents s -> x ≠ y ->
            F32.ltb (EuclideanDistanceSquared arm64 q x.2)
                    (EuclideanDistanceSquared arm64 q y.2) = true \/
            F32.ltb (EuclideanDistanceSquared arm64 q y.2)
                    (EuclideanDistanceSquared arm64 q x.2) = true) as Hstrict.
  { set (c := contents s). vm_compute in c. subst c. intros x y Hx Hy Hne.
    repeat (apply elem_of_cons in Hx as [->|Hx]); try (by apply elem_of_nil in Hx);
      repeat (apply elem_of_cons in Hy as [->|Hy]); try (by apply elem_of_nil in Hy);
      first [done | by left; vm_compute | by right; vm_compute]. }
  assert (Forall (fun rw : row => F32.is_nan (CosineDistance arm64 q rw.2) = false)
            (contents s)) as Hnanc.
  { set (c := contents s). vm_compute in c. subst c.
    repeat (constructor; [by vm_compute|]). constructor. }
  assert (forall x y : row, x ∈ contents s -> y ∈ contents s -> x ≠ y ->
            F32.ltb (CosineDistance arm64 q x.2) (CosineDistance arm64 q y.2) = true \/
            F32.ltb (CosineDistance arm64 q y.2) (CosineDistance arm64 q x.2) = true)
    as Hstrictc.
  { set (c := contents s). vm_compute in c. subst c. intros x y Hx Hy Hne.
    repeat (apply elem_of_cons in Hx as [->|Hx]); try (by apply elem_of_nil in Hx);
      repeat (apply elem_of_cons in Hy as [->|Hy]); try (by apply elem_of_nil in Hy);
      first [done | by left; vm_compute | by right; vm_compute]. }
  assert (store_map s = store_map s') as Hmap by (vm_compute; reflexivity).
  destruct (Search_depends_on_contents 2 arm64 4 7 s s' q 2
              store_order1_reachable store_order2_reachable Hmap Hq)
    as [He Hc].
  split; [exact store_order1_reachable|]. split; [exact store_order2_reachable|].
  split; [exact Hmap|]. split; [exact Hq|].
  split; [exact Hnan|]. split; [exact Hstrict|]. split; [exact (He Hnan Hstrict)|].
  split; [exact Hnanc|]. split; [exact Hstrictc|]. exact (Hc Hnanc Hstrictc).
Defined.

(* ===================================================================== *)
(** * Edge cases: a zero vector, a negative dimension *)
(* ===================================================================== *)

Lemma DotProduct_zero_self arch (z : list float32) :
  Forall (fun x => is_zero x = true) z -> DotProduct arch z z = F32.zero.
Proof.
  intros Hz.
  set (R := fun x y : float32 => is_zero x = true /\ is_zero y = true).
  set (P := fun acc : float32 => acc = F32.zero).
  apply (DotProduct_inv R P); subst R P; cbn beta.
  - done.
  - done.
  - by intros a b -> ->.
  - intros [[]| | |] [[]| | |] acc [? ?] ->; done.
  - intros [[]| | |] [[]| | |] acc [? ?] ->; done.
  - intros [[]| | |] [[]| | |] acc [? ?] ->; done.
  - apply Forall_Forall2_diag. eapply Forall_impl; [exact Hz|]. by intros x Hx.
Qed.

(** X13.  A vector whose components are all zero ([+0] or [-0]) has
    magnitude [+0]; its cosine similarity to every vector is [0] and its
    cosine distance to every vector is exactly [1], in both argument
    orders and whatever the other vector holds; so [SearchCosine] with
    such a query reports the distance [1] for every result. *)
Theorem cosine_zero_vector arch (z : list float32) :
  Forall (fun x => is_zero x = true) z ->
  Magnitude arch z = F32.zero /\
  (forall b,
     CosineSimilarity arch z b = F32.zero /\ CosineSimilarity arch b z = F32.zero /\
     CosineDistance arch z b = F32.one /\ CosineDistance arch b z = F32.one) /\
  (forall D procs s k r,
     reachable D s -> r ∈ (SearchCosine arch procs s z k).1 -> Distance r = F32.one).
Proof.
  intros Hz.
  assert (Magnitude arch z = F32.zero) as Hm.
  { unfold Magnitude. by rewrite DotProduct_zero_self. }
  assert (forall b, CosineSimilarity arch z b = F32.zero /\
                    CosineSimilarity arch b z = F32.zero) as Hsim.
  { intros b. unfold CosineSimilarity. cbv zeta. rewrite Hm. split; [done|].
    by rewrite orb_true_r. }
  split_and!; [done| |].
  - intros b. destruct (Hsim b) as [H1 H2]. unfold CosineDistance.
    by rewrite H1, H2.
  - intros D procs s k r Hreach Hr.
    pose proof (reachable_ok D s Hreach) as (_ & Hlen & _).
    apply (knn_elem _ _ _ _ _ _ _ Hlen) in Hr as (rw & _ & ->).
    cbn. unfold CosineDistance. by rewrite (proj1 (Hsim rw.2)).
Qed.

Lemma cosine_zero_vector_witness :
  let z := [F32.zero; S754_zero true; F32.zero] in
  Forall (fun x => is_zero x = true) z /\
  Magnitude arm64 z = F32.zero /\
  (forall b,
     CosineSimilarity arm64 z b = F32.zero /\ CosineSimilarity arm64 b z = F32.zero /\
     CosineDistance arm64 z b = F32.one /\ CosineDistance arm64 b z = F32.one) /\
  (forall D procs s k r,
     reachable D s -> r ∈ (SearchCosine arm64 procs s z k).1 -> Distance r = F32.one).
Proof.
  intros z.
  assert (Forall (fun x => is_zero x = true) z) as Hz by (repeat constructor).
  split; [exact Hz|].
  exact (cosine_zero_vector arm64 z Hz).
Defined.

(** X14.  [NewVectorStore] does not check its argument.  With a negative
    dimension the store stays empty for ever: every [Insert] fails
    (with EmptyID or DimensionMismatch), every [Delete] returns NotFound,
    every [Search] and [SearchCosine] returns DimensionMismatch, and no
    sequence of calls changes the store. *)
Theorem negative_dimension_store D s :
  (D < 0)%Z -> reachable D s ->
  s = NewVectorStore D /\ Count s = 0 /\
  (forall v, (Insert s v).2 = Some ErrEmptyID \/
             (Insert s v).2 = Some ErrDimensionMismatch) /\
  (forall id, Delete s id = (s, Some ErrNotFound)) /\
  (forall arch procs q k,
     Search arch procs s q k = ([], Some ErrDimensionMismatch) /\
     SearchCosine arch procs s q k = ([], Some ErrDimensionMismatch)).
Proof.
  intros HD Hreach.
  assert (forall v, Insert (NewVectorStore D) v = (NewVectorStore D, Some ErrEmptyID) \/
                    Insert (NewVectorStore D) v
                      = (NewVectorStore D, Some ErrDimensionMismatch)) as Hins.
  { intros v. unfold Insert. case_bool_decide; [by left|].
    rewrite bool_decide_eq_true_2; [by right|]. cbn. lia. }
  assert (forall id, Delete (NewVectorStore D) id
                     = (NewVectorStore D, Some ErrNotFound)) as Hdel.
  { intros id. unfold Delete, NewVectorStore. cbn [shards].
    rewrite lookup_total_replicate_2 by apply shardIndex_lt. done. }
  assert (s = NewVectorStore D) as ->.
  { induction Hreach as [|s v _ IH|s id _ IH]; [done| |].
    - rewrite IH. by destruct (Hins v) as [-> | ->].
    - rewrite IH. by rewrite Hdel. }
  split_and!; [done|done| | |].
  - intros v. by destruct (Hins v) as [-> | ->]; [left|right].
  - done.
  - intros arch procs q k. unfold Search, SearchCosine, knn.
    rewrite !bool_decide_eq_true_2; [done|cbn; lia..].
Qed.

Lemma negative_dimension_store_witness :
  (-1 < 0)%Z /\ reachable (-1) (NewVectorStore (-1)) /\
  NewVectorStore (-1) = NewVectorStore (-1) /\ Count (NewVectorStore (-1)) = 0 /\
  (forall v, (Insert (NewVectorStore (-1)) v).2 = Some ErrEmptyID \/
             (Insert (NewVectorStore (-1)) v).2 = Some ErrDimensionMismatch) /\
  (forall id, Delete (NewVectorStore (-1)) id = (NewVectorStore (-1), Some ErrNotFound)) /\
  (forall arch procs q k,
     Search arch procs (NewVectorStore (-1)) q k = ([], Some ErrDimensionMismatch) /\
     SearchCosine arch procs (NewVectorStore (-1)) q k = ([], Some ErrDimensionMismatch)).
Proof.
  assert ((-1 < 0)%Z) as HD by lia.
  split; [exact HD|]. split; [exact (reach_new (-1))|].
  exact (negative_dimension_store (-1) (NewVectorStore (-1)) HD (reach_new (-1))).
Defined.

(* ===================================================================== *)
(** * The max-heap of the scan loops *)
(* ===================================================================== *)

(** X15.  The candidate loop of [Search] and [SearchCosine] keeps a
    max-heap of the best candidates.  After any list of candidates with
    non-NaN distances has gone through [if h.Len() < k { Push } else if
    dist < h[0].Distance { Pop; Push }] from the empty heap ([k >= 1]):
    no element has a lower distance than a child of its, the heap holds
    [min(k, n)] candidates, no candidate left out is nearer than one
    kept, the root [h[0]] is a farthest candidate kept, [heap.Pop]
    returns the root and leaves a heap with the other elements, and
    popping everything into the result from the back gives the kept
    candidates in ascending distance. *)
Theorem maxHeap_scan k (xs : list SearchResult) :
  (1 <= k)%Z -> Forall result_ok xs ->
  let h := foldl (offer maxHeap_Less k) [] xs in
  (forall c, 1 <= c < length h ->
     F32.ltb (Distance (h !!! ((c - 1) / 2))) (Distance (h !!! c)) = false) /\
  length h = Z.to_nat k `min` length xs /\
  (exists rest, xs ≡ₚ h ++ rest /\
     forall r y, r ∈ rest -> y ∈ h -> F32.ltb (Distance r) (Distance y) = false) /\
  (forall y, y ∈ h -> F32.ltb (Distance (h !!! 0)) (Distance y) = false) /\
  (h ≠ [] ->
     (heap_Pop maxHeap_Less h).1 = h !!! 0 /\
     h ≡ₚ (heap_Pop maxHeap_Less h).1 :: (heap_Pop maxHeap_Less h).2 /\
     (forall c, 1 <= c < length (heap_Pop maxHeap_Less h).2 ->
        F32.ltb (Distance ((heap_Pop maxHeap_Less h).2 !!! ((c - 1) / 2)))
                (Distance ((heap_Pop maxHeap_Less h).2 !!! c)) = false)) /\
  StronglySorted (fun a b => F32.ltb (Distance b) (Distance a) = false)
    (drain_all maxHeap_Less id h) /\
  drain_all maxHeap_Less id h ≡ₚ h.
Proof.
  intros Hk Hok h.
  pose proof (scan_inv_foldl maxHeap_Less result_ok maxHeap_Less_irrefl
                maxHeap_Less_trans maxHeap_Less_cotrans k [] xs []
                Hk Hok (scan_inv_nil maxHeap_Less k ltac:(lia))) as Hinv.
  cbn [app] in Hinv. fold h in Hinv.
  destruct Hinv as (Hheap & Hlen & rest & Hperm & Hfull & Habove).
  assert (Forall result_ok h) as Hokh.
  { rewrite Hperm in Hok. by apply Forall_app in Hok as [? _]. }
  split_and!.
  - exact Hheap.
  - subst h. rewrite foldl_offer_length by (simpl; lia). simpl. lia.
  - exists rest. split; [done|exact Habove].
  - intros y Hy.
    exact (heap_root_max maxHeap_Less result_ok maxHeap_Less_irrefl
             maxHeap_Less_cotrans h y Hokh Hheap Hy).
  - intros Hne.
    destruct (heap_Pop_correct maxHeap_Less result_ok maxHeap_Less_irrefl
                maxHeap_Less_trans maxHeap_Less_cotrans h Hokh Hheap Hne)
      as (Hroot & Hh' & Hp & _).
    split; [done|]. split; [done|exact Hh'].
  - destruct (drain_correct maxHeap_Less result_ok maxHeap_Less_irrefl
                maxHeap_Less_trans maxHeap_Less_cotrans (length h) h []
                Hokh Hheap eq_refl) as [Hasc _].
    + constructor.
    + intros a y Ha. by apply elem_of_nil in Ha.
    + exact Hasc.
  - rewrite drain_all_perm. by rewrite list_fmap_id.
Qed.

Lemma maxHeap_scan_witness :
  let xs := [mkResult "a" (F32.of_Z 3); mkResult "b" (F32.of_Z 1);
             mkResult "c" (F32.of_Z 2); mkResult "d" F32.zero] in
  let h := foldl (offer maxHeap_Less 2) [] xs in
  (1 <= 2)%Z /\ Forall result_ok xs /\
  (forall c, 1 <= c < length h ->
     F32.ltb (Distance (h !!! ((c - 1) / 2))) (Distance (h !!! c)) = false) /\
  length h = Z.to_nat 2 `min` length xs /\
  (exists rest, xs ≡ₚ h ++ rest /\
     forall r y, r ∈ rest -> y ∈ h -> F32.ltb (Distance r) (Distance y) = false) /\
  (forall y, y ∈ h -> F32.ltb (Distance (h !!! 0)) (Distance y) = false) /\
  (h ≠ [] ->
     (heap_Pop maxHeap_Less h).1 = h !!! 0 /\
     h ≡ₚ (heap_Pop maxHeap_Less h).1 :: (heap_Pop maxHeap_Less h).2 /\
     (forall c, 1 <= c < length (heap_Pop maxHeap_Less h).2 ->
        F32.ltb (Distance ((heap_Pop maxHeap_Less h).2 !!! ((c - 1) / 2)))
                (Distance ((heap_Pop maxHeap_Less h).2 !!! c)) = false)) /\
  StronglySorted (fun a b => F32.ltb (Distance b) (Distance a) = false)
    (drain_all maxHeap_Less id h) /\
  drain_all maxHeap_Less id h ≡ₚ h.
Proof.
  intros xs h.
  assert ((1 <= 2)%Z) as Hk by lia.
  assert (Forall result_ok xs) as Hok by (repeat constructor).
  split; [exact Hk|]. split; [exact Hok|].
  exact (maxHeap_scan 2 xs Hk Hok).
Defined.

(* ===================================================================== *)
(** * Where a payload lives *)
(* ===================================================================== *)

Lemma rows_of_lookup dim sh i :
  i < length (ids sh) ->
  rows_of dim sh !! i
    = Some (ids sh !!! i, slice (data sh) (i * dim) ((i + 1) * dim)).
Proof.
  intros Hi. unfold rows_of. change (map ?f ?l) with (f <$> l).
  rewrite list_lookup_fmap, lookup_seq_lt by done. done.
Qed.

(** X16.  The layout of a shard, on a store built by insert and delete:
    if [idIndex] of the shard routed to by [id] sends [id] to row [i],
    then [ids[i]] is [id], the slice [data[i*D : (i+1)*D]] is within
    bounds, has [D] elements and is the payload stored under [id]; and
    if [idIndex] has no entry for [id], then [id] is not stored and does
    not occur in [ids]. *)
Theorem payload_layout D s id :
  reachable D s ->
  let sh := shards s !!! shardIndex id in
  let dim := Z.to_nat D in
  match idIndex sh !! id with
  | Some i =>
      ids sh !! i = Some id /\ (i + 1) * dim <= length (data sh) /\
      length (slice (data sh) (i * dim) ((i + 1) * dim)) = dim /\
      store_map s !! id = Some (slice (data sh) (i * dim) ((i + 1) * dim))
  | None => store_map s !! id = None /\ id ∉ ids sh
  end.
Proof.
  intros Hreach sh dim.
  pose proof (reachable_ok D s Hreach) as Hok.
  pose proof (shardIndex_lt id) as Hlt.
  destruct (store_ok_shard _ _ _ Hok Hlt) as (sh0 & rws & Hlk & Htot & Hshard & _).
  fold sh in Htot. subst sh0.
  pose proof (shard_ok_rows _ _ _ _ Hshard) as Hr. fold dim in Hr.
  pose proof (ok_ids _ _ _ _ Hshard) as Hids.
  destruct (idIndex sh !! id) as [i|] eqn:Hidx.
  - pose proof Hidx as Hi. apply (ok_index _ _ _ _ Hshard) in Hi.
    rewrite <- Hids in Hi. pose proof (lookup_lt_Some _ _ _ Hi) as Hlti.
    pose proof (rows_of_lookup dim sh i Hlti) as Hrow.
    rewrite (list_lookup_total_correct _ _ _ Hi) in Hrow.
    assert (length (slice (data sh) (i * dim) ((i + 1) * dim)) = dim) as Hlen.
    { pose proof (ok_uniform _ _ _ _ Hshard) as Hu. fold dim in Hu.
      rewrite <- Hr in Hu.
      eapply (proj1 (Forall_forall _ _) Hu).
      apply list_elem_of_fmap. eexists. split; [|by eapply list_elem_of_lookup_2]. done. }
    assert (length (data sh) = length (ids sh) * dim) as Hdl.
    { rewrite (ok_data _ _ _ _ Hshard), Hids.
      rewrite (length_concat_uniform dim) by apply Hshard.
      by rewrite !length_fmap. }
    split_and!; [done|nia|done|].
    apply (store_map_lookup D s _ _ Hok), (contents_routed D s _ _ Hok).
    fold sh. rewrite (dim_of_ok D s Hok). fold dim.
    by eapply list_elem_of_lookup_2.
  - split.
    + apply (Delete_not_found D s id Hok). by fold sh.
    + rewrite Hids. intros [j Hj]%list_elem_of_lookup.
      apply (ok_index _ _ _ _ Hshard) in Hj. congruence.
Qed.

Lemma payload_layout_witness :
  let s := example_store3 in
  let id := "b" in
  let sh := shards s !!! shardIndex id in
  let dim := Z.to_nat 2 in
  reachable 2 s /\
  match idIndex sh !! id with
  | Some i =>
      ids sh !! i = Some id /\ (i + 1) * dim <= length (data sh) /\
      length (slice (data sh) (i * dim) ((i + 1) * dim)) = dim /\
      store_map s !! id = Some (slice (data sh) (i * dim) ((i + 1) * dim))
  | None => store_map s !! id = None /\ id ∉ ids sh
  end.
Proof.
  split; [exact example_store3_reachable|].
  exact (payload_layout 2 example_store3 "b" example_store3_reachable).
Defined.

(* ===================================================================== *)
(** * The magnitude is the distance to the origin *)
(* ===================================================================== *)

Section KernelOrigin.
Context {T : Type} `{Arith T}.
Hypothesis sub_zero : forall x : T, a_sub x a_zero = x.

Definition all_zero (l : list T) : Prop := Forall (fun y => y = a_zero) l.

Lemma all_zero_nth (l : list T) i : all_zero l -> nth i l a_zero = a_zero.
Proof.
  intros Hl. revert i. induction Hl as [|y l -> _ IH]; intros i.
  - by destruct i.
  - destruct i; [done|apply IH].
Qed.

Lemma all_zero_drop (l : list T) n : all_zero l -> all_zero (drop n l).
Proof. apply Forall_drop. Qed.

Lemma vfsub_zero (p zs : list T) : all_zero zs -> vfsub (vld1 p) (vld1 zs) = vld1 p.
Proof.
  intros Hz. unfold vfsub, vld1. cbn [lane0 lane1 lane2 lane3].
  rewrite !(all_zero_nth zs) by done. by rewrite !sub_zero.
Qed.

(** The registers of the dot product of a vector with itself. *)
Definition to_dot (r : regs T) : regs T :=
  mkRegs (R1 r) (R0 r) (R0 r) (V0 r) (V1 r) (V2 r) (V3 r).

Lemma euc_loop16_origin fuel (r : regs T) :
  all_zero (R2 r) ->
  to_dot (euc_loop16 fuel r) = dot_loop16 fuel (to_dot r) /\
  all_zero (R2 (euc_loop16 fuel r)).
Proof.
  revert r. induction fuel as [|fuel IH]; intros r Hz; [done|].
  cbn [euc_loop16 dot_loop16]. cbn [to_dot R0 R1 R2 V0 V1 V2 V3].
  destruct (R1 r <? 16); [done|]. cbv zeta.
  rewrite !vfsub_zero by (by try apply all_zero_drop).
  apply IH. cbn [R2]. by apply all_zero_drop.
Qed.

Lemma euc_loop4_origin fuel (r : regs T) :
  all_zero (R2 r) ->
  to_dot (euc_loop4 fuel r) = dot_loop4 fuel (to_dot r) /\
  all_zero (R2 (euc_loop4 fuel r)).
Proof.
  revert r. induction fuel as [|fuel IH]; intros r Hz; [done|].
  cbn [euc_loop4 dot_loop4]. cbn [to_dot R0 R1 R2 V0 V1 V2 V3].
  destruct (R1 r <? 4); [done|]. cbv zeta.
  rewrite !vfsub_zero by done.
  apply IH. cbn [R2]. by apply all_zero_drop.
Qed.

Lemma euc_tail_origin n f0 (p zs : list T) :
  all_zero zs -> euc_tail n f0 p zs = dot_tail n f0 p p.
Proof.
  revert f0 p zs. induction n as [|n IH]; intros f0 p zs Hz; [done|].
  cbn [euc_tail dot_tail]. cbv zeta.
  rewrite (all_zero_nth zs) by done. rewrite sub_zero. apply IH. by apply all_zero_drop.
Qed.

Lemma euclidean_scalar_origin sum (a zs : list T) :
  all_zero zs -> length zs = length a ->
  euclidean_scalar_from sum a zs = dot_scalar_from sum a a.
Proof.
  revert sum zs. induction a as [|x a IH]; intros sum zs Hz Hlen; [done|].
  destruct zs as [|y zs]; [done|]. apply Forall_cons in Hz as [-> Hz].
  cbn [euclidean_scalar_from dot_scalar_from]. cbv zeta. rewrite sub_zero.
  apply IH; [done|]. simpl in Hlen. lia.
Qed.

Lemma euclideanDistanceSquaredNEON_origin (a zs : list T) :
  all_zero zs -> euclideanDistanceSquaredNEON a zs = dotProductNEON a a.
Proof.
  intros Hz. unfold euclideanDistanceSquaredNEON, dotProductNEON. cbv zeta.
  destruct (euc_loop16_origin (length a) (neon_entry a zs) Hz) as [E16 Hz16].
  destruct (euc_loop4_origin (length a) _ Hz16) as [E4 Hz4].
  rewrite E16 in E4.
  change (to_dot (neon_entry a zs)) with (neon_entry a a) in E4.
  rewrite <- E4. cbn [to_dot R0 R1 R2].
  by apply euc_tail_origin.
Qed.

Lemma EuclideanDistanceSquared_origin arch (a zs : list T) :
  all_zero zs -> length zs = length a ->
  EuclideanDistanceSquared arch a zs = DotProduct arch a a.
Proof.
  intros Hz Hlen.
  unfold EuclideanDistanceSquared, euclideanDistanceSquaredPlatform,
    DotProduct, dotProductPlatform.
  destruct arch; [destruct (4 <=? length a)|].
  - by apply euclideanDistanceSquaredNEON_origin.
  - by apply euclidean_scalar_origin.
  - by apply euclidean_scalar_origin.
Qed.

End KernelOrigin.

Lemma F32_sub_zero x : F32.sub x F32.zero = x.
Proof. by destruct x as [[]|[]| |s m e]. Qed.

(** X17.  The magnitude of a vector is its Euclidean distance to the
    origin, bit for bit: for every vector [a] and the vector [o] of as
    many [+0], [EuclideanDistanceSquared(a, o)] equals
    [DotProduct(a, a)] and [EuclideanDistance(a, o)], as well as
    [EuclideanDistance(o, a)], equals [Magnitude(a)], on every platform
    and for all inputs. *)
Theorem magnitude_is_distance_to_origin arch (a : list float32) :
  let o := replicate (length a) F32.zero in
  EuclideanDistanceSquared arch a o = DotProduct arch a a /\
  EuclideanDistance arch a o = Magnitude arch a /\
  EuclideanDistance arch o a = Magnitude arch a.
Proof.
  intros o.
  assert (EuclideanDistanceSquared arch a o = DotProduct arch a a) as Hsq.
  { apply (EuclideanDistanceSquared_origin (H := float32_arith) F32_sub_zero).
    - apply Forall_forall. by intros y [-> _]%elem_of_replicate.
    - apply length_replicate. }
  split; [done|]. unfold EuclideanDistance, Magnitude. split; [by rewrite Hsq|].
  rewrite <- Hsq. f_equal.
  apply (EuclideanDistanceSquared_swap (H := float32_arith) F32_sq_sub F32_fma_sq_sub).
  apply length_replicate.
Qed.

(* ===================================================================== *)
(** * sqrt32 on perfect squares *)
(* ===================================================================== *)

Lemma sqrt32_squares_check :
  forallb
    (fun n => bool_decide (sqrt32 (F32.of_Z (Z.of_nat n * Z.of_nat n))
                           = F32.of_Z (Z.of_nat n)))
    (seq 0 4096) = true.
Proof. vm_compute. reflexivity. Qed.

(** X18.  [sqrt32] is exact on the perfect squares that binary32 holds
    exactly: for every integer [0 <= n < 4096], [sqrt32] of the float32
    [n * n] is the float32 [n] (neither the rounding of [math.Sqrt] nor
    the conversion back to float32 moves it). *)
Theorem sqrt32_exact_on_squares (n : Z) :
  (0 <= n < 4096)%Z -> sqrt32 (F32.of_Z (n * n)) = F32.of_Z n.
Proof.
  intros Hn.
  pose proof (proj1 (forallb_forall _ _) sqrt32_squares_check (Z.to_nat n)) as Hc.
  cbv beta in Hc. rewrite Z2Nat.id in Hc by lia.
  eapply bool_decide_eq_true_1. apply Hc, in_seq. lia.
Qed.

Lemma sqrt32_exact_on_squares_witness :
  (0 <= 5 < 4096)%Z /\ sqrt32 (F32.of_Z (5 * 5)) = F32.of_Z 5.
Proof.
  assert ((0 <= 5 < 4096)%Z) as Hn by lia.
  split; [exact Hn|]. exact (sqrt32_exact_on_squares 5 Hn).
Defined.
